(** * A shallow embedding of the ILI interpreter for CLI assemblies

    The development follows the C++ sources: the typed evaluation stack
    ([Stack]), the metadata side of an [Assembly] (token resolution, the
    blob length prefix, the reverse look-ups) and the execution engine
    ([Runtime]).  Unsigned machine integers are integers of [Z] with the
    wrap-around written where the code can reach it; raw memory is a list
    of bytes; C++ exceptions and undefined behaviour are explicit results. *)

From stdpp Require Import base numbers list strings gmap.
From Stdlib Require Import ZArith Lia.

Local Open Scope Z_scope.

(** ** Results of running C++ code *)

(** The exceptions the sources throw, one constructor per [throw] site
    (the message of the site is given next to it). *)
Inductive Exception : Type :=
  | NotEnoughData            (* std::out_of_range  "Not enough data on stack to pop" *)
  | PopTypeMismatch          (* std::runtime_error "Tried to pop different type than was on stack" *)
  | StackUnderflow           (* std::out_of_range  "Stack underflow" *)
  | InvalidMethodTokenType   (* std::runtime_error "Invalid method token type" *)
  | InvalidCallTokenType     (* std::runtime_error "Invalid call token type" *)
  | AssemblyNotFound (assemblyName : string)
                             (* std::runtime_error "Could not find assembly '{}'" *)
  | MethodNotFound (assemblyName : string) (ns ty name : string)
                             (* std::runtime_error "Assembly '{}' does not contain method '{}'" *)
  | HeapObjectExists         (* std::runtime_error "Heap object already exists" *)
  | CannotGetByteCode (index : Z)
                             (* std::runtime_error "Cannot get byte code of method {}" *)
  | UnimplementedOpcode (code : Z).
                             (* std::runtime_error "Unimplemented opcode {} (0x{:02})" *)

(** Ways in which the code leaves defined behaviour. *)
Inductive Fault : Type :=
  | NullDeref      (* a null pointer is dereferenced *)
  | OutOfBounds.   (* a read or write outside a buffer, vector or array *)

Inductive Failure : Type :=
  | Throw (e : Exception)
  | Undefined (f : Fault)
  | Signal (signo : string)   (* ::raise *)
  | OutOfFuel.                (* the model's step budget ran out *)

Inductive Res (A : Type) : Type :=
  | Ok (a : A)
  | Fail (f : Failure).
Arguments Ok {A} a.
Arguments Fail {A} f.

(** Stateful code: a computation over a state [S] returns a result and the
    state it leaves.  The state survives a failure, as the members of a C++
    object survive a [throw]. *)
Definition M (S A : Type) : Type := S → Res A * S.

(** Pure fallible look-ups are sequenced with stdpp's [x ← c; k]. *)
#[global] Instance Res_bind : MBind Res := λ A B k x,
  match x with
  | Ok a => k a
  | Fail f => Fail f
  end.

#[global] Instance M_bind {S} : MBind (M S) := λ A B k c s,
  match c s with
  | (Ok a, s') => k a s'
  | (Fail f, s') => (Fail f, s')
  end.
#[global] Instance M_ret {S} : MRet (M S) := λ A a s, (Ok a, s).

Definition fail {S A} (f : Failure) : M S A := λ s, (Fail f, s).
Definition liftRes {S A} (r : Res A) : M S A := λ s, (r, s).
Definition gets {S A} (f : S → A) : M S A := λ s, (Ok (f s), s).
Definition getsRes {S A} (f : S → Res A) : M S A := λ s, (f s, s).
Definition modify {S} (f : S → S) : M S unit := λ s, (Ok tt, f s).

(** ** Bytes *)

Definition u8 := Z.

(** [memcpy] out of a buffer: [n] bytes at offset [off]. *)
Definition readBytes (buf : list u8) (off n : Z) : option (list u8) :=
  if (0 <=? off) && (off + n <=? Z.of_nat (length buf))
  then Some (take (Z.to_nat n) (drop (Z.to_nat off) buf))
  else None.

(** [memcpy] into a buffer at offset [off]. *)
Definition writeBytes (buf : list u8) (off : Z) (bs : list u8) : option (list u8) :=
  if (0 <=? off) && (off + Z.of_nat (length bs) <=? Z.of_nat (length buf))
  then Some (take (Z.to_nat off) buf ++ bs
             ++ drop (Z.to_nat off + length bs) buf)
  else None.

(** Little-endian object representation of an integer in [n] bytes. *)
Fixpoint le_encode (n : nat) (v : Z) : list u8 :=
  match n with
  | O => []
  | S n' => (v mod 256) :: le_encode n' (v / 256)
  end.

Fixpoint le_decode (bs : list u8) : Z :=
  match bs with
  | [] => 0
  | b :: bs' => b + 256 * le_decode bs'
  end.

(** Reinterpretation of a [bits]-bit pattern as a signed integer. *)
Definition to_signed (bits : Z) (v : Z) : Z :=
  let m := v mod 2 ^ bits in
  if m <? 2 ^ (bits - 1) then m else m - 2 ^ bits.

(** ** Value types and the evaluation stack (runtime.hpp) *)

Inductive ValueType : Type :=
  | Invalid | Int32 | Int64 | NativeInt | NativeUnsignedInt | F | O | Pointer.

#[global] Instance ValueType_eq_dec : EqDecision ValueType.
Proof. solve_decision. Defined.

Definition getTypeSize (type : ValueType) : Z :=
  match type with
  | Int32 => 4
  | Int64 => 8
  | NativeInt => 8
  | NativeUnsignedInt => 8
  | F => 8
  | O => 8
  | Pointer => 8
  | Invalid => 0
  end.

(** The C++ types [T] at which [push<T>] and [pop<T>] are instantiated. *)
Inductive PayloadType : Type :=
  | i32 | i64 | Float | NativeInt_t | NativeUnsignedInt_t
  | ManagedPointer | UnmanagedPointer.

Definition getValueType (T : PayloadType) : ValueType :=
  match T with
  | i32 => Int32
  | i64 => Int64
  | Float => F
  | NativeInt_t => NativeInt
  | NativeUnsignedInt_t => NativeUnsignedInt
  | ManagedPointer => O
  | UnmanagedPointer => Pointer
  end.

(** Modelled from the spec: [sizeof(T)].  The header that declares the
    payload types (types.hpp) is not among the sources; the specification
    gives [sizeof(i32) = 4] and eight bytes for every other payload. *)
Definition sizeof (T : PayloadType) : Z :=
  match T with
  | i32 => 4
  | _ => 8
  end.

(** [m_stackPointer] is kept as its distance from [m_stack.data()]; the
    type vector grows at its end, as [push_back] does. *)
Record Stack : Type := mkStack {
  m_stack : list u8;
  m_typeStack : list ValueType;
  m_stackPointer : Z
}.

(** [Stack(size)]: a zero-filled buffer, the pointer at its base. *)
Definition newStack (size : Z) : Stack :=
  mkStack (replicate (Z.to_nat size) 0) [] 0.

(** [m_typeStack[m_typeStack.size() - 1 - pos]].  When [size <= pos] the
    unsigned subtraction wraps to an index past the end of the vector. *)
Definition getTypeOnStack (s : Stack) (pos : Z) : Res ValueType :=
  let size := Z.of_nat (length (m_typeStack s)) in
  if size <=? pos then Fail (Undefined OutOfBounds)
  else match m_typeStack s !! Z.to_nat (size - 1 - pos) with
       | Some t => Ok t
       | None => Fail (Undefined OutOfBounds)
       end.

(** [pop<T>()].  The value returned is the object representation of the
    [T] that was read. *)
Definition pop (T : PayloadType) : M Stack (list u8) := λ s,
  match getTypeOnStack s 0 with
  | Fail f => (Fail f, s)
  | Ok top =>
    let sizeToPop := getTypeSize top in
    if sizeToPop >? sizeof T then (Fail (Throw NotEnoughData), s)
    else if negb (bool_decide (top = getValueType T))
    then (Fail (Throw PopTypeMismatch), s)
    else
      let s' := mkStack (m_stack s)
                        (removelast (m_typeStack s))
                        (m_stackPointer s - sizeof T) in
      if m_stackPointer s' <? 0 then (Fail (Throw StackUnderflow), s')
      else match readBytes (m_stack s') (m_stackPointer s') sizeToPop with
           | Some bs =>
             (Ok (bs ++ replicate (Z.to_nat (sizeof T - sizeToPop)) 0), s')
           | None => (Fail (Undefined OutOfBounds), s')
           end
  end.

(** [push<T>(value)], [value] given by its object representation. *)
Definition push (T : PayloadType) (value : list u8) : M Stack unit := λ s,
  let ValueType := getValueType T in
  let ValueSize := getTypeSize ValueType in
  match writeBytes (m_stack s) (m_stackPointer s) (take (Z.to_nat ValueSize) value) with
  | Some buf =>
    (Ok tt, mkStack buf (m_typeStack s ++ [ValueType]) (m_stackPointer s + sizeof T))
  | None => (Fail (Undefined OutOfBounds), s)
  end.

Definition getUsedStackSize (s : Stack) : Z := m_stackPointer s.

(** ** The blob length prefix (assembly.cpp) *)

Definition getBlobHeaderSize (firstByte : u8) : Z :=
  if Z.land firstByte 0x80 =? 0x00 then 1
  else if Z.land firstByte 0xC0 =? 0x80 then 2
  else if Z.land firstByte 0xE0 =? 0xC0 then 4
  else 0.

(** [blobStart[i]] *)
Definition byteAt (blobStart : list u8) (i : Z) : Res u8 :=
  if i <? 0 then Fail (Undefined OutOfBounds)
  else match blobStart !! Z.to_nat i with
       | Some b => Ok b
       | None => Fail (Undefined OutOfBounds)
       end.

Definition getBlobSize (blobStart : list u8) (index : Z) : Res Z :=
  b0 ← byteAt blobStart index;
  match getBlobHeaderSize b0 with
  | 1 => Ok b0
  | 2 =>
    b1 ← byteAt blobStart (index + 1);
    Ok (Z.shiftl (Z.land b0 0x3F) 8 + b1)
  | 4 =>
    b1 ← byteAt blobStart (index + 1);
    b2 ← byteAt blobStart (index + 2);
    b3 ← byteAt blobStart (index + 3);
    Ok (Z.shiftl (Z.land b0 0x1F) 24 + Z.shiftl b1 16 + Z.shiftl b2 8 + Z.shiftl b3 0)
  | _ => Ok 0
  end.

(** [getBlob]: the span of the payload that follows the prefix, given by
    its offset in the heap and its size. *)
Definition getBlob (blobStart : list u8) (index : Z) : Res (Z * Z) :=
  b0 ← byteAt blobStart index;
  let blobHeaderSize := getBlobHeaderSize b0 in
  blobSize ← getBlobSize blobStart index;
  Ok (index + blobHeaderSize, blobSize).

(** Modelled from the spec: the writer of a blob length prefix.  The sources
    only read prefixes; the layout is the one the specification lists:
    [0xxxxxxx] for 7-bit lengths, [10xxxxxx] and one more byte for 14-bit
    lengths, [110xxxxx] and three more bytes for 29-bit lengths, the most
    significant bits first. *)
Definition encodeBlobLength (L : Z) : list u8 :=
  if L <? 2 ^ 7 then [L]
  else if L <? 2 ^ 14 then [Z.lor 0x80 (Z.shiftr L 8); Z.land L 0xFF]
  else [Z.lor 0xC0 (Z.shiftr L 24);
        Z.land (Z.shiftr L 16) 0xFF;
        Z.land (Z.shiftr L 8) 0xFF;
        Z.land L 0xFF].

(** ** Metadata tables and tokens (assembly.hpp, assembly.cpp) *)

(** Pointers are addresses; the null pointer is address zero. *)
Definition nullptr : Z := 0.

(** Modelled from the spec: [table::Token], a 32-bit value made of a
    table-id byte and a 24-bit row index (tables.hpp is not among the
    sources).  [Token_make] is the constructor [Token(T::ID, index)]. *)
Record Token : Type := mkToken { getId : Z; getIndex : Z }.

Definition Token_value (t : Token) : Z := getId t * 2 ^ 24 + getIndex t.
Definition Token_of_value (v : Z) : Token :=
  mkToken (Z.shiftr v 24 mod 256) (Z.land v 0xFFFFFF).
Definition Token_make (id index : Z) : Token := mkToken id (index mod 2 ^ 24).

(** Modelled from the spec: the [T::ID] constants of the row kinds the
    specification and the sources name (tables.hpp is not among the
    sources).  The numbers are those of ECMA-335, the positions at which
    [getMetadataTableSize] keeps the sizes of these rows. *)
Definition Module_ID : Z := 0x00.
Definition TypeRef_ID : Z := 0x01.
Definition TypeDef_ID : Z := 0x02.
Definition Field_ID : Z := 0x04.
Definition MethodDef_ID : Z := 0x06.
Definition MemberRef_ID : Z := 0x0A.
Definition AssemblyRef_ID : Z := 0x23.

(** The table [MetadataTableSizes] of 64 row sizes: eight entries of the
    first line, then the table as far as its last non-zero entry, at index
    [0x23], with the runs of zeros counted. *)
Definition MetadataTableSizes : list Z :=
  [0x0A; 0x06; 0x0E; 0x00; 0x06; 0x00; 0x0E; 0x00]
  ++ [0x06; 0x00; 0x06; 0x00; 0x06] ++ replicate 4 0x00
  ++ [0x02] ++ replicate 14 0x00
  ++ [0x16; 0x00; 0x00; 0x14] ++ replicate 28 0x00.

Definition getMetadataTableSize (index : Z) : Z :=
  if (index <? 0) || (Z.of_nat (length MetadataTableSizes) <=? index) then 0
  else nth (Z.to_nat index) MetadataTableSizes 0.

(** The fields of the row structs that the sources read.  An index into the
    string heap is a byte offset; [methodListIndex] is a 1-based index into
    the MethodDef table; the parent of a MemberRef and the resolution scope
    of a TypeRef are used as tokens. *)
Record TypeDef : Type := mkTypeDef {
  td_typeNameIndex : Z;
  td_typeNamespaceIndex : Z;
  td_methodListIndex : Z
}.
Record MethodDef : Type := mkMethodDef { md_rva : Z; md_nameIndex : Z }.
Record Field : Type := mkField { fd_nameIndex : Z }.
Record MemberRef : Type := mkMemberRef { mr_classIndex : Token; mr_nameIndex : Z }.
Record TypeRef : Type := mkTypeRef {
  tr_resolutionScopeIndex : Token;
  tr_typeNameIndex : Z;
  tr_typeNamespaceIndex : Z
}.
Record AssemblyRef : Type := mkAssemblyRef { ar_nameIndex : Z }.
Record Module_ : Type := mkModule { mod_nameIndex : Z }.

(** What the bytes of a row are when read through the struct of its table. *)
Inductive RowView : Type :=
  | VModule (r : Module_)
  | VTypeRef (r : TypeRef)
  | VTypeDef (r : TypeDef)
  | VField (r : Field)
  | VMethodDef (r : MethodDef)
  | VMemberRef (r : MemberRef)
  | VAssemblyRef (r : AssemblyRef)
  | VRaw.

(** One element of a table: the [std::span<u8>] of the row (address and
    extent) together with its typed view. *)
Record Row : Type := mkRow { row_data : Z; row_size : Z; row_view : RowView }.

(** What [Method::getByteCode] finds at the RVA of a method: a tiny or a
    fat header followed by the code, or bytes that are neither. *)
Inductive MethodBody : Type :=
  | TinyBody (code : list u8)
  | FatBody (code : list u8)
  | BogusBody.

Record Assembly : Type := mkAssembly {
  m_data_ptr : Z;                    (* m_data.data() *)
  m_data : list u8;
  tableData : list (list Row);       (* m_streams.tilde.tableData, 64 tables *)
  stringData : string;               (* m_streams.string.data *)
  entryPointToken : Token;           (* m_crlRuntimeHeader->entryPointToken *)
  sizeOfStackReserve : Z;            (* m_optionalHeader->sizeOfStackReserve *)
  methodBodies : list (Z * MethodBody)  (* the bodies in the sections, by RVA *)
}.

(** The loop of [parseStreams] that slices a table: consecutive rows of
    the fixed row size, starting at the parse pointer. *)
Fixpoint sliceRows (parsePointer tableSize : Z) (views : list RowView) : list Row :=
  match views with
  | [] => []
  | v :: views' =>
    mkRow parsePointer tableSize v
    :: sliceRows (parsePointer + tableSize) tableSize views'
  end.

(** A span lies inside the byte buffer the assembly owns. *)
Definition inBuffer (a : Assembly) (p size : Z) : Prop :=
  m_data_ptr a <= p ∧ p + size <= m_data_ptr a + Z.of_nat (length (m_data a)).

Definition getEntrypointMethodToken (a : Assembly) : Token := entryPointToken a.
Definition getStackSize (a : Assembly) : Z := sizeOfStackReserve a.

(** [getString]: the NUL-terminated string at a byte offset of the heap.
    The code reads from the offset up to the first NUL, wherever that is;
    here the string ends with the heap at the latest, so the two agree for
    the offsets of [inStringHeap] below and for no others. *)
Fixpoint cstring (s : string) : string :=
  match s with
  | EmptyString => EmptyString
  | String c s' => if Ascii.eqb c Ascii.zero then EmptyString else String c (cstring s')
  end.

Fixpoint string_drop (n : nat) (s : string) : string :=
  match n, s with
  | 0%nat, _ => s
  | S n', String _ s' => string_drop n' s'
  | S _, EmptyString => EmptyString
  end.

Definition getString (a : Assembly) (index : Z) : string :=
  cstring (string_drop (Z.to_nat index) (stringData a)).

Definition getTableRowCount (a : Assembly) (id : Z) : Z :=
  match tableData a !! Z.to_nat id with
  | Some table => Z.of_nat (length table)
  | None => 0
  end.

(** [getTableEntry<T>(token)], [ID] standing for [T::ID].  The index is
    computed in 32 bits, so the index of a null token wraps. *)
Definition getTableEntry (a : Assembly) (ID : Z) (token : Token) : Res Z :=
  if negb (getId token =? ID) then Ok nullptr
  else
    let id := getId token in
    let index := (getIndex token - 1) mod 2 ^ 32 in
    if id >? 64 then Ok nullptr
    else match tableData a !! Z.to_nat id with
         | None => Fail (Undefined OutOfBounds)
         | Some table =>
           if index >? Z.of_nat (length table) then Ok nullptr
           else match table !! Z.to_nat index with
                | Some row => Ok (row_data row)
                | None => Fail (Undefined OutOfBounds)
                end
         end.

(** [getTableEntryByIndex<T>(index)] *)
Definition getTableEntryByIndex (a : Assembly) (ID : Z) (index : Z) : Res Z :=
  if (index =? 0) || (index >? getTableRowCount a ID + 1) then Ok nullptr
  else getTableEntry a ID (Token_make ID index).

(** Reading a row through a typed pointer. *)
Definition rowAt (a : Assembly) (ID : Z) (p : Z) : Res RowView :=
  if p =? nullptr then Fail (Undefined NullDeref)
  else match tableData a !! Z.to_nat ID with
       | None => Fail (Undefined OutOfBounds)
       | Some table =>
         match List.find (λ r, row_data r =? p) table with
         | Some r => Ok (row_view r)
         | None => Fail (Undefined OutOfBounds)
         end
       end.

Definition derefModule (a : Assembly) (p : Z) : Res Module_ :=
  v ← rowAt a Module_ID p;
  match v with VModule r => Ok r | _ => Fail (Undefined OutOfBounds) end.
Definition derefTypeRef (a : Assembly) (p : Z) : Res TypeRef :=
  v ← rowAt a TypeRef_ID p;
  match v with VTypeRef r => Ok r | _ => Fail (Undefined OutOfBounds) end.
Definition derefTypeDef (a : Assembly) (p : Z) : Res TypeDef :=
  v ← rowAt a TypeDef_ID p;
  match v with VTypeDef r => Ok r | _ => Fail (Undefined OutOfBounds) end.
Definition derefField (a : Assembly) (p : Z) : Res Field :=
  v ← rowAt a Field_ID p;
  match v with VField r => Ok r | _ => Fail (Undefined OutOfBounds) end.
Definition derefMethodDef (a : Assembly) (p : Z) : Res MethodDef :=
  v ← rowAt a MethodDef_ID p;
  match v with VMethodDef r => Ok r | _ => Fail (Undefined OutOfBounds) end.
Definition derefMemberRef (a : Assembly) (p : Z) : Res MemberRef :=
  v ← rowAt a MemberRef_ID p;
  match v with VMemberRef r => Ok r | _ => Fail (Undefined OutOfBounds) end.
Definition derefAssemblyRef (a : Assembly) (p : Z) : Res AssemblyRef :=
  v ← rowAt a AssemblyRef_ID p;
  match v with VAssemblyRef r => Ok r | _ => Fail (Undefined OutOfBounds) end.

Definition getModule (a : Assembly) : Res Z := getTableEntryByIndex a Module_ID 1.

(** [getTokenOfTableEntry<T>(tableEntry)]: [n] rows are left to try from
    the 0-based [index] on. *)
Fixpoint getTokenOfTableEntry_loop (a : Assembly) (ID : Z) (tableEntry : Z)
    (index : Z) (n : nat) : Res Token :=
  match n with
  | 0%nat => Ok (mkToken 0xFF 0x00)
  | S n' =>
    p ← getTableEntryByIndex a ID (index + 1);
    if p =? tableEntry then Ok (Token_make ID (index + 1))
    else getTokenOfTableEntry_loop a ID tableEntry (index + 1) n'
  end.

Definition getTokenOfTableEntry (a : Assembly) (ID : Z) (tableEntry : Z) : Res Token :=
  getTokenOfTableEntry_loop a ID tableEntry 0 (Z.to_nat (getTableRowCount a ID)).

(** [getTypeDefOfMethod]: the loop runs [i] from 1 while
    [i < methodDefCount]; [n] iterations are left. *)
Fixpoint getTypeDefOfMethod_loop (a : Assembly) (methodToFind : Z)
    (methodDefCount : Z) (i : Z) (n : nat) : Res Z :=
  match n with
  | 0%nat => getTableEntryByIndex a TypeDef_ID methodDefCount
  | S n' =>
    currTypeDef ← getTableEntryByIndex a TypeDef_ID (i + 0);
    nextTypeDef ← getTableEntryByIndex a TypeDef_ID (i + 1);
    curr ← derefTypeDef a currTypeDef;
    currMethodDef ← getTableEntryByIndex a MethodDef_ID (td_methodListIndex curr);
    next ← derefTypeDef a nextTypeDef;
    nextMethodDef ← getTableEntryByIndex a MethodDef_ID (td_methodListIndex next);
    if (methodToFind >=? currMethodDef) && (methodToFind <? nextMethodDef)
    then Ok nextTypeDef
    else getTypeDefOfMethod_loop a methodToFind methodDefCount (i + 1) n'
  end.

Definition getTypeDefOfMethod (a : Assembly) (methodToFind : Z) : Res Z :=
  if methodToFind =? nullptr then Ok nullptr
  else
    let methodDefCount := getTableRowCount a MethodDef_ID in
    getTypeDefOfMethod_loop a methodToFind methodDefCount 1
      (Z.to_nat (methodDefCount - 1)).

(** The inner loop of [getMethodByName].  Its condition compares the type
    counter [index], which the loop does not change, so it is tested once
    per round with the same outcome; a round ends the loop by a match or
    by the dereference of a method that is not there.  [n] bounds the
    rounds. *)
Fixpoint getMethodByName_methods (a : Assembly) (methodName : string)
    (index nextMethodList : Z) (methodListIndex : Z) (n : nat) : Res (option Z) :=
  if index <? nextMethodList then
    match n with
    | 0%nat => Fail OutOfFuel
    | S n' =>
      methodDef ← getTableEntryByIndex a MethodDef_ID methodListIndex;
      md ← derefMethodDef a methodDef;
      let foundMethodName := getString a (md_nameIndex md) in
      if negb (String.eqb foundMethodName methodName)
      then getMethodByName_methods a methodName index nextMethodList
             (methodListIndex + 1) n'
      else Ok (Some methodDef)
    end
  else Ok None.

(** The outer loop of [getMethodByName] over the TypeDef rows. *)
Fixpoint getMethodByName_types (a : Assembly) (namespaceName typeName methodName : string)
    (index : Z) (n : nat) : Res Z :=
  match n with
  | 0%nat => Ok nullptr
  | S n' =>
    typeDef ← getTableEntryByIndex a TypeDef_ID (index + 1);
    td ← derefTypeDef a typeDef;
    let foundTypeNamespaceName := getString a (td_typeNamespaceIndex td) in
    if negb (String.eqb namespaceName foundTypeNamespaceName)
    then getMethodByName_types a namespaceName typeName methodName (index + 1) n'
    else
      let foundTypeName := getString a (td_typeNameIndex td) in
      if negb (String.eqb foundTypeName typeName)
      then getMethodByName_types a namespaceName typeName methodName (index + 1) n'
      else
        nextTypeDef ← getTableEntryByIndex a TypeDef_ID (index + 2);
        next ← derefTypeDef a nextTypeDef;
        found ← getMethodByName_methods a methodName index (td_methodListIndex next)
                  (td_methodListIndex td)
                  (Z.to_nat (getTableRowCount a MethodDef_ID) + 2);
        match found with
        | Some methodDef => Ok methodDef
        | None =>
          getMethodByName_types a namespaceName typeName methodName (index + 1) n'
        end
  end.

Definition getMethodByName (a : Assembly) (namespaceName typeName methodName : string) : Res Z :=
  getMethodByName_types a namespaceName typeName methodName 0
    (Z.to_nat (getTableRowCount a TypeDef_ID)).

Record QualifiedName : Type := mkQualifiedName {
  qn_assemblyName : string;
  qn_namespaceName : string;
  qn_typeName : string;
  qn_methodName : string
}.

Definition getQualifiedMemberName (a : Assembly) (memberRefToken : Token) : Res QualifiedName :=
  memberRef ← getTableEntry a MemberRef_ID memberRefToken;
  mr ← derefMemberRef a memberRef;
  typeRef ← getTableEntry a TypeRef_ID (mr_classIndex mr);
  tr ← derefTypeRef a typeRef;
  assemblyRef ← getTableEntry a AssemblyRef_ID (tr_resolutionScopeIndex tr);
  ar ← derefAssemblyRef a assemblyRef;
  Ok (mkQualifiedName (getString a (ar_nameIndex ar))
                      (getString a (tr_typeNamespaceIndex tr))
                      (getString a (tr_typeNameIndex tr))
                      (getString a (mr_nameIndex mr))).

(** ** Instructions (opcodes.hpp) *)

(** The opcodes [executeInstructions] names; every other opcode is
    [OtherOpcode] with its number. *)
Inductive Opcode : Type :=
  | Nop | Brk | Call | Ldstr | Ldloca_s
  | Ldarg_0 | Ldarg_1 | Ldarg_2 | Ldarg_3 | Ldarg | Ldarg_s
  | Stloc_0 | Stloc_1 | Stloc_2 | Stloc_3 | Stloc | Stloc_s
  | Ldloc_0 | Ldloc_1 | Ldloc_2 | Ldloc_3 | Ldloc | Ldloc_s
  | Ret | Br | Br_s | Ldsflda | Ldsfld
  | Ldc_i4 | Ldc_i4_s | Ldc_i8 | Ldc_r4 | Ldc_r8
  | Ldc_i4_0 | Ldc_i4_1 | Ldc_i4_2 | Ldc_i4_3 | Ldc_i4_4
  | Ldc_i4_5 | Ldc_i4_6 | Ldc_i4_7 | Ldc_i4_8 | Ldc_i4_m1
  | Stsfld | Pop | Newobj
  | OtherOpcode (code : Z).

(** Modelled from the spec: [op::Instruction], an opcode followed by its
    operand bytes, with the length by which the program counter advances
    (opcodes.hpp is not among the sources).  The extractors [get<T>(0)]
    read the first operand in little-endian order. *)
Record Instruction : Type := mkInstruction {
  getOpcode : Opcode;
  operands : list u8;
  getLength : Z
}.

Definition get_u8 (i : Instruction) : Z := le_decode (take 1 (operands i)).
Definition get_u16 (i : Instruction) : Z := le_decode (take 2 (operands i)).
Definition get_i8 (i : Instruction) : Z := to_signed 8 (le_decode (take 1 (operands i))).
Definition get_i32 (i : Instruction) : Z := to_signed 32 (le_decode (take 4 (operands i))).
Definition get_i64 (i : Instruction) : Z := to_signed 64 (le_decode (take 8 (operands i))).
Definition get_float (i : Instruction) : Z := le_decode (take 4 (operands i)).
Definition get_double (i : Instruction) : Z := le_decode (take 8 (operands i)).
Definition get_Token (i : Instruction) : Token :=
  Token_of_value (le_decode (take 4 (operands i))).

(** What the engine uses and the sources do not contain: the decoder of
    an instruction at the head of a byte range, three members of
    [Assembly] that are only called, and the widening of a single-precision
    bit pattern to double precision. *)
Class Externals : Type := {
  decode : list u8 → Instruction;
  getTypeDefOfField : Assembly → Z → Res Z;
  getMethodOfType : Assembly → Z → string → Res Z;
  Assembly_getTypeSize : Assembly → Z → Res Z;
  floatToDouble : Z → Z
}.

(** ** Method frames (runtime.hpp, runtime.cpp) *)

(** [Variable<T>] behind a [VariableBase] pointer: the tag and the object
    representation of the value; [var_ptr] is the address of the object. *)
Record VariableBase : Type := mkVariable {
  var_ptr : Z;
  type : ValueType;
  value : list u8
}.

(** The two lazily filled members [m_methodDef] and [m_byteCode] are not
    kept: an assembly never changes, so what they would hold is what
    [getMethodDef] and [getByteCode] compute again. *)
Record Method : Type := mkMethod {
  m_assembly : Assembly;
  m_methodToken : Token;
  m_instructionOffset : Z;
  m_localVariables : list (option VariableBase)
}.

(** [Method(assembly, methodToken)]; the array has [0xFF] slots. *)
Definition newMethod (assembly : Assembly) (methodToken : Token) : Method :=
  mkMethod assembly methodToken 0 (replicate 0xFF%nat None).

Definition getMethodDef (m : Method) : Res Z :=
  getTableEntry (m_assembly m) MethodDef_ID (m_methodToken m).

Definition findBody (a : Assembly) (rva : Z) : option MethodBody :=
  snd <$> List.find (λ b, fst b =? rva) (methodBodies a).

Definition getByteCode (m : Method) : Res (list u8) :=
  methodDef ← getMethodDef m;
  md ← derefMethodDef (m_assembly m) methodDef;
  match findBody (m_assembly m) (md_rva md) with
  | None => Ok []                            (* section == nullptr *)
  | Some (TinyBody (b :: code)) => Ok (b :: code)
  | Some (FatBody (b :: code)) => Ok (b :: code)
  | Some _ => Fail (Throw (CannotGetByteCode (getIndex (m_methodToken m))))
  end.

Definition setInstructionOffset (m : Method) (off : Z) : Method :=
  mkMethod (m_assembly m) (m_methodToken m) off (m_localVariables m).

Definition setLocalVariable (m : Method) (index : Z) (v : option VariableBase) : Method :=
  mkMethod (m_assembly m) (m_methodToken m) (m_instructionOffset m)
           (<[Z.to_nat index := v]> (m_localVariables m)).

(** [getLocalVariable(index)]: the slot, when the index is inside the array. *)
Definition getLocalVariable (m : Method) (index : Z) : Res (option VariableBase) :=
  match m_localVariables m !! Z.to_nat index with
  | Some slot => Ok slot
  | None => Fail (Undefined OutOfBounds)
  end.

Definition offsetProgramCounter (m : Method) (programCounter : Z) : Method :=
  setInstructionOffset m ((m_instructionOffset m + programCounter) mod 2 ^ 64).

(** ** The runtime (runtime.hpp, execution.cpp) *)

(** The lines written to the standard output, with the row a line is about. *)
Inductive Event : Type :=
  | EvOpcode (op : Opcode)
  | EvExecuting (name : QualifiedName)
  | EvInitializingType (typeDef : Z) (name : string)
  | EvAccessingField (name : string).

(** [m_evalStack] is the member [m_stack] of the runtime.  An entry of the
    heap keeps the address of its vector's storage.  [freeStore] is the next
    address the free store hands out and [output] the standard output. *)
Record Runtime : Type := mkRuntime {
  m_assemblies : gmap string Assembly;
  m_methodStack : list Method;
  m_assemblyLoaders : list (string → option Assembly);
  m_evalStack : Stack;
  m_initializedTypes : gset Z;
  m_staticVariables : gmap Z (option VariableBase);
  m_heapKey : Z;
  m_heap : gmap Z (Z * list u8);
  freeStore : Z;
  output : list Event
}.

Definition newRuntime : Runtime :=
  mkRuntime ∅ [] [] (mkStack [] [] 0) ∅ ∅ 0 ∅ 0x1000 [].

Definition set_assemblies (x : gmap string Assembly) (rt : Runtime) : Runtime :=
  mkRuntime x (m_methodStack rt) (m_assemblyLoaders rt) (m_evalStack rt)
    (m_initializedTypes rt) (m_staticVariables rt) (m_heapKey rt) (m_heap rt)
    (freeStore rt) (output rt).
Definition set_methodStack (x : list Method) (rt : Runtime) : Runtime :=
  mkRuntime (m_assemblies rt) x (m_assemblyLoaders rt) (m_evalStack rt)
    (m_initializedTypes rt) (m_staticVariables rt) (m_heapKey rt) (m_heap rt)
    (freeStore rt) (output rt).
Definition set_assemblyLoaders (x : list (string → option Assembly)) (rt : Runtime) : Runtime :=
  mkRuntime (m_assemblies rt) (m_methodStack rt) x (m_evalStack rt)
    (m_initializedTypes rt) (m_staticVariables rt) (m_heapKey rt) (m_heap rt)
    (freeStore rt) (output rt).
Definition set_evalStack (x : Stack) (rt : Runtime) : Runtime :=
  mkRuntime (m_assemblies rt) (m_methodStack rt) (m_assemblyLoaders rt) x
    (m_initializedTypes rt) (m_staticVariables rt) (m_heapKey rt) (m_heap rt)
    (freeStore rt) (output rt).
Definition set_initializedTypes (x : gset Z) (rt : Runtime) : Runtime :=
  mkRuntime (m_assemblies rt) (m_methodStack rt) (m_assemblyLoaders rt) (m_evalStack rt)
    x (m_staticVariables rt) (m_heapKey rt) (m_heap rt)
    (freeStore rt) (output rt).
Definition set_staticVariables (x : gmap Z (option VariableBase)) (rt : Runtime) : Runtime :=
  mkRuntime (m_assemblies rt) (m_methodStack rt) (m_assemblyLoaders rt) (m_evalStack rt)
    (m_initializedTypes rt) x (m_heapKey rt) (m_heap rt)
    (freeStore rt) (output rt).
Definition set_heap (key : Z) (x : gmap Z (Z * list u8)) (rt : Runtime) : Runtime :=
  mkRuntime (m_assemblies rt) (m_methodStack rt) (m_assemblyLoaders rt) (m_evalStack rt)
    (m_initializedTypes rt) (m_staticVariables rt) key x
    (freeStore rt) (output rt).
Definition set_freeStore (x : Z) (rt : Runtime) : Runtime :=
  mkRuntime (m_assemblies rt) (m_methodStack rt) (m_assemblyLoaders rt) (m_evalStack rt)
    (m_initializedTypes rt) (m_staticVariables rt) (m_heapKey rt) (m_heap rt)
    x (output rt).
Definition set_output (x : list Event) (rt : Runtime) : Runtime :=
  mkRuntime (m_assemblies rt) (m_methodStack rt) (m_assemblyLoaders rt) (m_evalStack rt)
    (m_initializedTypes rt) (m_staticVariables rt) (m_heapKey rt) (m_heap rt)
    (freeStore rt) x.

(** [fmt::println] *)
Definition println (e : Event) : M Runtime unit :=
  modify (λ rt, set_output (output rt ++ [e]) rt).

(** An allocation of [n] bytes on the free store; addresses are handed out
    in increasing order and never again. *)
Definition allocate (n : Z) : M Runtime Z := λ rt,
  (Ok (freeStore rt), set_freeStore (freeStore rt + Z.max n 1) rt).

(** A stack operation run on the runtime's evaluation stack. *)
Definition onStack {A} (c : M Stack A) : M Runtime A := λ rt,
  let '(r, s') := c (m_evalStack rt) in (r, set_evalStack s' rt).

(** A runtime operation run in a frame that it leaves as it is. *)
Definition inFrame {A} (c : M Runtime A) : M (Method * Runtime) A := λ '(method, rt),
  let '(r, rt') := c rt in (r, (method, rt')).

(** The payload type at which a [switch] over a tag instantiates [push]
    and [pop]; [Invalid] has none. *)
Definition payloadOf (t : ValueType) : option PayloadType :=
  match t with
  | Int32 => Some i32
  | Int64 => Some i64
  | NativeInt => Some NativeInt_t
  | NativeUnsignedInt => Some NativeUnsignedInt_t
  | F => Some Float
  | O => Some ManagedPointer
  | Pointer => Some UnmanagedPointer
  | Invalid => None
  end.

Definition addAssemblyLoader (function : string → option Assembly) (rt : Runtime) : Runtime :=
  set_assemblyLoaders (m_assemblyLoaders rt ++ [function]) rt.

(** [m_assemblies.emplace(name, assembly)]: an entry that is there stays. *)
Definition emplaceAssembly (name : string) (a : Assembly) : M Runtime Assembly := λ rt,
  match m_assemblies rt !! name with
  | Some old => (Ok old, rt)
  | None => (Ok a, set_assemblies (<[name := a]> (m_assemblies rt)) rt)
  end.

Definition addAssembly (assembly : Assembly) : M Runtime unit :=
  module ← liftRes (getModule assembly);
  md ← liftRes (derefModule assembly module);
  emplaceAssembly (getString assembly (mod_nameIndex md)) assembly;;
  mret tt.

Definition createVariableFromStackContent : M Runtime VariableBase :=
  type ← onStack (getsRes (λ s, getTypeOnStack s 0));
  match payloadOf type with
  | Some T =>
    v ← onStack (pop T);
    p ← allocate (8 + sizeof T);
    mret (mkVariable p type v)
  | None => fail (Throw InvalidMethodTokenType)
  end.

Definition storeVariableOnStack (variable : option VariableBase) : M Runtime unit :=
  match variable with
  | None => fail (Undefined NullDeref)
  | Some v =>
    match payloadOf (type v) with
    | Some T => onStack (push T (value v))
    | None => fail (Throw InvalidMethodTokenType)
    end
  end.

(** The storage of a [std::vector<u8>] of [size] bytes; [data()] of an empty
    vector is the null pointer. *)
Definition vectorStorage (size : Z) : M Runtime Z :=
  if size <=? 0 then mret nullptr else allocate size.

Definition createHeapObject (size : Z) : M Runtime VariableBase :=
  heapKey ← gets m_heapKey;
  heap ← gets m_heap;
  match heap !! heapKey with
  | Some _ => fail (Throw HeapObjectExists)
  | None =>
    data ← vectorStorage size;
    modify (set_heap ((heapKey + 1) mod 2 ^ 64)
                     (<[heapKey := (data, replicate (Z.to_nat size) 0)]> heap));;
    p ← allocate 16;
    mret (mkVariable p O (le_encode 8 data))
  end.

(** The first loader that has the assembly, in the order of the list. *)
Fixpoint tryLoaders (loaders : list (string → option Assembly)) (assemblyName : string)
    : option Assembly :=
  match loaders with
  | [] => None
  | loaderFunction :: rest =>
    match loaderFunction assemblyName with
    | Some result => Some result
    | None => tryLoaders rest assemblyName
    end
  end.

(** The look-up of the callee's assembly in [call] and [newobj]. *)
Definition findAssembly (assemblyName : string) : M Runtime Assembly := λ rt,
  match m_assemblies rt !! assemblyName with
  | Some a => (Ok a, rt)
  | None =>
    match tryLoaders (m_assemblyLoaders rt) assemblyName with
    | Some result =>
      (Ok result, set_assemblies (<[assemblyName := result]> (m_assemblies rt)) rt)
    | None => (Fail (Throw (AssemblyNotFound assemblyName)), rt)
    end
  end.

Definition nop : M Runtime unit := mret tt.
Definition brk : M Runtime unit := fail (Signal "SIGILL").

Definition ldstr (value : Token) : M Runtime unit :=
  onStack (push ManagedPointer (le_encode 8 (Token_value value))).

Definition ldarg (id : Z) : M (Method * Runtime) unit := mret tt.

Definition ldc (T : PayloadType) (value : Z) : M Runtime unit :=
  onStack (push T (le_encode (Z.to_nat (sizeof T)) value)).

Definition stloc (id : Z) : M (Method * Runtime) unit :=
  _ ← getsRes (λ s, getLocalVariable (fst s) id);
  v ← inFrame createVariableFromStackContent;
  modify (λ '(method, rt), (setLocalVariable method id (Some v), rt)).

Definition ldloc (id : Z) : M (Method * Runtime) unit :=
  localVariable ← getsRes (λ s, getLocalVariable (fst s) id);
  match localVariable with
  | None => fail (Undefined NullDeref)
  | Some v =>
    match payloadOf (type v) with
    | Some T =>
      inFrame (onStack (push T (value v)));;
      modify (λ '(method, rt), (setLocalVariable method id None, rt))
    | None => fail (Throw InvalidMethodTokenType)
    end
  end.

Definition ldloca (id : Z) : M (Method * Runtime) unit :=
  localVariable ← getsRes (λ s, getLocalVariable (fst s) id);
  inFrame (onStack (push UnmanagedPointer
    (le_encode 8 (from_option var_ptr nullptr localVariable)))).

Definition br (offset : Z) : M (Method * Runtime) unit :=
  modify (λ '(method, rt), (offsetProgramCounter method offset, rt)).

Definition Runtime_pop : M Runtime unit :=
  type ← onStack (getsRes (λ s, getTypeOnStack s 0));
  match payloadOf type with
  | Some T => onStack (pop T);; mret tt
  | None => fail (Throw InvalidMethodTokenType)
  end.

(** [m_staticVariables[field]]: a key that is not there is inserted with a
    null pointer. *)
Definition staticVariable (field : Z) : M Runtime (option VariableBase) := λ rt,
  match m_staticVariables rt !! field with
  | Some v => (Ok v, rt)
  | None => (Ok None, set_staticVariables (<[field := None]> (m_staticVariables rt)) rt)
  end.

Section Engine.
Context {ext : Externals}.

(** The handlers that enter a method take [executeInstructions] as
    [exec]; a callee's frame is a local of the handler and is gone when
    the handler returns. *)
Section Handlers.
Variable exec : M (Method * Runtime) unit.

Definition enterFrame (methodToCall : Method) : M (Method * Runtime) unit :=
  λ '(method, rt),
    let '(r, (_, rt')) := exec (methodToCall, rt) in (r, (method, rt')).

Definition call (token : Token) : M (Method * Runtime) unit :=
  method ← gets fst;
  if getId token =? MethodDef_ID then
    let executable := m_assembly method in
    let methodToCall := newMethod executable token in
    let methodExecutable := m_assembly methodToCall in
    methodDef ← liftRes (getMethodDef methodToCall);
    typeDef ← liftRes (getTypeDefOfMethod executable methodDef);
    module ← liftRes (getModule executable);
    mo ← liftRes (derefModule executable module);
    td ← liftRes (derefTypeDef methodExecutable typeDef);
    md ← liftRes (derefMethodDef methodExecutable methodDef);
    inFrame (println (EvExecuting (mkQualifiedName
      (getString methodExecutable (mod_nameIndex mo))
      (getString methodExecutable (td_typeNamespaceIndex td))
      (getString methodExecutable (td_typeNameIndex td))
      (getString methodExecutable (md_nameIndex md)))));;
    enterFrame methodToCall
  else if getId token =? MemberRef_ID then
    qualifiedMethodName ← liftRes (getQualifiedMemberName (m_assembly method) token);
    let assemblyName := qn_assemblyName qualifiedMethodName in
    assembly ← inFrame (findAssembly assemblyName);
    methodDef ← liftRes (getMethodByName assembly
                  (qn_namespaceName qualifiedMethodName)
                  (qn_typeName qualifiedMethodName)
                  (qn_methodName qualifiedMethodName));
    if methodDef =? nullptr then
      fail (Throw (MethodNotFound assemblyName
                     (qn_namespaceName qualifiedMethodName)
                     (qn_typeName qualifiedMethodName)
                     (qn_methodName qualifiedMethodName)))
    else
      inFrame (println (EvExecuting qualifiedMethodName));;
      tok ← liftRes (getTokenOfTableEntry assembly MethodDef_ID methodDef);
      enterFrame (newMethod assembly tok)
  else fail (Throw InvalidCallTokenType).

Definition newobj (token : Token) : M (Method * Runtime) unit :=
  method ← gets fst;
  if getId token =? MethodDef_ID then
    let executable := m_assembly method in
    let methodToCall := newMethod executable token in
    let methodExecutable := m_assembly methodToCall in
    methodDef ← liftRes (getMethodDef methodToCall);
    typeDef ← liftRes (getTypeDefOfMethod executable methodDef);
    objectSize ← liftRes (Assembly_getTypeSize methodExecutable typeDef);
    newObjectReference ← inFrame (createHeapObject objectSize);
    inFrame (storeVariableOnStack (Some newObjectReference));;
    enterFrame methodToCall
  else if getId token =? MemberRef_ID then
    qualifiedMethodName ← liftRes (getQualifiedMemberName (m_assembly method) token);
    let assemblyName := qn_assemblyName qualifiedMethodName in
    assembly ← inFrame (findAssembly assemblyName);
    methodDef ← liftRes (getMethodByName assembly
                  (qn_namespaceName qualifiedMethodName)
                  (qn_typeName qualifiedMethodName)
                  (qn_methodName qualifiedMethodName));
    if methodDef =? nullptr then
      fail (Throw (MethodNotFound assemblyName
                     (qn_namespaceName qualifiedMethodName)
                     (qn_typeName qualifiedMethodName)
                     (qn_methodName qualifiedMethodName)))
    else
      typeDef ← liftRes (getTypeDefOfMethod assembly methodDef);
      objectSize ← liftRes (Assembly_getTypeSize assembly typeDef);
      newObjectReference ← inFrame (createHeapObject objectSize);
      inFrame (storeVariableOnStack (Some newObjectReference));;
      tok ← liftRes (getTokenOfTableEntry assembly MethodDef_ID methodDef);
      enterFrame (newMethod assembly tok)
  else fail (Throw InvalidCallTokenType).

(** [m_initializedTypes.insert(typeDef).second] decides; the insertion
    is done when the static constructor is entered. *)
Definition loadStaticField (token : Token) : M (Method * Runtime) Z :=
  method ← gets fst;
  let assembly := m_assembly method in
  field ← liftRes (getTableEntry assembly Field_ID token);
  typeDef ← liftRes (getTypeDefOfField assembly field);
  initialized ← gets (λ s, m_initializedTypes (snd s));
  (if bool_decide (typeDef ∈ initialized) then mret tt
   else
     modify (λ '(method, rt),
       (method, set_initializedTypes ({[typeDef]} ∪ m_initializedTypes rt) rt));;
     td ← liftRes (derefTypeDef assembly typeDef);
     inFrame (println (EvInitializingType typeDef
                         (getString assembly (td_typeNameIndex td))));;
     cctorMethod ← liftRes (getMethodOfType assembly typeDef ".cctor");
     tok ← liftRes (getTokenOfTableEntry assembly MethodDef_ID cctorMethod);
     enterFrame (newMethod assembly tok));;
  fd ← liftRes (derefField assembly field);
  inFrame (println (EvAccessingField (getString assembly (fd_nameIndex fd))));;
  mret field.

Definition ldsflda (token : Token) : M (Method * Runtime) unit :=
  field ← loadStaticField token;
  stored ← inFrame (staticVariable field);
  p ← inFrame (allocate 16);
  inFrame (storeVariableOnStack (Some
    (mkVariable p O (le_encode 8 (from_option var_ptr nullptr stored))))).

Definition ldsfld (token : Token) : M (Method * Runtime) unit :=
  field ← loadStaticField token;
  stored ← inFrame (staticVariable field);
  inFrame (storeVariableOnStack stored).

Definition stsfld (token : Token) : M (Method * Runtime) unit :=
  field ← loadStaticField token;
  v ← inFrame createVariableFromStackContent;
  inFrame (modify (λ rt,
    set_staticVariables (<[field := Some v]> (m_staticVariables rt)) rt)).

(** The [switch] of [executeInstructions], but for [Ret]. *)
Definition dispatch (instruction : Instruction) : M (Method * Runtime) unit :=
  match getOpcode instruction with
  | Nop => inFrame nop
  | Brk => inFrame brk
  | Call => call (get_Token instruction)
  | Ldstr => inFrame (ldstr (get_Token instruction))
  | Ldloca_s => ldloca (get_u8 instruction)
  | Ldarg_0 => ldarg 0
  | Ldarg_1 => ldarg 1
  | Ldarg_2 => ldarg 2
  | Ldarg_3 => ldarg 3
  | Ldarg => ldarg (get_u8 instruction)
  | Ldarg_s => ldarg (get_u16 instruction)
  | Stloc_0 => stloc 0
  | Stloc_1 => stloc 1
  | Stloc_2 => stloc 2
  | Stloc_3 => stloc 3
  | Stloc => stloc (get_u8 instruction)
  | Stloc_s => stloc (get_u16 instruction)
  | Ldloc_0 => ldloc 0
  | Ldloc_1 => ldloc 1
  | Ldloc_2 => ldloc 2
  | Ldloc_3 => ldloc 3
  | Ldloc => ldloc (get_u8 instruction)
  | Ldloc_s => ldloc (get_u16 instruction)
  | Ret => mret tt
  | Br => br (get_i32 instruction)
  | Br_s => br (get_i8 instruction)
  | Ldsflda => ldsflda (get_Token instruction)
  | Ldsfld => ldsfld (get_Token instruction)
  | Ldc_i4 => inFrame (ldc i32 (get_i32 instruction))
  | Ldc_i4_s => inFrame (ldc i32 (get_i8 instruction))
  | Ldc_i8 => inFrame (ldc i64 (get_i64 instruction))
  | Ldc_r4 => inFrame (ldc Float (floatToDouble (get_float instruction)))
  | Ldc_r8 => inFrame (ldc Float (get_double instruction))
  | Ldc_i4_0 => inFrame (ldc i32 0)
  | Ldc_i4_1 => inFrame (ldc i32 1)
  | Ldc_i4_2 => inFrame (ldc i32 2)
  | Ldc_i4_3 => inFrame (ldc i32 3)
  | Ldc_i4_4 => inFrame (ldc i32 4)
  | Ldc_i4_5 => inFrame (ldc i32 5)
  | Ldc_i4_6 => inFrame (ldc i32 6)
  | Ldc_i4_7 => inFrame (ldc i32 7)
  | Ldc_i4_8 => inFrame (ldc i32 8)
  | Ldc_i4_m1 => inFrame (ldc i32 (-1))
  | Stsfld => stsfld (get_Token instruction)
  | Pop => inFrame Runtime_pop
  | Newobj => newobj (get_Token instruction)
  | OtherOpcode code => fail (Throw (UnimplementedOpcode code))
  end.
End Handlers.

Definition isRet (op : Opcode) : bool :=
  match op with Ret => true | _ => false end.

(** [getInstructions] starts with [getByteCode] and then yields from the
    program counter on. *)
Definition withByteCode (loop : list u8 → M (Method * Runtime) unit)
    : M (Method * Runtime) unit :=
  method ← gets fst;
  bytes ← liftRes (getByteCode method);
  loop bytes.

(** The loop of [executeInstructions] over the generator of
    [getInstructions]: one round decodes at the program counter, moves it
    past the instruction and dispatches.  [fuel] bounds the rounds and the
    depth of the calls. *)
Fixpoint instructionLoop (fuel : nat) (bytes : list u8) : M (Method * Runtime) unit :=
  match fuel with
  | 0%nat => fail OutOfFuel
  | S fuel' =>
    method ← gets fst;
    if m_instructionOffset method <? Z.of_nat (length bytes) then
      let instruction := decode (drop (Z.to_nat (m_instructionOffset method)) bytes) in
      modify (λ '(method, rt),
        (setInstructionOffset method
           ((m_instructionOffset method + getLength instruction) mod 2 ^ 64), rt));;
      inFrame (println (EvOpcode (getOpcode instruction)));;
      if isRet (getOpcode instruction) then mret tt
      else
        dispatch (withByteCode (instructionLoop fuel')) instruction;;
        instructionLoop fuel' bytes
    else mret tt
  end.

Definition executeInstructions (fuel : nat) : M (Method * Runtime) unit :=
  withByteCode (instructionLoop fuel).

(** [m_methodStack.back() = method]: the frame [run] executes is the
    element of the list, so what the execution did to it is there. *)
Definition storeBack (method : Method) (rt : Runtime) : Runtime :=
  set_methodStack (removelast (m_methodStack rt) ++ [method]) rt.

Definition executeEntry (fuel : nat) (method : Method) : M Runtime unit := λ rt,
  let '(r, (method', rt')) := executeInstructions fuel (method, rt) in
  (r, storeBack method' rt').

Definition run (fuel : nat) (assembly : Assembly) : M Runtime Z :=
  module ← liftRes (getModule assembly);
  mo ← liftRes (derefModule assembly module);
  let assemblyName := getString assembly (mod_nameIndex mo) in
  newExecutable ← emplaceAssembly assemblyName assembly;
  modify (set_evalStack (newStack (getStackSize newExecutable)));;
  let method := newMethod newExecutable (getEntrypointMethodToken newExecutable) in
  modify (λ rt, set_methodStack (m_methodStack rt ++ [method]) rt);;
  executeEntry fuel method;;
  mret 0.
End Engine.

(** ** What the properties speak about *)

(** The bytes that a sequence of tags accounts for. *)
Definition usedBytes (tags : list ValueType) : Z :=
  foldr (λ t acc, getTypeSize t + acc) 0 tags.

(** The invariant of the evaluation stack: the advance of the write pointer
    is the sum of the sizes of the tags, and the pointer is inside the
    buffer. *)
Definition balanced (s : Stack) : Prop :=
  m_stackPointer s = usedBytes (m_typeStack s)
  ∧ m_stackPointer s <= Z.of_nat (length (m_stack s)).

(** The state a computation runs on holds a runtime. *)
Class HasRuntime (S : Type) : Type := runtimeOf : S → Runtime.
#[global] Instance Runtime_HasRuntime : HasRuntime Runtime := λ rt, rt.
#[global] Instance Frame_HasRuntime : HasRuntime (Method * Runtime) := snd.

(** The TypeDef rows for which the line [Initializing type] was written,
    that is, whose static constructor [loadStaticField] went on to enter. *)
Definition initializedBy (out : list Event) : list Z :=
  omap (λ e, match e with EvInitializingType typeDef _ => Some typeDef | _ => None end) out.

(** No type was initialized twice, and every type that was is in the set. *)
Definition initializedOnce (rt : Runtime) : Prop :=
  NoDup (initializedBy (output rt))
  ∧ ∀ typeDef, typeDef ∈ initializedBy (output rt) → typeDef ∈ m_initializedTypes rt.

(** The lines that are not about the initialization of a type. *)
Definition quietEvent (e : Event) : Prop :=
  match e with EvInitializingType _ _ => False | _ => True end.

(** What a run leaves as it found it: the list of frames, the types that
    are in the set of initialized types, and the discipline of the static
    constructors. *)
Definition keeps (rt rt' : Runtime) : Prop :=
  m_methodStack rt' = m_methodStack rt
  ∧ m_initializedTypes rt ⊆ m_initializedTypes rt'
  ∧ (initializedOnce rt → initializedOnce rt').

Definition keeping {S A} `{HasRuntime S} (c : M S A) : Prop :=
  ∀ s r s', c s = (r, s') → keeps (runtimeOf s) (runtimeOf s').

(** [c'] does what [c] does wherever [c] ends within its step budget. *)
Definition extends {S A} (c c' : M S A) : Prop :=
  ∀ s, (c s).1 ≠ Fail OutOfFuel → c' s = c s.

(** The slot that an instruction of the [Ldloc] family names. *)
Definition ldlocSlot (instruction : Instruction) : option Z :=
  match getOpcode instruction with
  | Ldloc_0 => Some 0
  | Ldloc_1 => Some 1
  | Ldloc_2 => Some 2
  | Ldloc_3 => Some 3
  | Ldloc => Some (get_u8 instruction)
  | Ldloc_s => Some (get_u16 instruction)
  | _ => None
  end.

(** Slot [n] of the frame that [run] keeps in the list of frames. *)
Definition entryLocal (rt : Runtime) (n : nat) : option (option VariableBase) :=
  last (m_methodStack rt) ≫= λ method, m_localVariables method !! n.

(** The opcode at the program counter of the frame that [run] keeps. *)
Definition entryNextOpcode {ext : Externals} (rt : Runtime) : option Opcode :=
  method ← last (m_methodStack rt);
  match getByteCode method with
  | Ok bytes =>
    Some (getOpcode (decode (drop (Z.to_nat (m_instructionOffset method)) bytes)))
  | Fail _ => None
  end.

(** ** Assemblies and a decoder for the scenarios *)

(** The second loop of [parseStreams]: the tables follow one another from
    the parse pointer on, each with the row size of its index. *)
Fixpoint sliceTables (parsePointer : Z) (index : Z) (views : list (list RowView))
    : list (list Row) :=
  match views with
  | [] => []
  | table :: rest =>
    let tableSize := getMetadataTableSize index in
    sliceRows parsePointer tableSize table
    :: sliceTables (parsePointer + tableSize * Z.of_nat (length table)) (index + 1) rest
  end.

(** The 64 tables, given the ones that have rows. *)
Definition tablesOf (present : list (Z * list RowView)) : list (list RowView) :=
  map (λ i : nat,
         match List.find (λ e, fst e =? Z.of_nat i) present with
         | Some e => snd e
         | None => []
         end)
      (seq 0 64).

(** A string heap: an empty string at offset 0, then the given strings,
    each closed by a NUL. *)
Fixpoint heapOf (names : list string) : string :=
  match names with
  | [] => EmptyString
  | n :: rest => n +:+ String Ascii.zero (heapOf rest)
  end.

(** The offset of a string in the heap built by [heapOf]. *)
Fixpoint heapIndex (names : list string) (name : string) : Z :=
  match names with
  | [] => 0
  | n :: rest =>
    if String.eqb n name then 0
    else Z.of_nat (String.length n) + 1 + heapIndex rest name
  end.

Definition nameIndex (names : list string) (name : string) : Z :=
  heapIndex (EmptyString :: names) name.

(** An assembly whose buffer of 4096 bytes starts at [ptr] and keeps its
    tables from offset 0x200 on. *)
Definition assemblyOf (ptr : Z) (present : list (Z * list RowView)) (names : list string)
    (entry : Token) (bodies : list (Z * MethodBody)) : Assembly :=
  mkAssembly ptr (replicate 4096 0)
             (sliceTables (ptr + 0x200) 0 (tablesOf present))
             (heapOf (EmptyString :: names)) entry 0x100 bodies.

(** Modelled from the spec: a decoder for the encodings of the opcodes the
    engine handles, one opcode byte (two after the prefix [0xFE]) followed
    by the operand, 8 bits wide for the [_s] forms and for [Ldloca_s], 16,
    32 or 64 bits for the full forms, 32 bits for a token.  The opcode
    numbers are those of ECMA-335. *)
Definition decodeInstruction (bytes : list u8) : Instruction :=
  let op1 (o : Opcode) (n : Z) := mkInstruction o (take (Z.to_nat n) (drop 1 bytes)) (1 + n) in
  let op2 (o : Opcode) (n : Z) := mkInstruction o (take (Z.to_nat n) (drop 2 bytes)) (2 + n) in
  match bytes with
  | 0x00 :: _ => op1 Nop 0
  | 0x01 :: _ => op1 Brk 0
  | 0x02 :: _ => op1 Ldarg_0 0
  | 0x03 :: _ => op1 Ldarg_1 0
  | 0x04 :: _ => op1 Ldarg_2 0
  | 0x05 :: _ => op1 Ldarg_3 0
  | 0x06 :: _ => op1 Ldloc_0 0
  | 0x07 :: _ => op1 Ldloc_1 0
  | 0x08 :: _ => op1 Ldloc_2 0
  | 0x09 :: _ => op1 Ldloc_3 0
  | 0x0A :: _ => op1 Stloc_0 0
  | 0x0B :: _ => op1 Stloc_1 0
  | 0x0C :: _ => op1 Stloc_2 0
  | 0x0D :: _ => op1 Stloc_3 0
  | 0x0E :: _ => op1 Ldarg_s 1
  | 0x11 :: _ => op1 Ldloc_s 1
  | 0x12 :: _ => op1 Ldloca_s 1
  | 0x13 :: _ => op1 Stloc_s 1
  | 0x15 :: _ => op1 Ldc_i4_m1 0
  | 0x16 :: _ => op1 Ldc_i4_0 0
  | 0x17 :: _ => op1 Ldc_i4_1 0
  | 0x18 :: _ => op1 Ldc_i4_2 0
  | 0x19 :: _ => op1 Ldc_i4_3 0
  | 0x1A :: _ => op1 Ldc_i4_4 0
  | 0x1B :: _ => op1 Ldc_i4_5 0
  | 0x1C :: _ => op1 Ldc_i4_6 0
  | 0x1D :: _ => op1 Ldc_i4_7 0
  | 0x1E :: _ => op1 Ldc_i4_8 0
  | 0x1F :: _ => op1 Ldc_i4_s 1
  | 0x20 :: _ => op1 Ldc_i4 4
  | 0x21 :: _ => op1 Ldc_i8 8
  | 0x22 :: _ => op1 Ldc_r4 4
  | 0x23 :: _ => op1 Ldc_r8 8
  | 0x26 :: _ => op1 Pop 0
  | 0x28 :: _ => op1 Call 4
  | 0x2A :: _ => op1 Ret 0
  | 0x2B :: _ => op1 Br_s 1
  | 0x38 :: _ => op1 Br 4
  | 0x72 :: _ => op1 Ldstr 4
  | 0x73 :: _ => op1 Newobj 4
  | 0x7E :: _ => op1 Ldsfld 4
  | 0x7F :: _ => op1 Ldsflda 4
  | 0x80 :: _ => op1 Stsfld 4
  | 0xFE :: 0x09 :: _ => op2 Ldarg 2
  | 0xFE :: 0x0C :: _ => op2 Ldloc 2
  | 0xFE :: 0x0E :: _ => op2 Stloc 2
  | 0xFE :: b :: _ => op2 (OtherOpcode (0xFE00 + b)) 0
  | b :: _ => op1 (OtherOpcode b) 0
  | [] => op1 (OtherOpcode 0) 0
  end.

(** The conversion of a [float] to [double] on bit patterns (IEEE 754): the
    sign is kept, the exponent is re-biased from 127 to 1023 and the 23
    fraction bits become the top of the 52; a subnormal [float] is a
    normal [double]; infinities stay, and a NaN keeps its payload and is
    made quiet. *)
Definition widenFloat (bits : Z) : Z :=
  let sign := Z.shiftr bits 31 mod 2 in
  let e := Z.shiftr bits 23 mod 256 in
  let m := bits mod 2 ^ 23 in
  let double (e' m' : Z) := Z.shiftl sign 63 + Z.shiftl e' 52 + m' in
  if e =? 255 then double 2047 (if m =? 0 then 0 else Z.lor (Z.shiftl m 29) (2 ^ 51))
  else if e =? 0 then
    if m =? 0 then double 0 0
    else let k := Z.log2 m in double (k - 149 + 1023) (Z.shiftl (m - 2 ^ k) (52 - k))
  else double (e - 127 + 1023) (Z.shiftl m 29).

(** The members of [Assembly] the sources only call, for assemblies in
    which every field belongs to the second TypeDef row and that row's
    method list starts with its [.cctor]. *)
Definition scenarioExternals : Externals := {|
  decode := decodeInstruction;
  getTypeDefOfField := λ a field,
    if field =? nullptr then Ok nullptr else getTableEntryByIndex a TypeDef_ID 2;
  getMethodOfType := λ a typeDef name,
    td ← derefTypeDef a typeDef;
    getTableEntryByIndex a MethodDef_ID (td_methodListIndex td);
  Assembly_getTypeSize := λ a typeDef, Ok 16;
  floatToDouble := widenFloat
|}.

(** *** Scenario S3: a local written and read back *)

Definition S3_names : list string := ["S3.dll"; "<Module>"; "Program"; "Main"].

Definition S3_assembly : Assembly :=
  assemblyOf 0x10000
    [ (Module_ID, [VModule (mkModule (nameIndex S3_names "S3.dll"))]);
      (TypeDef_ID,
        [VTypeDef (mkTypeDef (nameIndex S3_names "<Module>") 0 1);
         VTypeDef (mkTypeDef (nameIndex S3_names "Program") 0 1)]);
      (MethodDef_ID, [VMethodDef (mkMethodDef 0x2050 (nameIndex S3_names "Main"))]) ]
    S3_names
    (mkToken MethodDef_ID 1)
    [ (0x2050, TinyBody [0x1F; 42; 0x0A; 0x06; 0x26; 0x2A]) ].

(** ** The reverse look-ups as the specification words them *)

Definition rowsOf (a : Assembly) (ID : Z) : list Row :=
  match tableData a !! Z.to_nat ID with Some table => table | None => [] end.

Definition typeDefRows (a : Assembly) : list TypeDef :=
  omap (λ r, match row_view r with VTypeDef t => Some t | _ => None end)
       (rowsOf a TypeDef_ID).

Definition methodDefRows (a : Assembly) : list MethodDef :=
  omap (λ r, match row_view r with VMethodDef t => Some t | _ => None end)
       (rowsOf a MethodDef_ID).

(** The type at position [i] of the TypeDef table (from 0) owns the methods
    with the 1-based indices in [[methodList i, methodList (i+1))]; the last
    type owns the tail of the MethodDef table. *)
Definition spec_methodRange (a : Assembly) (i : nat) : option (Z * Z) :=
  match typeDefRows a !! i with
  | None => None
  | Some td =>
    Some (td_methodListIndex td,
          match typeDefRows a !! S i with
          | Some next => td_methodListIndex next
          | None => Z.of_nat (length (methodDefRows a)) + 1
          end)
  end.

Definition spec_owns (a : Assembly) (i : nat) (t : Z) : bool :=
  match spec_methodRange a i with
  | Some (lo, hi) => (lo <=? t) && (t <? hi)
  | None => false
  end.

(** The position of the type whose method range contains method [t]. *)
Definition spec_typeDefOfMethod (a : Assembly) (t : Z) : option nat :=
  List.find (λ i, spec_owns a i t) (seq 0 (length (typeDefRows a))).

Definition spec_methodNamed (a : Assembly) (name : string) (t : Z) : bool :=
  match methodDefRows a !! Z.to_nat (t - 1) with
  | Some md => (1 <=? t) && String.eqb (getString a (md_nameIndex md)) name
  | None => false
  end.

(** A scan of the TypeDef rows; in a row whose namespace and name match, a
    scan of that type's method range for the method name.  The result is
    the 1-based index of the method. *)
Fixpoint spec_methodByName_scan (a : Assembly) (namespaceName typeName methodName : string)
    (positions : list nat) : option Z :=
  match positions with
  | [] => None
  | i :: rest =>
    let here :=
      match typeDefRows a !! i, spec_methodRange a i with
      | Some td, Some (lo, hi) =>
        if String.eqb (getString a (td_typeNamespaceIndex td)) namespaceName
           && String.eqb (getString a (td_typeNameIndex td)) typeName
        then List.find (spec_methodNamed a methodName) (seqZ lo (hi - lo))
        else None
      | _, _ => None
      end in
    match here with
    | Some t => Some t
    | None => spec_methodByName_scan a namespaceName typeName methodName rest
    end
  end.

Definition spec_methodByName (a : Assembly) (namespaceName typeName methodName : string)
    : option Z :=
  spec_methodByName_scan a namespaceName typeName methodName
    (seq 0 (length (typeDefRows a))).

(** A stack of 16 bytes on which an [i64] was pushed. *)
Definition wide_on_top : Stack := (push i64 [7; 0; 0; 0; 0; 0; 0; 0] (newStack 16)).2.

(** *** Scenario S4: a static field set by the static constructor *)

Definition S4_names : list string :=
  ["S4.dll"; "<Module>"; "T"; "Main"; ".cctor"; "F"].

(** [Main] reads the field twice; the static constructor of [T] stores 99
    to it. *)
Definition S4_assembly : Assembly :=
  assemblyOf 0x20000
    [ (Module_ID, [VModule (mkModule (nameIndex S4_names "S4.dll"))]);
      (TypeDef_ID,
        [VTypeDef (mkTypeDef (nameIndex S4_names "<Module>") 0 1);
         VTypeDef (mkTypeDef (nameIndex S4_names "T") 0 2)]);
      (Field_ID, [VField (mkField (nameIndex S4_names "F"))]);
      (MethodDef_ID,
        [VMethodDef (mkMethodDef 0x2050 (nameIndex S4_names "Main"));
         VMethodDef (mkMethodDef 0x2060 (nameIndex S4_names ".cctor"))]) ]
    S4_names
    (mkToken MethodDef_ID 1)
    [ (0x2050, TinyBody [0x7E; 0x01; 0x00; 0x00; 0x04; 0x26;
                         0x7E; 0x01; 0x00; 0x00; 0x04; 0x26; 0x2A]);
      (0x2060, TinyBody [0x1F; 99; 0x80; 0x01; 0x00; 0x00; 0x04; 0x2A]) ].

(** The same type with a static constructor that stores nothing. *)
Definition Unwritten_assembly : Assembly :=
  assemblyOf 0x30000
    [ (Module_ID, [VModule (mkModule (nameIndex S4_names "S4.dll"))]);
      (TypeDef_ID,
        [VTypeDef (mkTypeDef (nameIndex S4_names "<Module>") 0 1);
         VTypeDef (mkTypeDef (nameIndex S4_names "T") 0 2)]);
      (Field_ID, [VField (mkField (nameIndex S4_names "F"))]);
      (MethodDef_ID,
        [VMethodDef (mkMethodDef 0x2050 (nameIndex S4_names "Main"));
         VMethodDef (mkMethodDef 0x2060 (nameIndex S4_names ".cctor"))]) ]
    S4_names
    (mkToken MethodDef_ID 1)
    [ (0x2050, TinyBody [0x7E; 0x01; 0x00; 0x00; 0x04; 0x26; 0x2A]);
      (0x2060, TinyBody [0x2A]) ].

(** *** A call inside one assembly *)

Definition Nested_names : list string :=
  ["Nested.dll"; "<Module>"; "Program"; "Main"; "Helper"].

(** [Main] is [Call Helper; Ret] and [Helper] is [Nop; Ret]. *)
Definition Nested_assembly : Assembly :=
  assemblyOf 0x40000
    [ (Module_ID, [VModule (mkModule (nameIndex Nested_names "Nested.dll"))]);
      (TypeDef_ID,
        [VTypeDef (mkTypeDef (nameIndex Nested_names "<Module>") 0 1);
         VTypeDef (mkTypeDef (nameIndex Nested_names "Program") 0 1)]);
      (MethodDef_ID,
        [VMethodDef (mkMethodDef 0x2050 (nameIndex Nested_names "Main"));
         VMethodDef (mkMethodDef 0x2060 (nameIndex Nested_names "Helper"))]) ]
    Nested_names
    (mkToken MethodDef_ID 1)
    [ (0x2050, TinyBody [0x28; 0x02; 0x00; 0x00; 0x06; 0x2A]);
      (0x2060, TinyBody [0x00; 0x2A]) ].

(** *** A call into another assembly *)

Definition Callee_names : list string := ["B.dll"; "Ns"; "C"; "D"; "X"; "M"].

(** Assembly [B]: type [Ns.C] has the one method [X], type [Ns.D] the one
    method [M], whose body is [Ldc_i4_7; Pop; Ret]. *)
Definition Callee_assembly : Assembly :=
  assemblyOf 0x60000
    [ (Module_ID, [VModule (mkModule (nameIndex Callee_names "B.dll"))]);
      (TypeDef_ID,
        [VTypeDef (mkTypeDef (nameIndex Callee_names "C") (nameIndex Callee_names "Ns") 1);
         VTypeDef (mkTypeDef (nameIndex Callee_names "D") (nameIndex Callee_names "Ns") 2)]);
      (MethodDef_ID,
        [VMethodDef (mkMethodDef 0x2050 (nameIndex Callee_names "X"));
         VMethodDef (mkMethodDef 0x2060 (nameIndex Callee_names "M"))]) ]
    Callee_names
    (mkToken MethodDef_ID 1)
    [ (0x2050, TinyBody [0x2A]);
      (0x2060, TinyBody [0x1D; 0x26; 0x2A]) ].

Definition Caller_names : list string :=
  ["A.dll"; "<Module>"; "Program"; "Main"; "B"; "Ns"; "C"; "M"].

(** Assembly [A]: [Main] is [Call [B]Ns.C::M; Ret], the callee named by a
    MemberRef row. *)
Definition Caller_assembly : Assembly :=
  assemblyOf 0x50000
    [ (Module_ID, [VModule (mkModule (nameIndex Caller_names "A.dll"))]);
      (TypeRef_ID,
        [VTypeRef (mkTypeRef (mkToken AssemblyRef_ID 1)
                             (nameIndex Caller_names "C") (nameIndex Caller_names "Ns"))]);
      (TypeDef_ID,
        [VTypeDef (mkTypeDef (nameIndex Caller_names "<Module>") 0 1);
         VTypeDef (mkTypeDef (nameIndex Caller_names "Program") 0 1)]);
      (MethodDef_ID, [VMethodDef (mkMethodDef 0x2050 (nameIndex Caller_names "Main"))]);
      (MemberRef_ID,
        [VMemberRef (mkMemberRef (mkToken TypeRef_ID 1) (nameIndex Caller_names "M"))]);
      (AssemblyRef_ID, [VAssemblyRef (mkAssemblyRef (nameIndex Caller_names "B"))]) ]
    Caller_names
    (mkToken MethodDef_ID 1)
    [ (0x2050, TinyBody [0x28; 0x01; 0x00; 0x00; 0x0A; 0x2A]) ].

Definition Callee_loader (assemblyName : string) : option Assembly :=
  if String.eqb assemblyName "B" then Some Callee_assembly else None.

(** *** Three types and three methods *)

Definition ThreeTypes_names : list string :=
  ["T.dll"; "<Module>"; "A"; "B"; "a1"; "a2"; "b1"].

(** [<Module>] has no method, [A] the methods 1 and 2, [B] the method 3. *)
Definition ThreeTypes_assembly : Assembly :=
  assemblyOf 0x70000
    [ (Module_ID, [VModule (mkModule (nameIndex ThreeTypes_names "T.dll"))]);
      (TypeDef_ID,
        [VTypeDef (mkTypeDef (nameIndex ThreeTypes_names "<Module>") 0 1);
         VTypeDef (mkTypeDef (nameIndex ThreeTypes_names "A") 0 1);
         VTypeDef (mkTypeDef (nameIndex ThreeTypes_names "B") 0 3)]);
      (MethodDef_ID,
        [VMethodDef (mkMethodDef 0x2050 (nameIndex ThreeTypes_names "a1"));
         VMethodDef (mkMethodDef 0x2060 (nameIndex ThreeTypes_names "a2"));
         VMethodDef (mkMethodDef 0x2070 (nameIndex ThreeTypes_names "b1"))]) ]
    ThreeTypes_names
    (mkToken MethodDef_ID 1)
    [ (0x2050, TinyBody [0x2A]); (0x2060, TinyBody [0x2A]); (0x2070, TinyBody [0x2A]) ].

(** ** More of the metadata side (assembly.hpp, assembly.cpp) *)

(** [getAllTableEntries<T>()]: the rows are fetched by their 1-based
    indices and pushed in that order; [n] rows are left from the 0-based
    [index] on. *)
Fixpoint getAllTableEntries_loop (a : Assembly) (ID : Z) (index : Z) (n : nat)
    : Res (list Z) :=
  match n with
  | 0%nat => Ok []
  | S n' =>
    p ← getTableEntryByIndex a ID (index + 1);
    result ← getAllTableEntries_loop a ID (index + 1) n';
    Ok (p :: result)
  end.

Definition getAllTableEntries (a : Assembly) (ID : Z) : Res (list Z) :=
  getAllTableEntries_loop a ID 0 (Z.to_nat (getTableRowCount a ID)).

(** [QualifiedName::operator<]: the conjunction of the four comparisons of
    the components, each the lexicographic order of [std::string_view]. *)
Definition QualifiedName_lt (q other : QualifiedName) : bool :=
  String.ltb (qn_assemblyName q) (qn_assemblyName other)
  && String.ltb (qn_namespaceName q) (qn_namespaceName other)
  && String.ltb (qn_typeName q) (qn_typeName other)
  && String.ltb (qn_methodName q) (qn_methodName other).

(** Two keys are equivalent for a [std::map] when neither is less than
    the other. *)
Definition QualifiedName_equiv (q other : QualifiedName) : bool :=
  negb (QualifiedName_lt q other) && negb (QualifiedName_lt other q).

(** Modelled from the spec: the [T::ID] of the ClassLayout rows, which the
    specification names among the row kinds; the number is that of
    ECMA-335. *)
Definition ClassLayout_ID : Z := 0x0F.

(** [getClassLayoutOfType]: the counter [i] starts at 0 and is used as the
    row index as it is; [n] rounds are left.  [parentIndexOf] reads the
    field [parentIndex] through a pointer that is not null. *)
Fixpoint getClassLayoutOfType_loop (parentIndexOf : Z → Res Z) (a : Assembly)
    (typeDef : Z) (i : Z) (n : nat) : Res Z :=
  match n with
  | 0%nat => Ok nullptr
  | S n' =>
    currClassLayout ← getTableEntryByIndex a ClassLayout_ID i;
    parentIndex ← (if currClassLayout =? nullptr then Fail (Undefined NullDeref)
                   else parentIndexOf currClassLayout);
    parentTypeDef ← getTableEntryByIndex a TypeDef_ID parentIndex;
    if parentTypeDef =? typeDef then Ok currClassLayout
    else getClassLayoutOfType_loop parentIndexOf a typeDef (i + 1) n'
  end.

Definition getClassLayoutOfType (parentIndexOf : Z → Res Z) (a : Assembly)
    (typeDef : Z) : Res Z :=
  if typeDef =? nullptr then Ok nullptr
  else getClassLayoutOfType_loop parentIndexOf a typeDef 0
         (Z.to_nat (getTableRowCount a ClassLayout_ID)).

(** ** What the further properties speak about *)

(** The bytes of a span of a buffer. *)
Definition spanBytes (buf : list u8) (span : Z * Z) : option (list u8) :=
  readBytes buf span.1 span.2.

(** A run of pushes, in the order of the list, and a run of pops that
    collects what it reads. *)
Fixpoint pushAll (values : list (PayloadType * list u8)) : M Stack unit :=
  match values with
  | [] => mret tt
  | (T, v) :: rest => push T v;; pushAll rest
  end.

Fixpoint popAll (types : list PayloadType) : M Stack (list (list u8)) :=
  match types with
  | [] => mret []
  | T :: rest => v ← pop T; vs ← popAll rest; mret (v :: vs)
  end.

(** The bytes a sequence of payloads takes on the stack. *)
Definition payloadBytes (values : list (PayloadType * list u8)) : Z :=
  foldr (λ e acc, sizeof e.1 + acc) 0 values.

(** The name under which [run] and [addAssembly] register an assembly. *)
Definition moduleName (a : Assembly) : Res string :=
  module ← getModule a;
  mo ← derefModule a module;
  Ok (getString a (mod_nameIndex mo)).

(** The addresses of the rows of a table. *)
Definition rowAddresses (a : Assembly) (ID : Z) : list Z :=
  row_data <$> rowsOf a ID.

(** What an execution leaves of a runtime: the registered assemblies, the
    loaders, the lines written so far and the objects of the heap. *)
Definition grows (rt rt' : Runtime) : Prop :=
  m_assemblies rt ⊆ m_assemblies rt'
  ∧ m_assemblyLoaders rt' = m_assemblyLoaders rt
  ∧ output rt `prefix_of` output rt'
  ∧ m_heap rt ⊆ m_heap rt'.

(** What an execution leaves of a frame: its assembly, its method and the
    number of its slots. *)
Definition sameFrame (m m' : Method) : Prop :=
  m_assembly m' = m_assembly m
  ∧ m_methodToken m' = m_methodToken m
  ∧ length (m_localVariables m') = length (m_localVariables m).

Definition framed (Rm : relation Method) (Rr : relation Runtime)
    : relation (Method * Runtime) :=
  λ s s', Rm s.1 s'.1 ∧ Rr s.2 s'.2.

(** Every run of [c] ends in a state related to the one it started in. *)
Definition monotone {S A} (R : relation S) (c : M S A) : Prop :=
  ∀ s, R s (c s).2.

(** The integer constant that an instruction of the [Ldc] family loads,
    with the payload type under which the [switch] pushes it. *)
Definition ldcOperand (instruction : Instruction) : option (PayloadType * Z) :=
  match getOpcode instruction with
  | Ldc_i4 => Some (i32, get_i32 instruction)
  | Ldc_i4_s => Some (i32, get_i8 instruction)
  | Ldc_i8 => Some (i64, get_i64 instruction)
  | Ldc_i4_0 => Some (i32, 0)
  | Ldc_i4_1 => Some (i32, 1)
  | Ldc_i4_2 => Some (i32, 2)
  | Ldc_i4_3 => Some (i32, 3)
  | Ldc_i4_4 => Some (i32, 4)
  | Ldc_i4_5 => Some (i32, 5)
  | Ldc_i4_6 => Some (i32, 6)
  | Ldc_i4_7 => Some (i32, 7)
  | Ldc_i4_8 => Some (i32, 8)
  | Ldc_i4_m1 => Some (i32, -1)
  | _ => None
  end.

(** The handles of the heap are below the counter that names the next. *)
Definition handlesBelowKey (rt : Runtime) : Prop :=
  0 <= m_heapKey rt
  ∧ ∀ key, is_Some (m_heap rt !! key) → 0 <= key < m_heapKey rt.

(** The C string at a byte offset of the string heap lies in the heap:
    the offset is inside the heap and a NUL closes the string before the
    heap ends.  For such an offset [getString] is what the code reads;
    for any other the code reads memory that is not the heap's. *)
Definition inStringHeap (a : Assembly) (index : Z) : bool :=
  (0 <=? index)
  && existsb (Ascii.eqb Ascii.zero)
       (String.list_ascii_of_string (string_drop (Z.to_nat index) (stringData a))).

(** What a row must be for the scan of the types to read it and pass on:
    a TypeDef row that is not at address zero, whose namespace lies in
    the string heap, and whose namespace is not the one looked for or
    else whose name lies in the heap and is not the one looked for. *)
Definition anotherType (a : Assembly) (namespaceName typeName : string) (r : Row) : Prop :=
  row_data r ≠ nullptr
  ∧ ∃ td, row_view r = VTypeDef td
          ∧ inStringHeap a (td_typeNamespaceIndex td) = true
          ∧ (namespaceName ≠ getString a (td_typeNamespaceIndex td)
             ∨ inStringHeap a (td_typeNameIndex td) = true
               ∧ getString a (td_typeNameIndex td) ≠ typeName).

(** The rows of a member reference are there and its four names lie in
    the string heap, so that [getQualifiedMemberName] reads nothing but
    the tables and the heap. *)
Definition memberNamesInHeap (a : Assembly) (memberRefToken : Token) : Res bool :=
  memberRef ← getTableEntry a MemberRef_ID memberRefToken;
  mr ← derefMemberRef a memberRef;
  typeRef ← getTableEntry a TypeRef_ID (mr_classIndex mr);
  tr ← derefTypeRef a typeRef;
  assemblyRef ← getTableEntry a AssemblyRef_ID (tr_resolutionScopeIndex tr);
  ar ← derefAssemblyRef a assemblyRef;
  Ok (inStringHeap a (ar_nameIndex ar)
      && inStringHeap a (tr_typeNamespaceIndex tr)
      && inStringHeap a (tr_typeNameIndex tr)
      && inStringHeap a (mr_nameIndex mr)).

(** Two computations do the same in every state whose list of frames is
    [frames]. *)
Definition agreeOn {A} (frames : list Method) (c c' : M (Method * Runtime) A) : Prop :=
  ∀ s, m_methodStack s.2 = frames → c s = c' s.

(** *** A type with a ClassLayout row *)

Definition Layout_names : list string := ["L.dll"; "<Module>"; "Point"].

Definition Layout_assembly : Assembly :=
  assemblyOf 0x80000
    [ (Module_ID, [VModule (mkModule (nameIndex Layout_names "L.dll"))]);
      (TypeDef_ID,
        [VTypeDef (mkTypeDef (nameIndex Layout_names "<Module>") 0 1);
         VTypeDef (mkTypeDef (nameIndex Layout_names "Point") 0 1)]);
      (ClassLayout_ID, [VRaw]) ]
    Layout_names
    (mkToken MethodDef_ID 1)
    [].

(** * Properties *)

(** ** The evaluation stack *)

Lemma getTypeSize_getValueType T : getTypeSize (getValueType T) = sizeof T.
Proof. by destruct T. Qed.

Lemma sizeof_pos T : 0 < sizeof T.
Proof. destruct T; simpl; lia. Qed.

Lemma readBytes_written (buf v : list u8) (off : Z) :
  0 <= off → off + Z.of_nat (length v) <= Z.of_nat (length buf) →
  ∃ buf', writeBytes buf off v = Some buf'
        ∧ length buf' = length buf
        ∧ readBytes buf' off (Z.of_nat (length v)) = Some v.
Proof.
  intros Hoff Hfit. unfold writeBytes.
  assert (Hc : (0 <=? off) && (off + Z.of_nat (length v) <=? Z.of_nat (length buf)) = true).
  { apply andb_true_iff; split; apply Z.leb_le; lia. }
  rewrite Hc. eexists; split; [reflexivity|].
  assert (Hlen : length (take (Z.to_nat off) buf ++ v ++ drop (Z.to_nat off + length v) buf)
                 = length buf).
  { rewrite !length_app, length_take, length_drop. lia. }
  split; [exact Hlen|].
  unfold readBytes. rewrite Hlen, Hc. f_equal.
  rewrite drop_app_length'; [|rewrite length_take; lia].
  rewrite Nat2Z.id. by rewrite take_app_length.
Qed.

Lemma push_then_pop (T : PayloadType) (v : list u8) (s : Stack) :
  Z.of_nat (length v) = sizeof T →
  0 <= m_stackPointer s →
  m_stackPointer s + sizeof T <= Z.of_nat (length (m_stack s)) →
  ∃ s1 s2,
    push T v s = (Ok tt, s1)
    ∧ getTypeOnStack s1 0 = Ok (getValueType T)
    ∧ pop T s1 = (Ok v, s2)
    ∧ m_stackPointer s2 = m_stackPointer s
    ∧ m_typeStack s2 = m_typeStack s.
Proof.
  intros Hv Hsp Hroom.
  assert (Htake : take (Z.to_nat (getTypeSize (getValueType T))) v = v).
  { apply take_ge. rewrite getTypeSize_getValueType. lia. }
  destruct (readBytes_written (m_stack s) v (m_stackPointer s)) as (buf' & Hw & Hlen & Hr);
    [lia | lia |].
  assert (Htop : getTypeOnStack
            (mkStack buf' (m_typeStack s ++ [getValueType T]) (m_stackPointer s + sizeof T)) 0
          = Ok (getValueType T)).
  { unfold getTypeOnStack; simpl. rewrite length_app; simpl.
    destruct (_ <=? 0) eqn:E; [apply Z.leb_le in E; lia|].
    replace (Z.to_nat _) with (length (m_typeStack s)) by lia.
    by rewrite list_lookup_middle. }
  eexists _, _. unfold push. rewrite Htake, Hw.
  split; [reflexivity|]. split; [exact Htop|].
  unfold pop. rewrite Htop. simpl.
  rewrite getTypeSize_getValueType.
  destruct (sizeof T >? sizeof T) eqn:E1; [apply Z.gtb_lt in E1; lia|].
  rewrite bool_decide_eq_true_2 by done. simpl.
  destruct (_ <? 0) eqn:E2; [apply Z.ltb_lt in E2; lia|].
  replace (m_stackPointer s + sizeof T - sizeof T) with (m_stackPointer s) by lia.
  rewrite <- Hv, Hr. rewrite Z.sub_diag. simpl. rewrite app_nil_r.
  rewrite removelast_last. done.
Qed.

(** C1.  On a stack with room for a [T], [push<T>(v)] followed by
    [pop<T>()] returns the bytes of [v], and right after the push the top
    tag is the one [T] maps to; the pop also puts the write pointer and the
    tags back. *)
Theorem push_pop_roundtrip (T : PayloadType) (v : list u8) (s : Stack) :
  Z.of_nat (length v) = sizeof T →
  0 <= m_stackPointer s →
  m_stackPointer s + sizeof T <= Z.of_nat (length (m_stack s)) →
  ∃ s1 s2,
    push T v s = (Ok tt, s1)
    ∧ getTypeOnStack s1 0 = Ok (getValueType T)
    ∧ pop T s1 = (Ok v, s2)
    ∧ m_stackPointer s2 = m_stackPointer s
    ∧ m_typeStack s2 = m_typeStack s.
Proof. apply push_then_pop. Qed.

Lemma push_pop_roundtrip_witness :
  ∃ s1 s2,
    push Float [0; 0; 0; 0; 0; 0; 0xF0; 0x3F] (newStack 16) = (Ok tt, s1)
    ∧ getTypeOnStack s1 0 = Ok F
    ∧ pop Float s1 = (Ok [0; 0; 0; 0; 0; 0; 0xF0; 0x3F], s2)
    ∧ m_stackPointer s2 = 0
    ∧ m_typeStack s2 = [].
Proof.
  refine (push_pop_roundtrip Float [0; 0; 0; 0; 0; 0; 0xF0; 0x3F] (newStack 16) _ _ _).
  - reflexivity.
  - vm_compute. discriminate.
  - vm_compute. discriminate.
Defined.

Lemma usedBytes_app tags t : usedBytes (tags ++ [t]) = usedBytes tags + getTypeSize t.
Proof. induction tags as [|t' tags IH]; simpl; [lia | rewrite IH; lia]. Qed.

Lemma usedBytes_nonneg tags : 0 <= usedBytes tags.
Proof. induction tags as [|t tags IH]; simpl; [lia | destruct t; simpl; lia]. Qed.

Lemma getTypeOnStack_top (s : Stack) (top : ValueType) :
  getTypeOnStack s 0 = Ok top → ∃ rest, m_typeStack s = rest ++ [top].
Proof.
  unfold getTypeOnStack. generalize (m_typeStack s). intros tags.
  destruct tags as [|t tags _] using rev_ind; [done|].
  rewrite length_app. simpl.
  destruct (_ <=? 0) eqn:E; [done|].
  replace (Z.to_nat _) with (length tags) by lia.
  rewrite list_lookup_middle by done. intros [= ->]. by exists tags.
Qed.

Lemma balanced_newStack size : balanced (newStack size).
Proof. split; simpl; lia. Qed.

Lemma balanced_push (T : PayloadType) (v : list u8) (s s1 : Stack) :
  Z.of_nat (length v) = sizeof T →
  balanced s → push T v s = (Ok tt, s1) → balanced s1.
Proof.
  intros Hv [Hsp Hin]. unfold push, writeBytes.
  rewrite getTypeSize_getValueType, take_ge by lia.
  destruct (_ && _) eqn:E; [|done]. intros [= <-].
  apply andb_true_iff in E as [E1 E2]. apply Z.leb_le in E1, E2.
  split; simpl.
  - rewrite usedBytes_app, getTypeSize_getValueType. lia.
  - rewrite !length_app, length_take, length_drop. lia.
Qed.

Lemma balanced_pop (T : PayloadType) (v : list u8) (s s1 : Stack) :
  balanced s → pop T s = (Ok v, s1) → balanced s1.
Proof.
  intros [Hsp Hin]. unfold pop.
  destruct (getTypeOnStack s 0) as [top|] eqn:Htop; [|done].
  destruct (getTypeOnStack_top s top Htop) as [rest Hrest].
  destruct (_ >? _); [done|]. case_bool_decide as Heq; [|done]. simpl.
  destruct (_ <? 0); [done|]. destruct (readBytes _ _ _); [|done].
  intros [= _ <-]. rewrite Hrest, usedBytes_app in Hsp.
  split; simpl.
  - rewrite Hrest, removelast_last. subst top.
    rewrite getTypeSize_getValueType in Hsp. lia.
  - pose proof (sizeof_pos T). lia.
Qed.

(** On a balanced stack every failure of [pop] leaves the stack as it
    was, and none is the underflow. *)
Lemma pop_failure_balanced (T : PayloadType) (s s' : Stack) (f : Failure) :
  balanced s → pop T s = (Fail f, s') → s' = s ∧ f ≠ Throw StackUnderflow.
Proof.
  intros [Hsp Hin]. unfold pop.
  destruct (getTypeOnStack s 0) as [top|] eqn:Htop.
  - destruct (getTypeOnStack_top s top Htop) as [rest Hrest].
    destruct (_ >? _); [by intros [= <- <-]|].
    case_bool_decide as Heq; [|by intros [= <- <-]]. simpl.
    rewrite Hrest, usedBytes_app in Hsp. subst top.
    rewrite getTypeSize_getValueType in *.
    pose proof (usedBytes_nonneg rest).
    destruct (_ <? 0) eqn:E; [apply Z.ltb_lt in E; lia|].
    unfold readBytes.
    destruct (_ && _) eqn:E2; [done|].
    apply andb_false_iff in E2 as [E2|E2]; apply Z.leb_gt in E2; lia.
  - unfold getTypeOnStack in Htop. intros [= <- <-]. split; [done|].
    repeat case_match; congruence.
Qed.

(** C2.  With a tag on top, [pop<T>()] fails with "Not enough data on stack
    to pop" when the tag is wider than [T], with the type mismatch error
    when the tag differs from the one of [T] and is not wider, and both
    failures leave the stack as it was; with the tag of [T] on top it fails
    with "Stack underflow" exactly when the pointer would move below the
    base.  On a balanced stack, as [Stack(size)] is and as [push] and [pop]
    keep it, every failure of [pop] leaves the write pointer, the tags and
    the buffer as they were. *)
Theorem pop_failures (T : PayloadType) (s : Stack) :
  (∀ top,
     getTypeOnStack s 0 = Ok top →
     (getTypeSize top > sizeof T → pop T s = (Fail (Throw NotEnoughData), s))
     ∧ (getTypeSize top <= sizeof T → top ≠ getValueType T →
        pop T s = (Fail (Throw PopTypeMismatch), s))
     ∧ (top = getValueType T →
        (m_stackPointer s - sizeof T < 0 ↔ (pop T s).1 = Fail (Throw StackUnderflow))))
  ∧ (balanced s → ∀ f s', pop T s = (Fail f, s') → s' = s)
  ∧ (∀ size, balanced (newStack size))
  ∧ (balanced s → ∀ v s1,
       Z.of_nat (length v) = sizeof T → push T v s = (Ok tt, s1) → balanced s1)
  ∧ (balanced s → ∀ v s1, pop T s = (Ok v, s1) → balanced s1).
Proof.
  split; [|split; [|split; [|split]]].
  - intros top Htop. unfold pop. rewrite Htop. repeat split.
    + intros Hgt. destruct (_ >? _) eqn:E; [done|].
      rewrite Z.gtb_ltb in E. apply Z.ltb_ge in E. lia.
    + intros Hle Hne. destruct (_ >? _) eqn:E; [apply Z.gtb_lt in E; lia|].
      by rewrite bool_decide_eq_false_2.
    + subst top. intros Hlt.
      destruct (_ >? _) eqn:E; [apply Z.gtb_lt in E; destruct T; simpl in *; lia|].
      rewrite bool_decide_eq_true_2 by done. simpl.
      destruct (_ <? 0) eqn:E2; [done|]. apply Z.ltb_ge in E2. lia.
    + subst top.
      destruct (_ >? _) eqn:E; [apply Z.gtb_lt in E; destruct T; simpl in *; lia|].
      rewrite bool_decide_eq_true_2 by done. simpl.
      destruct (_ <? 0) eqn:E2; [apply Z.ltb_lt in E2; lia|].
      destruct (readBytes _ _ _); simpl; intros; discriminate.
  - intros Hs f s' Hpop. by destruct (pop_failure_balanced T s s' f Hs Hpop).
  - apply balanced_newStack.
  - intros Hs v s1 Hv. by apply balanced_push.
  - intros Hs v s1. by apply balanced_pop.
Qed.

(** After [push<i64>], [pop<i32>()] meets a tag that is not the one of
    [i32] and does not fail with the type mismatch error. *)
Lemma pop_mismatch_is_not_always_type_mismatch :
  getTypeOnStack wide_on_top 0 = Ok Int64
  ∧ Int64 ≠ getValueType i32
  ∧ pop i32 wide_on_top = (Fail (Throw NotEnoughData), wide_on_top)
  ∧ (pop i32 wide_on_top).1 ≠ Fail (Throw PopTypeMismatch).
Proof. vm_compute. repeat split; congruence. Qed.

Lemma pop_failures_witness :
  getTypeOnStack wide_on_top 0 = Ok Int64
  ∧ pop i32 wide_on_top = (Fail (Throw NotEnoughData), wide_on_top)
  ∧ balanced wide_on_top
  ∧ (pop i32 wide_on_top).2 = wide_on_top.
Proof.
  assert (Hbalanced : balanced wide_on_top).
  { split; vm_compute; [reflexivity | discriminate]. }
  split; [reflexivity|]. split; [|split; [exact Hbalanced|]].
  - apply (proj1 (pop_failures i32 wide_on_top) Int64); [reflexivity | simpl; lia].
  - apply (proj1 (proj2 (pop_failures i32 wide_on_top)) Hbalanced
             (Throw NotEnoughData) ((pop i32 wide_on_top).2)).
    reflexivity.
Defined.

(** ** The blob length prefix *)

Lemma Z_range_forall (P : Z → bool) (n : nat) :
  forallb (λ i, P (Z.of_nat i)) (seq 0 n) = true →
  ∀ x, 0 <= x < Z.of_nat n → P x = true.
Proof.
  intros Hall x Hx. rewrite forallb_forall in Hall.
  rewrite <- (Z2Nat.id x) by lia. apply Hall, in_seq. lia.
Qed.

Lemma header_7bit x : 0 <= x < 128 → getBlobHeaderSize x = 1.
Proof.
  intros Hx.
  apply (Z_range_forall (λ x, bool_decide (getBlobHeaderSize x = 1)) 128) in Hx;
    [by apply bool_decide_eq_true in Hx | by vm_compute].
Qed.

Lemma header_14bit x :
  0 <= x < 64 →
  getBlobHeaderSize (Z.lor 0x80 x) = 2 ∧ Z.land (Z.lor 0x80 x) 0x3F = x.
Proof.
  intros Hx.
  apply (Z_range_forall
    (λ x, bool_decide (getBlobHeaderSize (Z.lor 0x80 x) = 2 ∧ Z.land (Z.lor 0x80 x) 0x3F = x)) 64) in Hx;
    [by apply bool_decide_eq_true in Hx | by vm_compute].
Qed.

Lemma header_29bit x :
  0 <= x < 32 →
  getBlobHeaderSize (Z.lor 0xC0 x) = 4 ∧ Z.land (Z.lor 0xC0 x) 0x1F = x.
Proof.
  intros Hx.
  apply (Z_range_forall
    (λ x, bool_decide (getBlobHeaderSize (Z.lor 0xC0 x) = 4 ∧ Z.land (Z.lor 0xC0 x) 0x1F = x)) 32) in Hx;
    [by apply bool_decide_eq_true in Hx | by vm_compute].
Qed.

Lemma byteAt_app (pre l : list u8) (k : nat) (b : u8) :
  l !! k = Some b →
  byteAt (pre ++ l) (Z.of_nat (length pre) + Z.of_nat k) = Ok b.
Proof.
  intros Hk. unfold byteAt.
  destruct (_ <? 0) eqn:E; [apply Z.ltb_lt in E; lia|].
  replace (Z.to_nat _) with (length pre + k)%nat by lia.
  rewrite lookup_app_r by lia.
  replace (length pre + k - length pre)%nat with k by lia. by rewrite Hk.
Qed.

Lemma land_255 x : Z.land x 0xFF = x mod 256.
Proof. change 0xFF with (Z.ones 8). by rewrite Z.land_ones. Qed.

Lemma Res_bind_Ok {A B} (a : A) (k : A → Res B) : (Ok a ≫= k) = k a.
Proof. reflexivity. Qed.

Lemma blob_prefix_read_back (L : Z) (pre rest : list u8) :
  0 <= L < 2 ^ 29 →
  getBlobSize (pre ++ encodeBlobLength L ++ rest) (Z.of_nat (length pre)) = Ok L
  ∧ (b0 ← byteAt (pre ++ encodeBlobLength L ++ rest) (Z.of_nat (length pre));
     Ok (getBlobHeaderSize b0)) = Ok (Z.of_nat (length (encodeBlobLength L))).
Proof.
  intros HL.
  pose proof (λ k b, byteAt_app pre (encodeBlobLength L ++ rest) k b) as Hat.
  assert (H7 : (2 ^ 7 : Z) = 128) by reflexivity.
  assert (H14 : (2 ^ 14 : Z) = 16384) by reflexivity.
  assert (H29 : (2 ^ 29 : Z) = 536870912) by reflexivity.
  unfold getBlobSize, encodeBlobLength in *. rewrite H7, H14 in *. rewrite H29 in HL.
  destruct (L <? 128) eqn:E7; [|destruct (L <? 16384) eqn:E14]; cbn [app] in *.
  - apply Z.ltb_lt in E7.
    specialize (Hat 0%nat L eq_refl). rewrite Z.add_0_r in Hat.
    rewrite Hat, !Res_bind_Ok, header_7bit by lia. done.
  - apply Z.ltb_ge in E7. apply Z.ltb_lt in E14.
    assert (Hx : 0 <= Z.shiftr L 8 < 64).
    { rewrite Z.shiftr_div_pow2 by lia. change (2 ^ 8) with 256.
      split; [apply Z.div_pos; lia|]. apply Z.div_lt_upper_bound; lia. }
    destruct (header_14bit _ Hx) as [Hh Hl].
    pose proof (Hat 0%nat _ eq_refl) as H0. rewrite Z.add_0_r in H0.
    pose proof (Hat 1%nat _ eq_refl) as H1. change (Z.of_nat 1) with 1 in H1.
    rewrite H0, !Res_bind_Ok, Hh. cbv beta iota. rewrite H1, Res_bind_Ok.
    split; [|done]. f_equal.
    rewrite Hl, land_255, Z.shiftl_mul_pow2, Z.shiftr_div_pow2 by lia.
    change (2 ^ 8) with 256. pose proof (Z.div_mod L 256). lia.
  - apply Z.ltb_ge in E7. apply Z.ltb_ge in E14.
    assert (Hx : 0 <= Z.shiftr L 24 < 32).
    { rewrite Z.shiftr_div_pow2 by lia. change (2 ^ 24) with 16777216.
      split; [apply Z.div_pos; lia|]. apply Z.div_lt_upper_bound; lia. }
    destruct (header_29bit _ Hx) as [Hh Hl].
    pose proof (Hat 0%nat _ eq_refl) as H0. rewrite Z.add_0_r in H0.
    pose proof (Hat 1%nat _ eq_refl) as H1. change (Z.of_nat 1) with 1 in H1.
    pose proof (Hat 2%nat _ eq_refl) as H2. change (Z.of_nat 2) with 2 in H2.
    pose proof (Hat 3%nat _ eq_refl) as H3. change (Z.of_nat 3) with 3 in H3.
    rewrite H0, !Res_bind_Ok, Hh. cbv beta iota.
    rewrite H1, Res_bind_Ok, H2, Res_bind_Ok, H3, Res_bind_Ok.
    split; [|done]. f_equal.
    rewrite Hl, !land_255, !Z.shiftl_mul_pow2, !Z.shiftr_div_pow2 by lia.
    change (2 ^ 24) with 16777216. change (2 ^ 16) with 65536.
    change (2 ^ 8) with 256. change (2 ^ 0) with 1.
    clear -HL. Z.div_mod_to_equations. lia.
Qed.

(** C9.  A length below [2^29], written as the specification lays out the
    prefix, is read back by [getBlobSize], wherever the prefix stands in
    the heap; the header size that [getBlobHeaderSize] reads from the first
    byte is the number of bytes written. *)
Theorem blob_length_roundtrip (L : Z) (pre rest : list u8) :
  0 <= L < 2 ^ 29 →
  getBlobSize (pre ++ encodeBlobLength L ++ rest) (Z.of_nat (length pre)) = Ok L
  ∧ (b0 ← byteAt (pre ++ encodeBlobLength L ++ rest) (Z.of_nat (length pre));
     Ok (getBlobHeaderSize b0)) = Ok (Z.of_nat (length (encodeBlobLength L))).
Proof. apply blob_prefix_read_back. Qed.

Lemma blob_length_roundtrip_witness :
  getBlobSize ([0x00; 0x03; 0x41; 0x00; 0x42] ++ encodeBlobLength 70000 ++ [0xAA; 0xBB]) 5
  = Ok 70000.
Proof.
  refine (proj1 (blob_length_roundtrip 70000 [0x00; 0x03; 0x41; 0x00; 0x42] [0xAA; 0xBB] _)).
  vm_compute. split; [discriminate | reflexivity].
Defined.

(** ** The state monad and what the engine keeps *)

Lemma keeps_refl rt : keeps rt rt.
Proof. split; [done | split; [set_solver | done]]. Qed.

Lemma keeps_trans rt1 rt2 rt3 : keeps rt1 rt2 → keeps rt2 rt3 → keeps rt1 rt3.
Proof.
  intros (H1 & H2 & H3) (H4 & H5 & H6).
  split; [congruence | split; [set_solver | auto]].
Qed.

(** A change that touches neither the frames, nor the set, nor the output. *)
Lemma keeps_same rt rt' :
  m_methodStack rt' = m_methodStack rt →
  m_initializedTypes rt' = m_initializedTypes rt →
  initializedBy (output rt') = initializedBy (output rt) →
  keeps rt rt'.
Proof.
  intros Hm Hi Ho. split; [done|]. split; [by rewrite Hi|].
  unfold initializedOnce. by rewrite Hi, Ho.
Qed.

(** Equations of the state monad, used to run a computation step by step. *)
Section MonadSteps.
Context {S : Type}.

Lemma bind_eq {A B} (c : M S A) (k : A → M S B) s :
  (c ≫= k) s = match c s with
               | (Ok a, s') => k a s'
               | (Fail f, s') => (Fail f, s')
               end.
Proof. reflexivity. Qed.

Lemma bind_assoc {A B C} (c : M S A) (k1 : A → M S B) (k2 : B → M S C) s :
  ((c ≫= k1) ≫= k2) s = (c ≫= λ a, k1 a ≫= k2) s.
Proof. rewrite !bind_eq. by destruct (c s) as [[a|f] s1]. Qed.

Lemma bind_ret {A B} (a : A) (k : A → M S B) s : (mret a ≫= k) s = k a s.
Proof. reflexivity. Qed.

Lemma bind_fail {A B} f (k : A → M S B) s : (fail f ≫= k) s = (Fail f, s).
Proof. reflexivity. Qed.

Lemma bind_gets {A B} (f : S → A) (k : A → M S B) s : (gets f ≫= k) s = k (f s) s.
Proof. reflexivity. Qed.

Lemma bind_modify {B} (f : S → S) (k : unit → M S B) s : (modify f ≫= k) s = k tt (f s).
Proof. reflexivity. Qed.

Lemma bind_liftRes_Ok {A B} (a : A) (k : A → M S B) s : (liftRes (Ok a) ≫= k) s = k a s.
Proof. reflexivity. Qed.

Lemma bind_liftRes_Fail {A B} f (k : A → M S B) s :
  (liftRes (Fail f) ≫= k) s = (Fail f, s).
Proof. reflexivity. Qed.

Lemma bind_getsRes {A B} (g : S → Res A) (k : A → M S B) s :
  (getsRes g ≫= k) s = match g s with Ok a => k a s | Fail f => (Fail f, s) end.
Proof. unfold getsRes. rewrite bind_eq. by destruct (g s). Qed.
End MonadSteps.

Lemma bind_inFrame {A B} (c : M Runtime A) (k : A → M (Method * Runtime) B) m rt :
  (inFrame c ≫= k) (m, rt)
  = match c rt with
    | (Ok a, rt') => k a (m, rt')
    | (Fail f, rt') => (Fail f, (m, rt'))
    end.
Proof. rewrite bind_eq. unfold inFrame. by destruct (c rt) as [[a|f] rt1]. Qed.

Section Keeping.
Context {S : Type} `{HasRuntime S}.

Lemma keeping_bind {A B} (c : M S A) (k : A → M S B) :
  keeping c → (∀ a, keeping (k a)) → keeping (c ≫= k).
Proof.
  intros Hc Hk s r s'. unfold mbind, M_bind.
  destruct (c s) as [[a|f] s1] eqn:E; intros Hr.
  - eapply keeps_trans; [by eapply Hc | by eapply Hk].
  - inversion Hr; subst. by eapply Hc.
Qed.

Lemma keeping_ret {A} (a : A) : keeping (mret a : M S A).
Proof. intros s r s' [= <- <-]. apply keeps_refl. Qed.

Lemma keeping_fail {A} f : keeping (fail f : M S A).
Proof. intros s r s' [= <- <-]. apply keeps_refl. Qed.

Lemma keeping_liftRes {A} (x : Res A) : keeping (liftRes x : M S A).
Proof. intros s r s' [= <- <-]. apply keeps_refl. Qed.

Lemma keeping_gets {A} (f : S → A) : keeping (gets f).
Proof. intros s r s' [= <- <-]. apply keeps_refl. Qed.

Lemma keeping_getsRes {A} (f : S → Res A) : keeping (getsRes f).
Proof. intros s r s' [= <- <-]. apply keeps_refl. Qed.

Lemma keeping_modify (f : S → S) :
  (∀ s, keeps (runtimeOf s) (runtimeOf (f s))) → keeping (modify f).
Proof. intros Hf s r s' [= <- <-]. apply Hf. Qed.
End Keeping.

Lemma keeping_inFrame {A} (c : M Runtime A) : keeping c → keeping (inFrame c).
Proof.
  intros Hc [m rt] r [m' rt']. unfold inFrame.
  destruct (c rt) as [r1 rt1] eqn:E. intros [= <- <- <-]. by eapply Hc.
Qed.

Lemma keeping_onStack {A} (c : M Stack A) : keeping (onStack c).
Proof.
  intros rt r rt'. unfold onStack. destruct (c _) as [r1 s1].
  intros [= <- <-]. by apply keeps_same.
Qed.

Lemma keeping_allocate n : keeping (allocate n).
Proof. intros rt r rt' [= <- <-]. by apply keeps_same. Qed.

Lemma initializedBy_app out out' :
  initializedBy (out ++ out') = initializedBy out ++ initializedBy out'.
Proof. unfold initializedBy. apply omap_app. Qed.

Lemma keeping_println e : quietEvent e → keeping (println e).
Proof.
  intros He rt r rt' [= <- <-]. apply keeps_same; try done.
  simpl. rewrite initializedBy_app. destruct e; simpl in *; try done; by rewrite app_nil_r.
Qed.

Create HintDb keeping.
#[local] Hint Resolve keeping_ret keeping_fail keeping_liftRes keeping_gets
  keeping_getsRes keeping_onStack keeping_allocate : keeping.
#[local] Hint Extern 1 (keeping (println _)) => apply keeping_println; exact I : keeping.

Ltac keeping_step :=
  first
    [ solve [auto 1 with keeping nocore]
    | apply keeping_inFrame
    | apply keeping_bind
    | progress intros
    | case_match ].

Ltac keeping_auto := repeat keeping_step.

Lemma keeping_createVariableFromStackContent : keeping createVariableFromStackContent.
Proof. unfold createVariableFromStackContent. keeping_auto. Qed.

#[local] Hint Resolve keeping_createVariableFromStackContent : keeping.

Lemma keeping_storeVariableOnStack v : keeping (storeVariableOnStack v).
Proof. unfold storeVariableOnStack. keeping_auto. Qed.

#[local] Hint Resolve keeping_storeVariableOnStack : keeping.

Lemma keeping_createHeapObject size : keeping (createHeapObject size).
Proof.
  unfold createHeapObject, vectorStorage. keeping_auto.
  apply keeping_modify. intros rt. by apply keeps_same.
Qed.

Lemma keeping_findAssembly name : keeping (findAssembly name).
Proof.
  intros rt r rt'. unfold findAssembly.
  repeat case_match; intros [= <- <-]; by apply keeps_same.
Qed.

Lemma keeping_staticVariable field : keeping (staticVariable field).
Proof.
  intros rt r rt'. unfold staticVariable.
  repeat case_match; intros [= <- <-]; by apply keeps_same.
Qed.

Lemma keeping_Runtime_pop : keeping Runtime_pop.
Proof. unfold Runtime_pop. keeping_auto. Qed.

#[local] Hint Resolve keeping_createHeapObject keeping_findAssembly
  keeping_staticVariable keeping_Runtime_pop : keeping.

Lemma keeping_frame_modify (f : Method → Method) :
  keeping (modify (λ '(method, rt), (f method, rt)) : M (Method * Runtime) unit).
Proof. apply keeping_modify. intros [m rt]. apply keeps_refl. Qed.

Lemma keeping_stloc id : keeping (stloc id).
Proof.
  unfold stloc. keeping_auto.
  match goal with
  | |- context [setLocalVariable _ _ ?v] =>
    apply (keeping_frame_modify (λ m, setLocalVariable m id v))
  end.
Qed.

Lemma keeping_ldloc id : keeping (ldloc id).
Proof. unfold ldloc. keeping_auto.
  apply (keeping_frame_modify (λ m, setLocalVariable m id None)). Qed.

Lemma keeping_ldloca id : keeping (ldloca id).
Proof. unfold ldloca. keeping_auto. Qed.

Lemma keeping_br offset : keeping (br offset).
Proof. apply (keeping_frame_modify (λ m, offsetProgramCounter m offset)). Qed.

Section EngineKeeps.
Context {ext : Externals}.

Section WithExec.
Variable exec : M (Method * Runtime) unit.
Hypothesis keeping_exec : keeping exec.

Lemma keeping_enterFrame methodToCall : keeping (enterFrame exec methodToCall).
Proof.
  intros [m rt] r [m' rt']. unfold enterFrame.
  destruct (exec _) as [r1 [m1 rt1]] eqn:E. intros [= <- <- <-].
  by apply keeping_exec in E.
Qed.

#[local] Hint Resolve keeping_enterFrame : keeping.

Lemma keeping_call token : keeping (call exec token).
Proof. unfold call. keeping_auto. Qed.

Lemma keeping_newobj token : keeping (newobj exec token).
Proof.
  unfold newobj. keeping_auto.
Qed.

(** The static constructor is entered with its type already in the
    set, and its line is written once. *)
Lemma keeps_initialize rt typeDef name :
  typeDef ∉ m_initializedTypes rt →
  keeps rt (set_output (output rt ++ [EvInitializingType typeDef name])
              (set_initializedTypes ({[typeDef]} ∪ m_initializedTypes rt) rt)).
Proof.
  intros Hnew. split; [done|]. split; [simpl; set_solver|].
  intros [Hnd Hsub]. split; simpl.
  - rewrite initializedBy_app. simpl. apply NoDup_app. split; [done|].
    split; [|apply NoDup_singleton].
    intros x Hx ->%list_elem_of_singleton. by apply Hnew, Hsub.
  - intros x. rewrite initializedBy_app. simpl.
    rewrite elem_of_app, list_elem_of_singleton. intros [Hx| ->]; [|set_solver].
    apply Hsub in Hx. set_solver.
Qed.

Lemma keeps_insert rt typeDef :
  keeps rt (set_initializedTypes ({[typeDef]} ∪ m_initializedTypes rt) rt).
Proof.
  split; [done|]. split; [simpl; set_solver|].
  intros [Hnd Hsub]. split; [done|]. simpl.
  intros x Hx. apply Hsub in Hx. set_solver.
Qed.

(** The static constructor is entered with its type already in the
    set, and its line is written once. *)
Lemma keeping_loadStaticField token : keeping (loadStaticField exec token).
Proof.
  intros [m rt] r [m' rt']. unfold loadStaticField.
  rewrite bind_gets. cbn [fst].
  destruct (getTableEntry _ _ _) as [field|f];
    [rewrite bind_liftRes_Ok; cbn beta | intros [= <- <- <-]; apply keeps_refl].
  destruct (getTypeDefOfField _ _) as [typeDef|f];
    [rewrite bind_liftRes_Ok; cbn beta | intros [= <- <- <-]; apply keeps_refl].
  rewrite bind_gets. cbn [snd].
  case_bool_decide as Hin.
  - match goal with
    | |- ?c _ = _ → _ => enough (Hk : keeping c) by exact (Hk _ _ _)
    end.
    keeping_auto.
  - rewrite !bind_assoc, bind_modify.
    cbn beta iota. rewrite !bind_assoc.
    destruct (derefTypeDef _ _) as [td|f];
      [rewrite bind_liftRes_Ok; cbn beta
      | rewrite bind_liftRes_Fail; intros [= <- <- <-]; apply keeps_insert].
    rewrite !bind_assoc, bind_inFrame. cbn [println modify].
    match goal with
    | |- ?c ?s = _ → _ =>
      assert (Hk : keeping c) by keeping_auto;
      intros Hrun; apply Hk in Hrun
    end.
    exact (keeps_trans _ _ _ (keeps_initialize rt typeDef _ Hin) Hrun).
Qed.

#[local] Hint Resolve keeping_loadStaticField keeping_call keeping_newobj
  keeping_stloc keeping_ldloc keeping_ldloca keeping_br : keeping.

Lemma keeping_ldsflda token : keeping (ldsflda exec token).
Proof. unfold ldsflda. keeping_auto. Qed.

Lemma keeping_ldsfld token : keeping (ldsfld exec token).
Proof. unfold ldsfld. keeping_auto. Qed.

Lemma keeping_stsfld token : keeping (stsfld exec token).
Proof.
  unfold stsfld. keeping_auto.
  apply keeping_modify. intros rt. by apply keeps_same.
Qed.

#[local] Hint Resolve keeping_ldsflda keeping_ldsfld keeping_stsfld : keeping.

Lemma keeping_dispatch instruction : keeping (dispatch exec instruction).
Proof.
  unfold dispatch, nop, brk, ldstr, ldarg, ldc.
  destruct (getOpcode instruction); keeping_auto.
Qed.
End WithExec.

Lemma keeping_withByteCode loop :
  (∀ bytes, keeping (loop bytes)) → keeping (withByteCode loop).
Proof. intros Hloop. unfold withByteCode. keeping_auto. Qed.

Lemma keeping_instructionLoop fuel : ∀ bytes, keeping (instructionLoop fuel bytes).
Proof.
  induction fuel as [|fuel IH]; intros bytes; simpl.
  - apply keeping_fail.
  - apply keeping_bind; [keeping_auto|]. intros method.
    case_match; [|apply keeping_ret].
    apply keeping_bind.
    { apply keeping_modify. intros [m rt]. apply keeps_refl. }
    intros _. apply keeping_bind; [keeping_auto|]. intros _.
    case_match; [apply keeping_ret|].
    apply keeping_bind; [|intros; apply IH].
    apply keeping_dispatch, keeping_withByteCode, IH.
Qed.

Lemma keeping_executeInstructions fuel : keeping (executeInstructions fuel).
Proof. apply keeping_withByteCode, keeping_instructionLoop. Qed.
End EngineKeeps.

(** ** A larger step budget gives the same result *)

Lemma extends_refl {S A} (c : M S A) : extends c c.
Proof. by intros s _. Qed.

Lemma extends_trans {S A} (c1 c2 c3 : M S A) :
  extends c1 c2 → extends c2 c3 → extends c1 c3.
Proof.
  intros H12 H23 s Hne. rewrite <- (H12 s Hne). apply H23. by rewrite (H12 s Hne).
Qed.

Lemma extends_bind {S A B} (c c' : M S A) (k k' : A → M S B) :
  extends c c' → (∀ a, extends (k a) (k' a)) → extends (c ≫= k) (c' ≫= k').
Proof.
  intros Hc Hk s. rewrite !bind_eq.
  destruct (c s) as [[a|f] s1] eqn:E; intros Hne.
  - assert (Hcs : c' s = c s) by (apply Hc; by rewrite E).
    rewrite Hcs, E. by apply Hk.
  - assert (Hcs : c' s = c s).
    { apply Hc. rewrite E. simpl in *. intros [= ->]. by apply Hne. }
    by rewrite Hcs, E.
Qed.

Ltac extends_step :=
  first
    [ apply extends_refl
    | assumption
    | apply extends_bind
    | progress intros
    | case_match ].

Ltac extends_auto := repeat extends_step.

Section EngineExtends.
Context {ext : Externals}.

Section WithExecs.
Variables exec exec' : M (Method * Runtime) unit.
Hypothesis extends_exec : extends exec exec'.

Lemma extends_enterFrame methodToCall :
extends (enterFrame exec methodToCall) (enterFrame exec' methodToCall).
Proof.
intros [m rt]. unfold enterFrame. intros Hne.
rewrite extends_exec; [done|].
by destruct (exec (methodToCall, rt)) as [r [m1 rt1]].
Qed.

#[local] Hint Resolve extends_enterFrame : core.

Lemma extends_call token : extends (call exec token) (call exec' token).
Proof. unfold call. extends_auto; apply extends_enterFrame. Qed.

Lemma extends_newobj token : extends (newobj exec token) (newobj exec' token).
Proof. unfold newobj. extends_auto; apply extends_enterFrame. Qed.

Lemma extends_loadStaticField token :
extends (loadStaticField exec token) (loadStaticField exec' token).
Proof. unfold loadStaticField. extends_auto; apply extends_enterFrame. Qed.

Lemma extends_dispatch instruction :
extends (dispatch exec instruction) (dispatch exec' instruction).
Proof.
unfold dispatch, ldsflda, ldsfld, stsfld.
destruct (getOpcode instruction);
first [ apply extends_refl
      | apply extends_call
      | apply extends_newobj
      | apply extends_bind; [apply extends_loadStaticField | intros; apply extends_refl] ].
Qed.
End WithExecs.

Lemma extends_withByteCode loop loop' :
(∀ bytes, extends (loop bytes) (loop' bytes)) →
extends (withByteCode loop) (withByteCode loop').
Proof. intros Hloop. unfold withByteCode. extends_auto. Qed.

Lemma instructionLoop_S fuel bytes :
instructionLoop (S fuel) bytes
= (method ← gets fst;
   if m_instructionOffset method <? Z.of_nat (length bytes) then
     let instruction := decode (drop (Z.to_nat (m_instructionOffset method)) bytes) in
     modify (λ '(method, rt),
       (setInstructionOffset method
          ((m_instructionOffset method + getLength instruction) mod 2 ^ 64), rt));;
     inFrame (println (EvOpcode (getOpcode instruction)));;
     if isRet (getOpcode instruction) then mret tt
     else
       dispatch (withByteCode (instructionLoop fuel)) instruction;;
       instructionLoop fuel bytes
   else mret tt).
Proof. reflexivity. Qed.

Lemma instructionLoop_more fuel :
∀ bytes, extends (instructionLoop fuel bytes) (instructionLoop (S fuel) bytes).
Proof.
induction fuel as [|fuel IH]; intros bytes.
- intros s Hne. by destruct Hne.
- rewrite (instructionLoop_S (S fuel)), (instructionLoop_S fuel).
  apply extends_bind; [apply extends_refl|]. intros method.
  case_match; [|apply extends_refl]. cbn zeta.
  apply extends_bind; [apply extends_refl|]. intros _.
  apply extends_bind; [apply extends_refl|]. intros _.
  case_match; [apply extends_refl|].
  apply extends_bind; [|intros; apply IH].
  apply extends_dispatch, extends_withByteCode, IH.
Qed.

Lemma executeInstructions_more fuel fuel' :
(fuel ≤ fuel')%nat → extends (executeInstructions fuel) (executeInstructions fuel').
Proof.
induction 1 as [|fuel' _ IH]; [apply extends_refl|].
eapply extends_trans; [exact IH|].
apply extends_withByteCode, instructionLoop_more.
Qed.

(** A run that ends within its budget ends in the same way, with the same
  state, under every larger budget. *)
Lemma run_more fuel fuel' assembly :
(fuel ≤ fuel')%nat → extends (run fuel assembly) (run fuel' assembly).
Proof.
intros Hle. unfold run. extends_auto. unfold executeEntry.
intros rt Hne.
rewrite (executeInstructions_more fuel fuel' Hle); [done|].
by destruct (executeInstructions fuel _) as [r [m1 rt1]].
Qed.
End EngineExtends.

(** ** Token resolution *)

(** The table of row sizes has its 64 entries, and the rows the engine
    reads have the sizes of the source's table. *)
Lemma MetadataTableSizes_entries :
  length MetadataTableSizes = 64%nat
  ∧ getMetadataTableSize Module_ID = 0x0A
  ∧ getMetadataTableSize TypeRef_ID = 0x06
  ∧ getMetadataTableSize TypeDef_ID = 0x0E
  ∧ getMetadataTableSize Field_ID = 0x06
  ∧ getMetadataTableSize MethodDef_ID = 0x0E
  ∧ getMetadataTableSize MemberRef_ID = 0x06
  ∧ getMetadataTableSize 0x11 = 0x02
  ∧ getMetadataTableSize 0x20 = 0x16
  ∧ getMetadataTableSize AssemblyRef_ID = 0x14
  ∧ getMetadataTableSize 64 = 0.
Proof. vm_compute. repeat split. Qed.

Lemma getTableEntry_in_range (a : Assembly) (ID index : Z) (table : list Row) (row : Row) :
  0 <= ID <= 64 →
  tableData a !! Z.to_nat ID = Some table →
  1 <= index < 2 ^ 32 →
  table !! Z.to_nat (index - 1) = Some row →
  getTableEntry a ID (mkToken ID index) = Ok (row_data row).
Proof.
  intros HID Htable Hindex Hrow. unfold getTableEntry. simpl.
  rewrite Z.eqb_refl. simpl.
  destruct (ID >? 64) eqn:E; [apply Z.gtb_lt in E; lia|].
  assert (H32 : (2 ^ 32 : Z) = 4294967296) by reflexivity. rewrite H32 in *.
  rewrite Htable, Z.mod_small by lia.
  pose proof (lookup_lt_Some _ _ _ Hrow) as Hlt.
  destruct (index - 1 >? Z.of_nat (length table)) eqn:E2; [apply Z.gtb_lt in E2; lia|].
  by rewrite Hrow.
Qed.

Lemma getTableEntry_null (a : Assembly) (ID : Z) (table : list Row) :
  0 <= ID <= 64 →
  tableData a !! Z.to_nat ID = Some table →
  Z.of_nat (length table) < 2 ^ 32 - 1 →
  getTableEntry a ID (mkToken ID 0) = Ok nullptr.
Proof.
  intros HID Htable Hlen. unfold getTableEntry. simpl.
  rewrite Z.eqb_refl. simpl.
  destruct (ID >? 64) eqn:E; [done|]. rewrite Htable.
  change ((0 - 1) mod 2 ^ 32) with 4294967295.
  change (2 ^ 32 - 1) with 4294967295 in Hlen.
  destruct (4294967295 >? Z.of_nat (length table)) eqn:E2; [done|].
  rewrite Z.gtb_ltb in E2. apply Z.ltb_ge in E2. lia.
Qed.

Lemma getTableEntry_other_table (a : Assembly) (ID : Z) (token : Token) :
  getId token ≠ ID → getTableEntry a ID token = Ok nullptr.
Proof.
  intros Hne. unfold getTableEntry.
  destruct (getId token =? ID) eqn:E; [apply Z.eqb_eq in E; done | done].
Qed.

(** The rows that [sliceRows] cuts lie one after the other in the region
    that starts at the parse pointer. *)
Lemma sliceRows_region (views : list RowView) :
  ∀ (parsePointer tableSize : Z) (row : Row),
    0 <= tableSize →
    row ∈ sliceRows parsePointer tableSize views →
    row_size row = tableSize
    ∧ parsePointer <= row_data row
    ∧ row_data row + tableSize <= parsePointer + tableSize * Z.of_nat (length views).
Proof.
  induction views as [|v views IH]; intros p size row Hsize Hrow; simpl in *.
  - by apply elem_of_nil in Hrow.
  - apply elem_of_cons in Hrow as [-> | Hrow]; simpl; [lia|].
    destruct (IH _ _ _ Hsize Hrow) as (Hs & Hlo & Hhi). lia.
Qed.

(** A token in range resolves to a row inside the buffer, when the rows of
    its table are inside the buffer. *)
Lemma getTableEntry_in_buffer (a : Assembly) (ID index : Z) (table : list Row) :
  0 <= ID <= 64 →
  tableData a !! Z.to_nat ID = Some table →
  Forall (λ row, inBuffer a (row_data row) (row_size row)) table →
  1 <= index <= Z.of_nat (length table) →
  index < 2 ^ 32 →
  ∃ row, table !! Z.to_nat (index - 1) = Some row
         ∧ getTableEntry a ID (mkToken ID index) = Ok (row_data row)
         ∧ inBuffer a (row_data row) (row_size row).
Proof.
  intros HID Htable Hin Hindex H32.
  destruct (lookup_lt_is_Some_2 table (Z.to_nat (index - 1))) as [row Hrow]; [lia|].
  exists row. split; [done|]. split.
  - apply (getTableEntry_in_range a ID index table row); [done | done | | done].
    split; [lia | done].
  - rewrite Forall_forall in Hin. apply Hin. by eapply list_elem_of_lookup_2.
Qed.

Lemma S3_token_in_buffer :
  ∃ row,
    getTableEntry S3_assembly TypeDef_ID (mkToken TypeDef_ID 2) = Ok (row_data row)
    ∧ row_data row ≠ nullptr
    ∧ inBuffer S3_assembly (row_data row) (row_size row).
Proof.
  destruct (getTableEntry_in_buffer S3_assembly TypeDef_ID 2 (rowsOf S3_assembly TypeDef_ID))
    as (row & Hrow & Hentry & Hin).
  - vm_compute. split; discriminate.
  - reflexivity.
  - repeat constructor; vm_compute; discriminate.
  - vm_compute. split; discriminate.
  - reflexivity.
  - exists row. split; [done|]. split; [|done].
    vm_compute in Hrow. injection Hrow as <-. vm_compute. discriminate.
Qed.

(** The index one past the last row passes the bound check and reads the
    element after the end of the table. *)
Lemma getTableEntry_past_the_end (a : Assembly) (ID : Z) (table : list Row) :
  0 <= ID <= 64 →
  tableData a !! Z.to_nat ID = Some table →
  Z.of_nat (length table) < 2 ^ 24 - 1 →
  getTableEntry a ID (Token_make ID (getTableRowCount a ID + 1))
  = Fail (Undefined OutOfBounds).
Proof.
  intros HID Htable Hlen. unfold getTableEntry, getTableRowCount, Token_make.
  rewrite Htable. simpl. rewrite Z.eqb_refl. simpl.
  destruct (ID >? 64) eqn:E; [apply Z.gtb_lt in E; lia|].
  rewrite Htable.
  assert (H24 : (2 ^ 24 : Z) = 16777216) by reflexivity.
  assert (H32 : (2 ^ 32 : Z) = 4294967296) by reflexivity.
  rewrite H24 in *. rewrite H32.
  rewrite (Z.mod_small (Z.of_nat (length table) + 1)) by lia.
  replace (Z.of_nat (length table) + 1 - 1) with (Z.of_nat (length table)) by lia.
  rewrite Z.mod_small by lia.
  destruct (Z.of_nat (length table) >? Z.of_nat (length table)) eqn:E2;
    [apply Z.gtb_lt in E2; lia|].
  rewrite Nat2Z.id. by rewrite lookup_ge_None_2.
Qed.

(** C3.  The bound check of [getTableEntry] lets the index one past the
    last row through: for the token whose index is [rowCount + 1] the code
    reads the element after the end of the table instead of returning the
    null pointer. *)
Theorem getTableEntry_one_past_the_end (a : Assembly) (ID : Z) (table : list Row) :
  0 <= ID <= 64 →
  tableData a !! Z.to_nat ID = Some table →
  Z.of_nat (length table) < 2 ^ 24 - 1 →
  getTableEntry a ID (Token_make ID (getTableRowCount a ID + 1))
  = Fail (Undefined OutOfBounds).
Proof. apply getTableEntry_past_the_end. Qed.

Lemma getTableEntry_one_past_the_end_witness :
  getTableEntry S3_assembly TypeDef_ID (mkToken TypeDef_ID 3)
  = Fail (Undefined OutOfBounds).
Proof.
  refine (getTableEntry_one_past_the_end S3_assembly TypeDef_ID
            (rowsOf S3_assembly TypeDef_ID) _ _ _).
  - vm_compute. split; discriminate.
  - reflexivity.
  - reflexivity.
Defined.

(** ** The reverse look-ups *)

(** C7.  In an assembly with the types [<Module>] (no method), [A]
    (methods 1 and 2) and [B] (method 3), the method range that contains
    method 1 is that of [A], the second TypeDef row, and
    [getTypeDefOfMethod] returns the third row: the loop returns
    [nextTypeDef] where the range tested is that of [currTypeDef]. *)
Theorem getTypeDefOfMethod_returns_the_next_type :
  ∃ method1 typeDef2 typeDef3,
    getTableEntryByIndex ThreeTypes_assembly MethodDef_ID 1 = Ok method1
    ∧ getTableEntryByIndex ThreeTypes_assembly TypeDef_ID 2 = Ok typeDef2
    ∧ getTableEntryByIndex ThreeTypes_assembly TypeDef_ID 3 = Ok typeDef3
    ∧ typeDef2 ≠ typeDef3
    ∧ spec_typeDefOfMethod ThreeTypes_assembly 1 = Some 1%nat
    ∧ getTypeDefOfMethod ThreeTypes_assembly method1 = Ok typeDef3.
Proof.
  eexists _, _, _. repeat split; try (vm_compute; reflexivity).
  vm_compute. discriminate.
Qed.

(** The inner loop of [getMethodByName] ends within the rounds the model
    gives it: with a match, or with the read of a method row that is not
    there. *)
Lemma getTableEntry_defined (a : Assembly) (ID : Z) (token : Token) :
  getTableEntry a ID token ≠ Fail OutOfFuel.
Proof. unfold getTableEntry. by repeat case_match. Qed.

Lemma getTableEntryByIndex_defined (a : Assembly) (ID index : Z) :
  getTableEntryByIndex a ID index ≠ Fail OutOfFuel.
Proof.
  unfold getTableEntryByIndex. case_match; [done|]. apply getTableEntry_defined.
Qed.

Lemma rowAt_defined (a : Assembly) (ID p : Z) : rowAt a ID p ≠ Fail OutOfFuel.
Proof. unfold rowAt. by repeat case_match. Qed.

Lemma derefMethodDef_defined (a : Assembly) (p : Z) :
  derefMethodDef a p ≠ Fail OutOfFuel.
Proof.
  unfold derefMethodDef. pose proof (rowAt_defined a MethodDef_ID p).
  destruct (rowAt a MethodDef_ID p) as [[]|]; simpl; congruence.
Qed.

Lemma derefMethodDef_nullptr (a : Assembly) :
  derefMethodDef a nullptr = Fail (Undefined NullDeref).
Proof. reflexivity. Qed.

Lemma getMethodByName_methods_ends (a : Assembly) (methodName : string)
    (index nextMethodList : Z) (table : list Row) (n : nat) :
  tableData a !! Z.to_nat MethodDef_ID = Some table →
  Z.of_nat (length table) < 2 ^ 24 - 1 →
  ∀ methodListIndex,
    0 <= methodListIndex →
    Z.of_nat (length table) + 2 <= methodListIndex + Z.of_nat n →
    (1 ≤ n)%nat →
    getMethodByName_methods a methodName index nextMethodList methodListIndex n
    ≠ Fail OutOfFuel.
Proof.
  intros Htable Hlen.
  assert (Hcount : getTableRowCount a MethodDef_ID = Z.of_nat (length table)).
  { unfold getTableRowCount. by rewrite Htable. }
  induction n as [|n IH]; intros mli Hmli Hfuel Hn; [lia|].
  simpl. case_match; [|done].
  pose proof (getTableEntryByIndex_defined a MethodDef_ID mli) as Hdef.
  destruct (getTableEntryByIndex a MethodDef_ID mli) as [methodDef|f] eqn:Hentry;
    [|simpl; congruence].
  rewrite Res_bind_Ok.
  pose proof (derefMethodDef_defined a methodDef) as Hdef'.
  destruct (derefMethodDef a methodDef) as [md|f] eqn:Hderef; [|simpl; congruence].
  rewrite Res_bind_Ok. case_match; [|done].
  apply IH; [lia | lia |].
  destruct n as [|n]; [|lia]. exfalso.
  unfold getTableEntryByIndex in Hentry. rewrite Hcount in Hentry.
  destruct (decide (mli = Z.of_nat (length table) + 1)) as [->|Hne].
  - destruct ((_ =? 0) || _) eqn:E.
    + injection Hentry as <-. by rewrite derefMethodDef_nullptr in Hderef.
    + rewrite <- Hcount in Hentry.
      rewrite (getTableEntry_past_the_end a MethodDef_ID table) in Hentry; [done| |done|done].
      unfold MethodDef_ID. lia.
  - assert (E : (mli =? 0) || (mli >? Z.of_nat (length table) + 1) = true).
    { apply orb_true_iff. right. apply Z.gtb_lt. lia. }
    rewrite E in Hentry. injection Hentry as <-.
    by rewrite derefMethodDef_nullptr in Hderef.
Qed.

(** ** The loaders *)

Lemma tryLoaders_Some loaders assemblyName (a : Assembly) :
  tryLoaders loaders assemblyName = Some a ↔
  ∃ before loaderFunction after,
    loaders = before ++ loaderFunction :: after
    ∧ Forall (λ g, g assemblyName = None) before
    ∧ loaderFunction assemblyName = Some a.
Proof.
  induction loaders as [|g rest IH]; simpl.
  - split; [done|]. intros (before & f & after & Heq & _). by destruct before.
  - destruct (g assemblyName) as [b|] eqn:Hg.
    + split.
      * intros [= ->]. exists [], g, rest. by repeat split.
      * intros ([|g' before] & f & after & Heq & Hnone & Hf); simplify_eq/=.
        -- congruence.
        -- apply Forall_cons in Hnone as [Hg' _]. congruence.
    + rewrite IH. split.
      * intros (before & f & after & -> & Hnone & Hf).
        exists (g :: before), f, after. split; [done|]. split; [by constructor | done].
      * intros ([|g' before] & f & after & Heq & Hnone & Hf); simplify_eq/=.
        apply Forall_cons in Hnone as [_ Hnone]. by exists before, f, after.
Qed.

Lemma tryLoaders_None loaders assemblyName :
  tryLoaders loaders assemblyName = None ↔ Forall (λ g, g assemblyName = None) loaders.
Proof.
  induction loaders as [|g rest IH]; simpl; [by split|].
  rewrite Forall_cons. destruct (g assemblyName) eqn:Hg.
  - split; [done | by intros [? _]].
  - rewrite IH. split; [by intros | by intros [_ ?]].
Qed.

(** The assembly of a callee: the registered one, else the answer of the
    first loader that has one, installed under the name; the error exactly
    when the name is not registered and no loader answers. *)
Lemma findAssembly_not_found assemblyName rt r rt' :
  findAssembly assemblyName rt = (r, rt') →
  (r = Fail (Throw (AssemblyNotFound assemblyName)) ↔
   m_assemblies rt !! assemblyName = None
   ∧ Forall (λ g, g assemblyName = None) (m_assemblyLoaders rt)).
Proof.
  unfold findAssembly. rewrite <- tryLoaders_None.
  destruct (m_assemblies rt !! assemblyName);
    [intros [= <- <-]; split; [done | by intros [? _]] |].
  destruct (tryLoaders _ _); intros [= <- <-].
  - split; [done | by intros [_ ?]].
  - done.
Qed.

Lemma findAssembly_loaded assemblyName rt (a : Assembly) :
  m_assemblies rt !! assemblyName = None →
  tryLoaders (m_assemblyLoaders rt) assemblyName = Some a →
  ∃ rt', findAssembly assemblyName rt = (Ok a, rt')
       ∧ m_assemblies rt' !! assemblyName = Some a.
Proof.
  intros Hnone Hload. unfold findAssembly. rewrite Hnone, Hload.
  eexists; split; [done|]. simpl. by rewrite lookup_insert_eq.
Qed.

(** C5.  Assembly [B] has the type [Ns.C] with the one method [X] and the
    type [Ns.D] with the one method [M].  The specification's look-up finds
    no [Ns.C::M]; [getMethodByName] returns the row of [Ns.D::M], because
    the inner loop tests the type counter and so runs past the methods of
    [Ns.C]; the call of [[B]Ns.C::M] from assembly [A] then runs the body
    of [Ns.D::M] and raises no error. *)
Theorem call_finds_the_method_of_another_type :
  ∃ method2,
    getTableEntryByIndex Callee_assembly MethodDef_ID 2 = Ok method2
    ∧ method2 ≠ nullptr
    ∧ spec_methodByName Callee_assembly "Ns" "C" "M" = None
    ∧ spec_typeDefOfMethod Callee_assembly 2 = Some 1%nat
    ∧ getMethodByName Callee_assembly "Ns" "C" "M" = Ok method2
    ∧ ∃ rt',
        run (ext := scenarioExternals) 20 Caller_assembly
            (addAssemblyLoader Callee_loader newRuntime) = (Ok 0, rt')
        ∧ output rt'
          = [EvOpcode Call; EvExecuting (mkQualifiedName "B" "Ns" "C" "M");
             EvOpcode Ldc_i4_7; EvOpcode Pop; EvOpcode Ret; EvOpcode Ret].
Proof.
  eexists. repeat split; try (vm_compute; reflexivity).
  - vm_compute. discriminate.
  - eexists. split; vm_compute; reflexivity.
Qed.

(** The same call under every budget of at least 5 instructions. *)
Lemma Caller_any_budget (fuel : nat) :
  (5 ≤ fuel)%nat →
  run (ext := scenarioExternals) fuel Caller_assembly
      (addAssemblyLoader Callee_loader newRuntime)
  = run (ext := scenarioExternals) 5 Caller_assembly
      (addAssemblyLoader Callee_loader newRuntime).
Proof.
  intros Hfuel. apply (run_more (ext := scenarioExternals) 5 fuel Caller_assembly Hfuel).
  vm_compute. discriminate.
Qed.

(** With no loader for [B] the call fails with [AssemblyNotFound]. *)
Lemma Caller_without_loader :
  (run (ext := scenarioExternals) 5 Caller_assembly newRuntime).1
  = Fail (Throw (AssemblyNotFound "B")).
Proof. vm_compute. reflexivity. Qed.

(** ** The engine: frames and static constructors *)

Lemma initializedOnce_same rt rt' :
  m_initializedTypes rt' = m_initializedTypes rt →
  output rt' = output rt →
  initializedOnce rt → initializedOnce rt'.
Proof. unfold initializedOnce. by intros -> ->. Qed.

Lemma initializedOnce_newRuntime : initializedOnce newRuntime.
Proof. split; [constructor | intros x Hx; inversion Hx]. Qed.

(** What [run] does to the list of frames and to the discipline of the
    static constructors. *)
Lemma run_frames {ext : Externals} fuel assembly rt r rt' :
  run fuel assembly rt = (r, rt') →
  (initializedOnce rt → initializedOnce rt')
  ∧ (m_methodStack rt' = m_methodStack rt
     ∨ ∃ frame, m_methodStack rt' = m_methodStack rt ++ [frame])
  ∧ (∀ z, r = Ok z → ∃ frame, m_methodStack rt' = m_methodStack rt ++ [frame]).
Proof.
  unfold run.
  destruct (getModule assembly) as [module|f];
    [rewrite bind_liftRes_Ok; cbn beta
    | rewrite bind_liftRes_Fail; intros [= <- <-];
      split; [done | split; [by left | intros z [=]]] ].
  destruct (derefModule assembly module) as [mo|f];
    [rewrite bind_liftRes_Ok; cbn beta
    | rewrite bind_liftRes_Fail; intros [= <- <-];
      split; [done | split; [by left | intros z [=]]] ].
  rewrite bind_eq.
  assert (∃ a rt1, emplaceAssembly (getString assembly (mod_nameIndex mo)) assembly rt
                   = (Ok a, rt1)
                   ∧ m_methodStack rt1 = m_methodStack rt
                   ∧ m_initializedTypes rt1 = m_initializedTypes rt
                   ∧ output rt1 = output rt) as (a & rt1 & -> & Hs1 & Hi1 & Ho1).
  { unfold emplaceAssembly. destruct (m_assemblies rt !! _); by eexists _, _. }
  rewrite !bind_modify, bind_eq. unfold executeEntry.
  destruct (executeInstructions fuel _) as [r1 [method' rt2]] eqn:Hexec.
  apply keeping_executeInstructions in Hexec as (Hs2 & _ & Hinv).
  unfold runtimeOf, Frame_HasRuntime in Hs2, Hinv. simpl in Hs2, Hinv.
  assert (Hstack : m_methodStack (storeBack method' rt2) = m_methodStack rt ++ [method']).
  { unfold storeBack. simpl. by rewrite Hs2, removelast_last, Hs1. }
  assert (Honce : initializedOnce rt → initializedOnce (storeBack method' rt2)).
  { intros Hrt. apply (initializedOnce_same rt2); [done | done |].
    apply Hinv. by apply (initializedOnce_same rt). }
  destruct r1; intros [= <- <-]; (split; [done|]); split; eauto.
Qed.

(** [loadStaticField] hands to [exec] only states in which the type of the
    field is in the set of initialized types. *)
Lemma loadStaticField_enters_initialized {ext : Externals} exec exec' token m rt field typeDef :
  getTableEntry (m_assembly m) Field_ID token = Ok field →
  getTypeDefOfField (m_assembly m) field = Ok typeDef →
  (∀ callee rt1, typeDef ∈ m_initializedTypes rt1 → exec (callee, rt1) = exec' (callee, rt1)) →
  loadStaticField exec token (m, rt) = loadStaticField exec' token (m, rt).
Proof.
  intros Hfield HtypeDef Hext. unfold loadStaticField.
  rewrite !bind_gets. cbn [fst].
  rewrite Hfield, !bind_liftRes_Ok. cbn beta.
  rewrite HtypeDef, !bind_liftRes_Ok. cbn beta.
  rewrite !bind_gets. cbn [snd].
  case_bool_decide as Hin; [done|].
  rewrite !bind_assoc, !bind_modify. cbn beta iota. rewrite !bind_assoc.
  destruct (derefTypeDef _ _) as [td|f];
    [rewrite !bind_liftRes_Ok; cbn beta | by rewrite !bind_liftRes_Fail].
  rewrite !bind_assoc, !bind_inFrame. cbn [println modify].
  rewrite !bind_assoc.
  destruct (getMethodOfType _ _ _) as [cctorMethod|f];
    [rewrite !bind_liftRes_Ok; cbn beta | by rewrite !bind_liftRes_Fail].
  rewrite !bind_assoc.
  destruct (getTokenOfTableEntry _ _ _) as [tok|f];
    [rewrite !bind_liftRes_Ok; cbn beta | by rewrite !bind_liftRes_Fail].
  rewrite (bind_eq (enterFrame exec _)), (bind_eq (enterFrame exec' _)).
  unfold enterFrame. rewrite Hext; [done|]. simpl. set_solver.
Qed.

(** For a type that is in the set, [loadStaticField] does not use [exec]
    and writes no [Initializing type] line. *)
Lemma loadStaticField_initialized {ext : Externals} exec token m rt field typeDef :
  getTableEntry (m_assembly m) Field_ID token = Ok field →
  getTypeDefOfField (m_assembly m) field = Ok typeDef →
  typeDef ∈ m_initializedTypes rt →
  loadStaticField exec token (m, rt)
  = match derefField (m_assembly m) field with
    | Ok fd =>
      (Ok field,
       (m, set_output (output rt ++
             [EvAccessingField (getString (m_assembly m) (fd_nameIndex fd))]) rt))
    | Fail f => (Fail f, (m, rt))
    end.
Proof.
  intros Hfield HtypeDef Hin. unfold loadStaticField.
  rewrite !bind_gets. cbn [fst].
  rewrite Hfield, !bind_liftRes_Ok. cbn beta.
  rewrite HtypeDef, !bind_liftRes_Ok. cbn beta.
  rewrite !bind_gets. cbn [snd].
  rewrite bool_decide_eq_true_2 by done. rewrite bind_ret.
  by destruct (derefField _ _).
Qed.



(** Scenario S4 under every budget of at least 12 instructions: the static
    constructor of [T] is entered once, on the first [Ldsfld], the second
    [Ldsfld] enters nothing, and the field ends with the tag [Int32] and
    the value 99. *)
Lemma S4_any_budget (fuel : nat) :
  (12 ≤ fuel)%nat →
  ∃ rt' typeDef field v,
    run (ext := scenarioExternals) fuel S4_assembly newRuntime = (Ok 0, rt')
    ∧ getTableEntryByIndex S4_assembly TypeDef_ID 2 = Ok typeDef
    ∧ output rt'
      = [EvOpcode Ldsfld; EvInitializingType typeDef "T";
         EvOpcode Ldc_i4_s; EvOpcode Stsfld; EvAccessingField "F"; EvOpcode Ret;
         EvAccessingField "F"; EvOpcode Pop;
         EvOpcode Ldsfld; EvAccessingField "F"; EvOpcode Pop; EvOpcode Ret]
    ∧ getTableEntry S4_assembly Field_ID (mkToken Field_ID 1) = Ok field
    ∧ m_staticVariables rt' !! field = Some (Some v)
    ∧ type v = Int32 ∧ le_decode (value v) = 99
    ∧ m_typeStack (m_evalStack rt') = [].
Proof.
  intros Hfuel.
  pose proof (run_more (ext := scenarioExternals) 12 fuel S4_assembly Hfuel newRuntime) as Hrun.
  eexists _, _, _, _. split.
  { rewrite Hrun; [vm_compute; reflexivity | vm_compute; discriminate]. }
  vm_compute. repeat split.
Qed.

(** ** The engine: locals and static fields *)

Lemma payloadOf_getValueType t T : payloadOf t = Some T → getValueType T = t.
Proof. destruct t; intros [= <-]; reflexivity. Qed.

(** [ldsfld] as the sequence of its three steps. *)
Lemma ldsfld_steps {ext : Externals} exec token s :
  ldsfld exec token s
  = match loadStaticField exec token s with
    | (Ok field, (method, rt)) =>
      match m_staticVariables rt !! field with
      | Some (Some v) =>
        let '(r, rt') := storeVariableOnStack (Some v) rt in (r, (method, rt'))
      | Some None => (Fail (Undefined NullDeref), (method, rt))
      | None =>
        (Fail (Undefined NullDeref),
         (method, set_staticVariables (<[field := None]> (m_staticVariables rt)) rt))
      end
    | (Fail f, s') => (Fail f, s')
    end.
Proof.
  unfold ldsfld. rewrite bind_eq.
  destruct (loadStaticField exec token s) as [[field|f] [method rt]]; [|done].
  rewrite bind_inFrame. unfold staticVariable.
  by destruct (m_staticVariables rt !! field) as [[v|]|].
Qed.

(** C10.  [ldloc] on an empty slot and [ldsfld] on a field that holds no
    variable dereference the null pointer: the result is undefined
    behaviour, not an exception, and nothing is pushed.  Conversely, when
    either returns normally the slot or the field held a value. *)
Theorem reads_of_unwritten_variables_are_unguarded {ext : Externals} :
  (∀ method rt id,
     m_localVariables method !! Z.to_nat id = Some None →
     ldloc id (method, rt) = (Fail (Undefined NullDeref), (method, rt)))
  ∧ (∀ exec token s field method rt,
       loadStaticField exec token s = (Ok field, (method, rt)) →
       m_staticVariables rt !! field = None ∨ m_staticVariables rt !! field = Some None →
       (ldsfld exec token s).1 = Fail (Undefined NullDeref)
       ∧ m_evalStack (ldsfld exec token s).2.2 = m_evalStack rt)
  ∧ (∀ rt, storeVariableOnStack None rt = (Fail (Undefined NullDeref), rt))
  ∧ (∀ method rt id s',
       ldloc id (method, rt) = (Ok tt, s') →
       ∃ v, m_localVariables method !! Z.to_nat id = Some (Some v))
  ∧ (∀ exec token s s',
       ldsfld exec token s = (Ok tt, s') →
       ∃ field method rt v,
         loadStaticField exec token s = (Ok field, (method, rt))
         ∧ m_staticVariables rt !! field = Some (Some v)).
Proof.
  split; [|split; [|split; [|split]]].
  - intros method rt id Hslot. unfold ldloc.
    rewrite bind_getsRes. unfold getLocalVariable. cbn [fst]. by rewrite Hslot.
  - intros exec token s field method rt Hload Hnone.
    rewrite ldsfld_steps, Hload. by destruct Hnone as [-> | ->].
  - done.
  - intros method rt id s'. unfold ldloc.
    rewrite bind_getsRes. unfold getLocalVariable. cbn [fst].
    destruct (m_localVariables method !! Z.to_nat id) as [[v|]|]; [by eauto|done|done].
  - intros exec token s s'. rewrite ldsfld_steps.
    destruct (loadStaticField exec token s) as [[field|f] [method rt]]; [|done].
    destruct (m_staticVariables rt !! field) as [[v|]|] eqn:Hv; [|done|done].
    intros _. by exists field, method, rt, v.
Qed.

Lemma reads_of_unwritten_variables_are_unguarded_witness :
  ldloc 0 (newMethod S3_assembly (mkToken MethodDef_ID 1), newRuntime)
  = (Fail (Undefined NullDeref), (newMethod S3_assembly (mkToken MethodDef_ID 1), newRuntime))
  ∧ (run (ext := scenarioExternals) 20 Unwritten_assembly newRuntime).1
    = Fail (Undefined NullDeref).
Proof.
  split.
  - refine (proj1 (reads_of_unwritten_variables_are_unguarded (ext := scenarioExternals))
              (newMethod S3_assembly (mkToken MethodDef_ID 1)) newRuntime 0 _).
    reflexivity.
  - vm_compute. reflexivity.
Defined.

(** * Further properties of the sources *)

(** ** Rows and tokens *)

Lemma getTableRowCount_rows (a : Assembly) (ID : Z) (table : list Row) :
  tableData a !! Z.to_nat ID = Some table →
  getTableRowCount a ID = Z.of_nat (length table).
Proof. intros Htable. unfold getTableRowCount. by rewrite Htable. Qed.

Lemma getTableEntryByIndex_in_range (a : Assembly) (ID index : Z) (table : list Row) (row : Row) :
  0 <= ID <= 64 →
  tableData a !! Z.to_nat ID = Some table →
  Z.of_nat (length table) < 2 ^ 24 →
  table !! Z.to_nat (index - 1) = Some row →
  1 <= index →
  getTableEntryByIndex a ID index = Ok (row_data row).
Proof.
  intros HID Htable Hlen Hrow Hindex.
  pose proof (lookup_lt_Some _ _ _ Hrow) as Hlt.
  assert (H24 : (2 ^ 24 : Z) = 16777216) by reflexivity.
  unfold getTableEntryByIndex. rewrite (getTableRowCount_rows a ID table Htable).
  destruct (index =? 0) eqn:E0; [apply Z.eqb_eq in E0; lia|].
  destruct (index >? _) eqn:E1; [apply Z.gtb_lt in E1; lia|]. simpl.
  unfold Token_make. rewrite Z.mod_small by lia.
  apply (getTableEntry_in_range a ID index table row); [done | done | | done].
  change (2 ^ 32) with 4294967296. lia.
Qed.

(** X1.  A token whose table is present and whose index is between 1 and
    the number of rows resolves to the start of the row at that 1-based
    position; the null token of the table, and a token of any other table,
    resolve to the null pointer. *)
Theorem getTableEntry_resolves_rows (a : Assembly) (ID : Z) (table : list Row) :
  0 <= ID <= 64 →
  tableData a !! Z.to_nat ID = Some table →
  Z.of_nat (length table) < 2 ^ 24 →
  (∀ index row,
     1 <= index → table !! Z.to_nat (index - 1) = Some row →
     getTableEntry a ID (mkToken ID index) = Ok (row_data row)
     ∧ getTableEntryByIndex a ID index = Ok (row_data row))
  ∧ getTableEntry a ID (mkToken ID 0) = Ok nullptr
  ∧ getTableEntryByIndex a ID 0 = Ok nullptr
  ∧ (∀ token, getId token ≠ ID → getTableEntry a ID token = Ok nullptr).
Proof.
  intros HID Htable Hlen.
  assert (H24 : (2 ^ 24 : Z) = 16777216) by reflexivity.
  split; [|split; [|split]].
  - intros index row Hindex Hrow.
    pose proof (lookup_lt_Some _ _ _ Hrow) as Hlt. split.
    + apply (getTableEntry_in_range a ID index table row); [done | done | | done].
      change (2 ^ 32) with 4294967296. lia.
    + by apply (getTableEntryByIndex_in_range a ID index table row).
  - apply (getTableEntry_null a ID table); [done | done |].
    change (2 ^ 32 - 1) with 4294967295. lia.
  - reflexivity.
  - apply getTableEntry_other_table.
Qed.

Lemma getTableEntry_resolves_rows_witness :
  getTableEntry S3_assembly TypeDef_ID (mkToken TypeDef_ID 2) = Ok (0x10000 + 0x200 + 0x0A + 0x0E)
  ∧ getTableEntry S3_assembly TypeDef_ID (mkToken TypeDef_ID 0) = Ok nullptr
  ∧ getTableEntry S3_assembly TypeDef_ID (mkToken MethodDef_ID 1) = Ok nullptr.
Proof.
  destruct (getTableEntry_resolves_rows S3_assembly TypeDef_ID (rowsOf S3_assembly TypeDef_ID))
    as (Hrow & Hnull & _ & Hother).
  - vm_compute. split; discriminate.
  - reflexivity.
  - reflexivity.
  - split; [|split; [exact Hnull|]].
    + refine (proj1 (Hrow 2 (mkRow (0x10000 + 0x200 + 0x0A + 0x0E) 0x0E
                (VTypeDef (mkTypeDef (nameIndex S3_names "Program") 0 1))) _ _)).
      * lia.
      * reflexivity.
    + apply Hother. vm_compute. discriminate.
Defined.

(** The rows that [sliceRows] cuts: the row at position [i] starts [i] row
    sizes after the parse pointer. *)
Lemma sliceRows_lookup (views : list RowView) :
  ∀ (parsePointer tableSize : Z) (i : nat),
    sliceRows parsePointer tableSize views !! i
    = mkRow (parsePointer + tableSize * Z.of_nat i) tableSize <$> views !! i.
Proof.
  induction views as [|v views IH]; intros p size i; simpl; [done|].
  destruct i as [|i]; simpl.
  - f_equal. f_equal. lia.
  - rewrite IH. destruct (views !! i); simpl; [|done]. do 2 f_equal. lia.
Qed.

(** X2.  The rows of a table that [parseStreams] sliced from [start] on
    lie back to back: the token with the 1-based index [index] resolves to
    the address [start + tableSize * (index - 1)], and with a row size
    that is not zero two different indices never resolve to the same
    address. *)
Theorem parsed_rows_are_consecutive (a : Assembly) (ID start tableSize : Z)
    (views : list RowView) :
  0 <= ID <= 64 →
  tableData a !! Z.to_nat ID = Some (sliceRows start tableSize views) →
  Z.of_nat (length views) < 2 ^ 24 →
  (∀ index, 1 <= index <= Z.of_nat (length views) →
     getTableEntry a ID (mkToken ID index) = Ok (start + tableSize * (index - 1)))
  ∧ (0 < tableSize →
     ∀ i j p, 1 <= i <= Z.of_nat (length views) → 1 <= j <= Z.of_nat (length views) →
       getTableEntry a ID (mkToken ID i) = Ok p →
       getTableEntry a ID (mkToken ID j) = Ok p → i = j).
Proof.
  intros HID Htable Hlen.
  assert (Hresolve : ∀ index, 1 <= index <= Z.of_nat (length views) →
            getTableEntry a ID (mkToken ID index) = Ok (start + tableSize * (index - 1))).
  { intros index Hindex.
    destruct (lookup_lt_is_Some_2 views (Z.to_nat (index - 1))) as [v Hv]; [lia|].
    rewrite (getTableEntry_in_range a ID index _
               (mkRow (start + tableSize * (index - 1)) tableSize v) HID Htable).
    - done.
    - assert (H24 : (2 ^ 24 : Z) = 16777216) by reflexivity.
      change (2 ^ 32) with 4294967296. lia.
    - rewrite sliceRows_lookup, Hv. simpl. by rewrite Z2Nat.id by lia. }
  split; [exact Hresolve|].
  intros Hsize i j p Hi Hj Hpi Hpj.
  rewrite (Hresolve i Hi) in Hpi. rewrite (Hresolve j Hj) in Hpj.
  injection Hpi as <-. injection Hpj as Heq. nia.
Qed.

Lemma parsed_rows_are_consecutive_witness :
  getTableEntry S3_assembly TypeDef_ID (mkToken TypeDef_ID 2) = Ok (0x1020A + 0x0E * (2 - 1)).
Proof.
  refine (proj1 (parsed_rows_are_consecutive S3_assembly TypeDef_ID 0x1020A 0x0E
            [VTypeDef (mkTypeDef (nameIndex S3_names "<Module>") 0 1);
             VTypeDef (mkTypeDef (nameIndex S3_names "Program") 0 1)] _ _ _) 2 _).
  - vm_compute. split; discriminate.
  - reflexivity.
  - reflexivity.
  - vm_compute. split; discriminate.
Defined.

(** The loop of [getTokenOfTableEntry] returns the first row from
    [index] on whose address is the one looked for. *)
Lemma getTokenOfTableEntry_loop_first (a : Assembly) (ID tableEntry : Z) (table : list Row) :
  0 <= ID <= 64 →
  tableData a !! Z.to_nat ID = Some table →
  Z.of_nat (length table) < 2 ^ 24 →
  ∀ (n k : nat),
    (k + n = length table)%nat →
    getTokenOfTableEntry_loop a ID tableEntry (Z.of_nat k) n
    = Ok match list_find (λ r, row_data r = tableEntry) (drop k table) with
         | Some (j, _) => mkToken ID (Z.of_nat (k + j) + 1)
         | None => mkToken 0xFF 0x00
         end.
Proof.
  intros HID Htable Hlen.
  assert (H24 : (2 ^ 24 : Z) = 16777216) by reflexivity.
  induction n as [|n IH]; intros k Hk.
  - simpl. rewrite drop_ge by lia. done.
  - destruct (lookup_lt_is_Some_2 table k) as [row Hrow]; [lia|].
    cbn [getTokenOfTableEntry_loop].
    rewrite (getTableEntryByIndex_in_range a ID (Z.of_nat k + 1) table row);
      [|done|done|done| |lia].
    2:{ replace (Z.to_nat (Z.of_nat k + 1 - 1)) with k by lia. done. }
    rewrite Res_bind_Ok.
    rewrite (drop_S _ _ _ Hrow). cbn [list_find].
    destruct (row_data row =? tableEntry) eqn:E.
    + apply Z.eqb_eq in E. rewrite decide_True by done.
      unfold Token_make. rewrite Z.mod_small by lia.
      do 2 f_equal. lia.
    + apply Z.eqb_neq in E. rewrite decide_False by done.
      replace (Z.of_nat k + 1) with (Z.of_nat (S k)) by lia.
      rewrite IH by lia.
      destruct (list_find _ (drop (S k) table)) as [[j r]|]; simpl; [|done].
      do 2 f_equal. lia.
Qed.

Lemma getTokenOfTableEntry_first (a : Assembly) (ID tableEntry : Z) (table : list Row) :
  0 <= ID <= 64 →
  tableData a !! Z.to_nat ID = Some table →
  Z.of_nat (length table) < 2 ^ 24 →
  getTokenOfTableEntry a ID tableEntry
  = Ok match list_find (λ r, row_data r = tableEntry) table with
       | Some (j, _) => mkToken ID (Z.of_nat j + 1)
       | None => mkToken 0xFF 0x00
       end.
Proof.
  intros HID Htable Hlen. unfold getTokenOfTableEntry.
  rewrite (getTableRowCount_rows a ID table Htable), Nat2Z.id.
  exact (getTokenOfTableEntry_loop_first a ID tableEntry table HID Htable Hlen
           (length table) 0%nat eq_refl).
Qed.

(** X3.  [getTokenOfTableEntry] is the inverse of [getTableEntryByIndex]
    on a table whose rows have different addresses: the address of the row
    with the 1-based index [index] is mapped back to the token of that
    index, and a token that the function returns for an address of the
    table resolves to that address. *)
Theorem getTokenOfTableEntry_inverts_getTableEntryByIndex (a : Assembly) (ID : Z)
    (table : list Row) :
  0 <= ID <= 64 →
  tableData a !! Z.to_nat ID = Some table →
  Z.of_nat (length table) < 2 ^ 24 →
  NoDup (row_data <$> table) →
  (∀ index tableEntry,
     1 <= index <= Z.of_nat (length table) →
     getTableEntryByIndex a ID index = Ok tableEntry →
     getTokenOfTableEntry a ID tableEntry = Ok (mkToken ID index))
  ∧ (∀ tableEntry token,
       tableEntry ∈ row_data <$> table →
       getTokenOfTableEntry a ID tableEntry = Ok token →
       getTableEntry a ID token = Ok tableEntry).
Proof.
  intros HID Htable Hlen Hnodup.
  assert (H24 : (2 ^ 24 : Z) = 16777216) by reflexivity.
  split.
  - intros index p Hindex Hp.
    destruct (lookup_lt_is_Some_2 table (Z.to_nat (index - 1))) as [row Hrow]; [lia|].
    rewrite (getTableEntryByIndex_in_range a ID index table row) in Hp by (done || lia).
    injection Hp as <-.
    rewrite (getTokenOfTableEntry_first a ID _ table HID Htable Hlen).
    destruct (list_find _ table) as [[j r]|] eqn:Hfind.
    + apply list_find_Some in Hfind as (Hj & Heq & _).
      assert (j = Z.to_nat (index - 1)) as ->.
      { eapply NoDup_lookup; [exact Hnodup | |].
        - rewrite list_lookup_fmap, Hj. simpl. by rewrite Heq.
        - by rewrite list_lookup_fmap, Hrow. }
      do 2 f_equal. lia.
    + apply list_find_None in Hfind. rewrite Forall_forall in Hfind.
      exfalso. eapply Hfind; [by eapply list_elem_of_lookup_2 | done].
  - intros p token Hin.
    rewrite (getTokenOfTableEntry_first a ID _ table HID Htable Hlen).
    destruct (list_find _ table) as [[j r]|] eqn:Hfind.
    + apply list_find_Some in Hfind as (Hj & Heq & _). intros [= <-].
      pose proof (lookup_lt_Some _ _ _ Hj) as Hlt.
      rewrite (getTableEntry_in_range a ID (Z.of_nat j + 1) table r); [by rewrite Heq|done|done| |].
      * change (2 ^ 32) with 4294967296. lia.
      * replace (Z.to_nat (Z.of_nat j + 1 - 1)) with j by lia. done.
    + apply list_find_None in Hfind. rewrite Forall_forall in Hfind.
      apply list_elem_of_fmap in Hin as (r & -> & Hr). by destruct (Hfind r Hr).
Qed.

Lemma getTokenOfTableEntry_inverts_getTableEntryByIndex_witness :
  getTokenOfTableEntry S4_assembly MethodDef_ID 0x2023A = Ok (mkToken MethodDef_ID 2).
Proof.
  refine (proj1 (getTokenOfTableEntry_inverts_getTableEntryByIndex S4_assembly MethodDef_ID
            (rowsOf S4_assembly MethodDef_ID) _ _ _ _) 2 0x2023A _ _).
  - vm_compute. split; discriminate.
  - reflexivity.
  - reflexivity.
  - refine (bool_decide_unpack _ _). vm_compute. exact I.
  - vm_compute. split; discriminate.
  - reflexivity.
Defined.

(** X4.  For an address that is not the address of a row of the table,
    [getTokenOfTableEntry] returns the token of table [0xFF] with index 0,
    which no table resolves: [getTableEntry] gives the null pointer for it
    in each of the 64 tables. *)
Theorem getTokenOfTableEntry_of_a_stranger (a : Assembly) (ID tableEntry : Z)
    (table : list Row) :
  0 <= ID <= 64 →
  tableData a !! Z.to_nat ID = Some table →
  Z.of_nat (length table) < 2 ^ 24 →
  tableEntry ∉ row_data <$> table →
  getTokenOfTableEntry a ID tableEntry = Ok (mkToken 0xFF 0x00)
  ∧ ∀ ID', 0 <= ID' <= 64 → getTableEntry a ID' (mkToken 0xFF 0x00) = Ok nullptr.
Proof.
  intros HID Htable Hlen Hnotin. split.
  - rewrite (getTokenOfTableEntry_first a ID _ table HID Htable Hlen).
    destruct (list_find _ table) as [[j r]|] eqn:Hfind; [|done].
    apply list_find_Some in Hfind as (Hj & Heq & _).
    exfalso. apply Hnotin. apply list_elem_of_fmap. exists r.
    split; [done | by eapply list_elem_of_lookup_2].
  - intros ID' HID'. apply getTableEntry_other_table. simpl. lia.
Qed.

Lemma getTokenOfTableEntry_of_a_stranger_witness :
  getTokenOfTableEntry S4_assembly MethodDef_ID nullptr = Ok (mkToken 0xFF 0x00)
  ∧ ∀ ID', 0 <= ID' <= 64 → getTableEntry S4_assembly ID' (mkToken 0xFF 0x00) = Ok nullptr.
Proof.
  refine (getTokenOfTableEntry_of_a_stranger S4_assembly MethodDef_ID nullptr
            (rowsOf S4_assembly MethodDef_ID) _ _ _ _).
  - vm_compute. split; discriminate.
  - reflexivity.
  - reflexivity.
  - refine (bool_decide_unpack _ _). vm_compute. exact I.
Defined.

Lemma getAllTableEntries_loop_rows (a : Assembly) (ID : Z) (table : list Row) :
  0 <= ID <= 64 →
  tableData a !! Z.to_nat ID = Some table →
  Z.of_nat (length table) < 2 ^ 24 →
  ∀ (n k : nat),
    (k + n = length table)%nat →
    getAllTableEntries_loop a ID (Z.of_nat k) n = Ok (row_data <$> drop k table).
Proof.
  intros HID Htable Hlen.
  induction n as [|n IH]; intros k Hk.
  - simpl. by rewrite drop_ge by lia.
  - destruct (lookup_lt_is_Some_2 table k) as [row Hrow]; [lia|].
    cbn [getAllTableEntries_loop].
    rewrite (getTableEntryByIndex_in_range a ID (Z.of_nat k + 1) table row);
      [|done|done|done| |lia].
    2:{ replace (Z.to_nat (Z.of_nat k + 1 - 1)) with k by lia. done. }
    rewrite Res_bind_Ok.
    replace (Z.of_nat k + 1) with (Z.of_nat (S k)) by lia.
    rewrite IH by lia. rewrite Res_bind_Ok.
    by rewrite (drop_S _ _ _ Hrow).
Qed.

(** X5.  [getAllTableEntries] returns the addresses of all the rows of the
    table, in the order of the table, and so as many as the table has
    rows; none of the look-ups it makes leaves the table. *)
Theorem getAllTableEntries_lists_the_rows (a : Assembly) (ID : Z) (table : list Row) :
  0 <= ID <= 64 →
  tableData a !! Z.to_nat ID = Some table →
  Z.of_nat (length table) < 2 ^ 24 →
  getAllTableEntries a ID = Ok (row_data <$> table)
  ∧ ∀ result, getAllTableEntries a ID = Ok result →
      Z.of_nat (length result) = getTableRowCount a ID.
Proof.
  intros HID Htable Hlen.
  assert (Hall : getAllTableEntries a ID = Ok (row_data <$> table)).
  { unfold getAllTableEntries.
    rewrite (getTableRowCount_rows a ID table Htable), Nat2Z.id.
    exact (getAllTableEntries_loop_rows a ID table HID Htable Hlen (length table) 0%nat
             eq_refl). }
  split; [exact Hall|].
  intros result. rewrite Hall. intros [= <-].
  by rewrite length_fmap, (getTableRowCount_rows a ID table Htable).
Qed.

Lemma getAllTableEntries_lists_the_rows_witness :
  getAllTableEntries S4_assembly MethodDef_ID = Ok [0x2022C; 0x2023A].
Proof.
  refine (proj1 (getAllTableEntries_lists_the_rows S4_assembly MethodDef_ID
            (rowsOf S4_assembly MethodDef_ID) _ _ _)).
  - vm_compute. split; discriminate.
  - reflexivity.
  - reflexivity.
Defined.

(** X6.  [getClassLayoutOfType] never finds a layout: with a type that is
    not null and a ClassLayout table that has a row, the first round asks
    for the row with index 0, gets the null pointer and reads [parentIndex]
    through it. *)
Theorem getClassLayoutOfType_reads_through_null (parentIndexOf : Z → Res Z)
    (a : Assembly) (typeDef : Z) :
  typeDef ≠ nullptr →
  0 < getTableRowCount a ClassLayout_ID →
  getClassLayoutOfType parentIndexOf a typeDef = Fail (Undefined NullDeref).
Proof.
  intros Hne Hrows. unfold getClassLayoutOfType.
  destruct (typeDef =? nullptr) eqn:E; [apply Z.eqb_eq in E; done|].
  destruct (Z.to_nat (getTableRowCount a ClassLayout_ID)) as [|n] eqn:Hn; [lia|].
  reflexivity.
Qed.

Lemma getClassLayoutOfType_reads_through_null_witness :
  getClassLayoutOfType (λ _, Ok 2) Layout_assembly 0x8020A = Fail (Undefined NullDeref).
Proof.
  refine (getClassLayoutOfType_reads_through_null (λ _, Ok 2) Layout_assembly 0x8020A _ _).
  - vm_compute. discriminate.
  - reflexivity.
Defined.

(** ** The look-up of a method by its names *)

Lemma derefTypeDef_anotherType (a : Assembly) (namespaceName typeName : string)
    (table : list Row) (row : Row) :
  tableData a !! Z.to_nat TypeDef_ID = Some table →
  Forall (anotherType a namespaceName typeName) table →
  row ∈ table →
  ∃ td, derefTypeDef a (row_data row) = Ok td
        ∧ (namespaceName ≠ getString a (td_typeNamespaceIndex td)
           ∨ getString a (td_typeNameIndex td) ≠ typeName).
Proof.
  intros Htable Hall Hrow. rewrite Forall_forall in Hall.
  destruct (Hall row Hrow) as (Hnn & _).
  unfold derefTypeDef, rowAt. rewrite Htable.
  destruct (row_data row =? nullptr) eqn:E; [apply Z.eqb_eq in E; done|].
  destruct (List.find _ table) as [r|] eqn:Hfind.
  - apply find_some in Hfind as [Hin _]. apply list_elem_of_In in Hin.
    destruct (Hall r Hin) as (_ & td & Hview & _ & Hnames).
    exists td. rewrite Res_bind_Ok, Hview. split; [done|].
    destruct Hnames as [Hns | [_ Hname]]; [by left | by right].
  - exfalso. apply list_elem_of_In in Hrow.
    apply (find_none _ _ Hfind) in Hrow. apply Z.eqb_neq in Hrow. done.
Qed.

Lemma getMethodByName_types_absent (a : Assembly) (namespaceName typeName methodName : string)
    (table : list Row) :
  tableData a !! Z.to_nat TypeDef_ID = Some table →
  Z.of_nat (length table) < 2 ^ 24 →
  Forall (anotherType a namespaceName typeName) table →
  ∀ (n k : nat),
    (k + n = length table)%nat →
    getMethodByName_types a namespaceName typeName methodName (Z.of_nat k) n = Ok nullptr.
Proof.
  intros Htable Hlen Hall.
  induction n as [|n IH]; intros k Hk; [done|].
  destruct (lookup_lt_is_Some_2 table k) as [row Hrow]; [lia|].
  cbn [getMethodByName_types].
  rewrite (getTableEntryByIndex_in_range a TypeDef_ID (Z.of_nat k + 1) table row);
    [|by vm_compute|done|done| |lia].
  2:{ replace (Z.to_nat (Z.of_nat k + 1 - 1)) with k by lia. done. }
  rewrite Res_bind_Ok.
  destruct (derefTypeDef_anotherType a namespaceName typeName table row Htable Hall)
    as (td & -> & Hnames); [by eapply list_elem_of_lookup_2|].
  rewrite Res_bind_Ok. cbv zeta.
  replace (Z.of_nat k + 1) with (Z.of_nat (S k)) by lia.
  destruct (String.eqb namespaceName _) eqn:E1; simpl; [|apply IH; lia].
  destruct (String.eqb _ typeName) eqn:E2; simpl; [|apply IH; lia].
  apply String.eqb_eq in E1, E2. by destruct Hnames.
Qed.

(** X7.  When every row of the TypeDef table can be read (it is not at
    address zero and the names it is asked for lie in the string heap)
    and none has the namespace and the name looked for, [getMethodByName]
    returns the null pointer, whatever the MethodDef table holds. *)
Theorem getMethodByName_of_an_absent_type (a : Assembly)
    (namespaceName typeName methodName : string) (table : list Row) :
  tableData a !! Z.to_nat TypeDef_ID = Some table →
  Z.of_nat (length table) < 2 ^ 24 →
  Forall (anotherType a namespaceName typeName) table →
  getMethodByName a namespaceName typeName methodName = Ok nullptr.
Proof.
  intros Htable Hlen Hall. unfold getMethodByName.
  rewrite (getTableRowCount_rows a TypeDef_ID table Htable), Nat2Z.id.
  exact (getMethodByName_types_absent a namespaceName typeName methodName table
           Htable Hlen Hall (length table) 0%nat eq_refl).
Qed.

Lemma getMethodByName_of_an_absent_type_witness :
  getMethodByName Callee_assembly "Ns" "E" "M" = Ok nullptr.
Proof.
  refine (getMethodByName_of_an_absent_type Callee_assembly "Ns" "E" "M"
            (rowsOf Callee_assembly TypeDef_ID) _ _ _).
  - reflexivity.
  - reflexivity.
  - repeat constructor; try (vm_compute; discriminate);
      eexists; (split; [reflexivity|]); (split; [reflexivity|]);
      right; (split; [reflexivity|]); vm_compute; discriminate.
Defined.

(** ** The order of qualified names *)

Lemma Ascii_compare_Lt_trans (x y z : Ascii.ascii) :
  Ascii.compare x y = Lt → Ascii.compare y z = Lt → Ascii.compare x z = Lt.
Proof.
  unfold Ascii.compare. rewrite !N.compare_lt_iff. lia.
Qed.

Lemma String_compare_refl (s : string) : String.compare s s = Eq.
Proof.
  induction s as [|c s IH]; simpl; [done|].
  unfold Ascii.compare. by rewrite N.compare_refl.
Qed.

Lemma String_compare_Lt_trans (x : string) :
  ∀ y z, String.compare x y = Lt → String.compare y z = Lt → String.compare x z = Lt.
Proof.
  induction x as [|a x IH]; intros [|b y] [|c z]; simpl; try done.
  destruct (Ascii.compare a b) eqn:Hab; [|
    | done].
  - apply Ascii.compare_eq_iff in Hab as ->.
    destruct (Ascii.compare b c) eqn:Hbc; [apply IH | done | done].
  - intros _. destruct (Ascii.compare b c) eqn:Hbc.
    + apply Ascii.compare_eq_iff in Hbc as <-. by rewrite Hab.
    + by rewrite (Ascii_compare_Lt_trans a b c).
    + done.
Qed.

Lemma String_ltb_irrefl (s : string) : String.ltb s s = false.
Proof. unfold String.ltb. by rewrite String_compare_refl. Qed.

Lemma String_ltb_trans (x y z : string) :
  String.ltb x y = true → String.ltb y z = true → String.ltb x z = true.
Proof.
  unfold String.ltb.
  destruct (String.compare x y) eqn:Hxy; try done.
  destruct (String.compare y z) eqn:Hyz; try done.
  by rewrite (String_compare_Lt_trans x y z).
Qed.

(** X8.  [QualifiedName::operator<] is irreflexive and transitive, but two
    names that agree in one of their four components are never ordered, in
    either direction, so a [std::map] keyed by it takes them for the same
    key; being unordered is not transitive, so the comparison is not the
    strict weak order that the map asks for. *)
Theorem QualifiedName_lt_is_not_a_weak_order :
  (∀ q, QualifiedName_lt q q = false)
  ∧ (∀ q1 q2 q3,
       QualifiedName_lt q1 q2 = true → QualifiedName_lt q2 q3 = true →
       QualifiedName_lt q1 q3 = true)
  ∧ (∀ q1 q2,
       qn_assemblyName q1 = qn_assemblyName q2
       ∨ qn_namespaceName q1 = qn_namespaceName q2
       ∨ qn_typeName q1 = qn_typeName q2
       ∨ qn_methodName q1 = qn_methodName q2 →
       QualifiedName_equiv q1 q2 = true)
  ∧ (∃ q1 q2 q3,
       QualifiedName_equiv q1 q2 = true ∧ QualifiedName_equiv q2 q3 = true
       ∧ QualifiedName_equiv q1 q3 = false).
Proof.
  split; [|split; [|split]].
  - intros q. unfold QualifiedName_lt. by rewrite String_ltb_irrefl.
  - intros q1 q2 q3. unfold QualifiedName_lt.
    rewrite !andb_true_iff. intros [[[H1 H2] H3] H4] [[[G1 G2] G3] G4].
    repeat split; eapply String_ltb_trans; eassumption.
  - intros q1 q2 Hshared. unfold QualifiedName_equiv, QualifiedName_lt.
    destruct Hshared as [-> | [-> | [-> | ->]]];
      rewrite String_ltb_irrefl, ?andb_false_r; reflexivity.
  - exists (mkQualifiedName "a" "a" "a" "a"),
           (mkQualifiedName "a" "b" "b" "b"),
           (mkQualifiedName "b" "b" "b" "b").
    by vm_compute.
Qed.

Lemma QualifiedName_lt_is_not_a_weak_order_witness :
  QualifiedName_equiv (mkQualifiedName "B" "Ns" "C" "M") (mkQualifiedName "B" "Ns" "D" "X")
  = true.
Proof.
  refine (proj1 (proj2 (proj2 QualifiedName_lt_is_not_a_weak_order))
            (mkQualifiedName "B" "Ns" "C" "M") (mkQualifiedName "B" "Ns" "D" "X") _).
  left. reflexivity.
Defined.

(** ** Blobs *)

Lemma blob_byte_classes (b0 : Z) :
  0 <= b0 < 256 →
  (Z.land b0 0x80 = 0x00 → b0 < 128)
  ∧ 0 <= Z.land b0 0x3F < 64 ∧ 0 <= Z.land b0 0x1F < 32.
Proof.
  intros Hb.
  apply (Z_range_forall
    (λ b0, bool_decide ((Z.land b0 0x80 = 0x00 → b0 < 128)
                        ∧ 0 <= Z.land b0 0x3F < 64 ∧ 0 <= Z.land b0 0x1F < 32)) 256) in Hb;
    [by apply bool_decide_eq_true in Hb | by vm_compute].
Qed.

Lemma byteAt_byte (blob : list u8) (i b : Z) :
  Forall (λ b, 0 <= b < 256) blob → byteAt blob i = Ok b → 0 <= b < 256.
Proof.
  intros Hall. unfold byteAt. destruct (i <? 0); [done|].
  destruct (blob !! Z.to_nat i) as [b'|] eqn:Hb; [|done]. intros [= <-].
  rewrite Forall_forall in Hall. apply Hall. by eapply list_elem_of_lookup_2.
Qed.

(** X9.  Whatever bytes a heap holds, the size that [getBlobSize] reads
    from a prefix is not negative and below [2^29], and it is 0 when the
    first byte announces no prefix (its three top bits set). *)
Theorem getBlobSize_is_bounded (blob : list u8) (index size b0 : Z) :
  Forall (λ b, 0 <= b < 256) blob →
  byteAt blob index = Ok b0 →
  getBlobSize blob index = Ok size →
  0 <= size < 2 ^ 29 ∧ (getBlobHeaderSize b0 = 0 → size = 0).
Proof.
  intros Hall Hb0 Hsize. unfold getBlobSize in Hsize. rewrite Hb0, Res_bind_Ok in Hsize.
  split; [|intros Hh; rewrite Hh in Hsize; by injection Hsize].
  pose proof (byteAt_byte blob index b0 Hall Hb0) as Hr0.
  pose proof (blob_byte_classes b0 Hr0) as (H7 & H3F & H1F).
  assert (H29 : (2 ^ 29 : Z) = 536870912) by reflexivity. rewrite H29.
  unfold getBlobHeaderSize in Hsize.
  destruct (Z.land b0 0x80 =? 0x00) eqn:E1.
  { apply Z.eqb_eq in E1. injection Hsize as <-. lia. }
  destruct (Z.land b0 0xC0 =? 0x80) eqn:E2.
  { destruct (byteAt blob (index + 1)) as [b1|] eqn:Hb1; [|done].
    rewrite Res_bind_Ok in Hsize. injection Hsize as <-.
    pose proof (byteAt_byte blob _ b1 Hall Hb1).
    rewrite Z.shiftl_mul_pow2 by lia. change (2 ^ 8) with 256. lia. }
  destruct (Z.land b0 0xE0 =? 0xC0) eqn:E3; [|injection Hsize as <-; lia].
  destruct (byteAt blob (index + 1)) as [b1|] eqn:Hb1; [|done].
  destruct (byteAt blob (index + 2)) as [b2|] eqn:Hb2; [|done].
  destruct (byteAt blob (index + 3)) as [b3|] eqn:Hb3; [|done].
  rewrite !Res_bind_Ok in Hsize. injection Hsize as <-.
  pose proof (byteAt_byte blob _ b1 Hall Hb1).
  pose proof (byteAt_byte blob _ b2 Hall Hb2).
  pose proof (byteAt_byte blob _ b3 Hall Hb3).
  rewrite !Z.shiftl_mul_pow2 by lia.
  change (2 ^ 24) with 16777216. change (2 ^ 16) with 65536.
  change (2 ^ 8) with 256. change (2 ^ 0) with 1. lia.
Qed.

Lemma getBlobSize_is_bounded_witness :
  0 <= 0 < 2 ^ 29 ∧ (getBlobHeaderSize 0xFF = 0 → 0 = 0).
Proof.
  refine (getBlobSize_is_bounded [0x01; 0xFF; 0x07] 1 0 0xFF _ _ _).
  - repeat constructor; vm_compute; discriminate.
  - reflexivity.
  - reflexivity.
Defined.

(** X10.  A blob laid out as the specification says, the prefix of its
    length followed by its bytes, is found whole by [getBlob] wherever it
    stands in the heap: the span starts after the prefix and covers the
    payload. *)
Theorem getBlob_finds_the_payload (payload pre rest : list u8) :
  Z.of_nat (length payload) < 2 ^ 29 →
  ∃ span,
    getBlob (pre ++ encodeBlobLength (Z.of_nat (length payload)) ++ payload ++ rest)
            (Z.of_nat (length pre)) = Ok span
    ∧ span.2 = Z.of_nat (length payload)
    ∧ spanBytes (pre ++ encodeBlobLength (Z.of_nat (length payload)) ++ payload ++ rest)
                span = Some payload.
Proof.
  intros HL. set (L := Z.of_nat (length payload)) in *.
  destruct (blob_prefix_read_back L pre (payload ++ rest)) as [Hsize Hheader]; [lia|].
  unfold getBlob. rewrite Hsize.
  destruct (byteAt _ _) as [b0|] eqn:Hb0; [|done].
  rewrite !Res_bind_Ok in *. injection Hheader as Hheader. rewrite Hheader.
  eexists. split; [reflexivity|]. split; [reflexivity|].
  unfold spanBytes, readBytes. cbn [fst snd].
  assert (Hc : (0 <=? Z.of_nat (length pre) + Z.of_nat (length (encodeBlobLength L)))
               && (Z.of_nat (length pre) + Z.of_nat (length (encodeBlobLength L)) + L
                   <=? Z.of_nat (length (pre ++ encodeBlobLength L ++ payload ++ rest)))
               = true).
  { apply andb_true_iff. split; apply Z.leb_le; [lia|].
    rewrite !length_app. lia. }
  rewrite Hc. f_equal.
  replace (Z.to_nat (Z.of_nat (length pre) + Z.of_nat (length (encodeBlobLength L))))
    with (length pre + length (encodeBlobLength L))%nat by lia.
  rewrite <- drop_drop, drop_app_length, drop_app_length.
  unfold L. rewrite Nat2Z.id. by rewrite take_app_length.
Qed.

Lemma getBlob_finds_the_payload_witness :
  ∃ span,
    getBlob ([0x00] ++ encodeBlobLength 3 ++ [0x41; 0x42; 0x43] ++ [0xAA]) 1 = Ok span
    ∧ span.2 = 3
    ∧ spanBytes ([0x00] ++ encodeBlobLength 3 ++ [0x41; 0x42; 0x43] ++ [0xAA]) span
      = Some [0x41; 0x42; 0x43].
Proof.
  refine (getBlob_finds_the_payload [0x41; 0x42; 0x43] [0x00] [0xAA] _).
  reflexivity.
Defined.

(** ** Pushes and pops in sequence *)

Lemma push_writes (T : PayloadType) (v : list u8) (s : Stack) :
  Z.of_nat (length v) = sizeof T →
  0 <= m_stackPointer s →
  m_stackPointer s + sizeof T <= Z.of_nat (length (m_stack s)) →
  push T v s
  = (Ok tt,
     mkStack (take (Z.to_nat (m_stackPointer s)) (m_stack s) ++ v
              ++ drop (Z.to_nat (m_stackPointer s) + length v) (m_stack s))
             (m_typeStack s ++ [getValueType T])
             (m_stackPointer s + sizeof T)).
Proof.
  intros Hv Hsp Hroom. unfold push, writeBytes.
  rewrite getTypeSize_getValueType, take_ge by lia.
  assert (Hc : (0 <=? m_stackPointer s)
               && (m_stackPointer s + Z.of_nat (length v) <=? Z.of_nat (length (m_stack s)))
               = true).
  { apply andb_true_iff; split; apply Z.leb_le; lia. }
  by rewrite Hc.
Qed.

Lemma pop_reads (T : PayloadType) (s : Stack) (rest : list ValueType) (bs : list u8) :
  m_typeStack s = rest ++ [getValueType T] →
  sizeof T <= m_stackPointer s →
  readBytes (m_stack s) (m_stackPointer s - sizeof T) (sizeof T) = Some bs →
  pop T s = (Ok bs, mkStack (m_stack s) rest (m_stackPointer s - sizeof T)).
Proof.
  intros Htags Hsp Hread. unfold pop, getTypeOnStack. rewrite Htags, length_app. simpl.
  destruct (_ <=? 0) eqn:E; [apply Z.leb_le in E; lia|].
  replace (Z.to_nat _) with (length rest) by lia.
  rewrite list_lookup_middle by done.
  rewrite getTypeSize_getValueType.
  destruct (sizeof T >? sizeof T) eqn:E1; [apply Z.gtb_lt in E1; lia|].
  rewrite bool_decide_eq_true_2 by done. simpl.
  destruct (_ <? 0) eqn:E2; [apply Z.ltb_lt in E2; lia|].
  rewrite Hread, Z.sub_diag. simpl. by rewrite app_nil_r, removelast_last.
Qed.

(** What [readBytes] returns is decided by the bytes below the end of
    the range. *)
Lemma readBytes_below (buf buf' : list u8) (off n : Z) :
  0 <= off → 0 <= n →
  length buf' = length buf →
  take (Z.to_nat (off + n)) buf' = take (Z.to_nat (off + n)) buf →
  readBytes buf' off n = readBytes buf off n.
Proof.
  intros Hoff Hn Hlen Htake. unfold readBytes. rewrite Hlen.
  destruct (_ && _); [|done]. f_equal.
  rewrite !take_drop_commute.
  replace (Z.to_nat off + Z.to_nat n)%nat with (Z.to_nat (off + n)) by lia.
  by rewrite Htake.
Qed.

Lemma popAll_app (types types' : list PayloadType) (s : Stack) :
  popAll (types ++ types') s
  = (vs ← popAll types; vs' ← popAll types'; mret (vs ++ vs')) s.
Proof.
  revert s. induction types as [|T types IH]; intros s; simpl.
  - rewrite bind_ret. unfold mbind, M_bind. by destruct (popAll types' s) as [[vs|f] s1].
  - rewrite !bind_eq. destruct (pop T s) as [[v|f] s1]; [|done].
    rewrite !bind_eq, IH, !bind_eq.
    destruct (popAll types s1) as [[vs|f] s2]; [|done].
    rewrite !bind_eq. unfold mret, M_ret.
    rewrite (bind_eq (popAll types')).
    by destruct (popAll types' s2) as [[vs'|f] s3].
Qed.

Lemma payloadBytes_nonneg values : 0 <= payloadBytes values.
Proof.
  induction values as [|[T v] values IH]; [done|].
  change (payloadBytes ((T, v) :: values)) with (sizeof T + payloadBytes values).
  pose proof (sizeof_pos T). lia.
Qed.

Lemma pushAll_popAll (values : list (PayloadType * list u8)) :
  ∀ s : Stack,
    Forall (λ e, Z.of_nat (length e.2) = sizeof e.1) values →
    0 <= m_stackPointer s →
    m_stackPointer s + payloadBytes values <= Z.of_nat (length (m_stack s)) →
    ∃ s1 s2,
      pushAll values s = (Ok tt, s1)
      ∧ m_stackPointer s1 = m_stackPointer s + payloadBytes values
      ∧ popAll (rev values.*1) s1 = (Ok (rev values.*2), s2)
      ∧ m_stackPointer s2 = m_stackPointer s
      ∧ m_typeStack s2 = m_typeStack s
      ∧ length (m_stack s2) = length (m_stack s)
      ∧ take (Z.to_nat (m_stackPointer s)) (m_stack s2)
        = take (Z.to_nat (m_stackPointer s)) (m_stack s).
Proof.
  induction values as [|[T v] values IH]; intros s Hall Hsp Hroom.
  - exists s, s. simpl. repeat split; lia.
  - apply Forall_cons in Hall as [Hv Hall]. simpl in Hv.
    change (payloadBytes ((T, v) :: values)) with (sizeof T + payloadBytes values) in *.
    pose proof (payloadBytes_nonneg values) as Hnn. pose proof (sizeof_pos T) as HT.
    pose proof (push_writes T v s Hv Hsp ltac:(lia)) as Hpush.
    set (sa := mkStack (take (Z.to_nat (m_stackPointer s)) (m_stack s) ++ v
                        ++ drop (Z.to_nat (m_stackPointer s) + length v) (m_stack s))
                       (m_typeStack s ++ [getValueType T])
                       (m_stackPointer s + sizeof T)) in *.
    assert (Hlena : length (m_stack sa) = length (m_stack s)).
    { simpl. rewrite !length_app, length_take, length_drop. lia. }
    destruct (IH sa Hall) as (s1 & s2 & Hp & Hsp1 & Hq & Hsp2 & Htags2 & Hlen2 & Hbelow);
      [simpl; lia | rewrite Hlena; simpl; lia |].
    assert (Hread : readBytes (m_stack s2) (m_stackPointer s2 - sizeof T) (sizeof T) = Some v).
    { rewrite Hsp2. simpl.
      replace (m_stackPointer s + sizeof T - sizeof T) with (m_stackPointer s) by lia.
      rewrite (readBytes_below (m_stack sa) (m_stack s2)); [|lia|lia|done|exact Hbelow].
      destruct (readBytes_written (m_stack s) v (m_stackPointer s)) as (buf' & Hw & _ & Hr);
        [lia | lia |].
      unfold writeBytes in Hw. destruct (_ && _); [|done]. injection Hw as <-.
      by rewrite <- Hv. }
    exists s1, (mkStack (m_stack s2) (m_typeStack s) (m_stackPointer s2 - sizeof T)).
    split; [|split; [|split; [|split; [|split; [|split]]]]].
    + simpl. rewrite bind_eq, Hpush. exact Hp.
    + rewrite Hsp1. simpl. lia.
    + change (rev ((T, v) :: values).*1) with (rev values.*1 ++ [T]).
      change (rev ((T, v) :: values).*2) with (rev values.*2 ++ [v]).
      rewrite popAll_app, bind_eq, Hq, bind_eq. cbn [popAll].
      rewrite bind_eq, (pop_reads T s2 (m_typeStack s) v); [done | by rewrite Htags2 | | done].
      rewrite Hsp2. simpl. lia.
    + simpl. rewrite Hsp2. simpl. lia.
    + done.
    + simpl. by rewrite Hlen2.
    + simpl.
      assert (Hmin : take (Z.to_nat (m_stackPointer s)) (take (Z.to_nat (m_stackPointer sa)) (m_stack s2))
                     = take (Z.to_nat (m_stackPointer s)) (take (Z.to_nat (m_stackPointer sa)) (m_stack sa)))
        by (by rewrite Hbelow).
      rewrite !take_take in Hmin.
      replace (Z.to_nat (m_stackPointer s) `min` Z.to_nat (m_stackPointer sa))%nat
        with (Z.to_nat (m_stackPointer s)) in Hmin by (simpl; lia).
      rewrite Hmin. simpl.
      rewrite take_app_le by (rewrite length_take; lia).
      rewrite take_take. f_equal. lia.
Qed.

(** X11.  The stack is last in, first out: after a run of pushes that
    fits in the buffer, the pops of the same types in the opposite order
    return the values pushed, the last one first, and leave the write
    pointer, the tags and the bytes below the pointer as they were before
    the pushes. *)
Theorem pushes_are_popped_in_reverse (values : list (PayloadType * list u8)) (s : Stack) :
  Forall (λ e, Z.of_nat (length e.2) = sizeof e.1) values →
  0 <= m_stackPointer s →
  m_stackPointer s + payloadBytes values <= Z.of_nat (length (m_stack s)) →
  ∃ s',
    (pushAll values;; popAll (rev values.*1)) s = (Ok (rev values.*2), s')
    ∧ m_stackPointer s' = m_stackPointer s
    ∧ m_typeStack s' = m_typeStack s
    ∧ take (Z.to_nat (m_stackPointer s)) (m_stack s')
      = take (Z.to_nat (m_stackPointer s)) (m_stack s).
Proof.
  intros Hall Hsp Hroom.
  destruct (pushAll_popAll values s Hall Hsp Hroom)
    as (s1 & s2 & Hp & _ & Hq & Hsp2 & Htags & _ & Hbelow).
  exists s2. rewrite bind_eq, Hp. by repeat split.
Qed.

Lemma pushes_are_popped_in_reverse_witness :
  ∃ s',
    (pushAll [(i32, [1; 0; 0; 0]); (i64, [2; 0; 0; 0; 0; 0; 0; 0])];;
     popAll [i64; i32]) (newStack 16)
    = (Ok [[2; 0; 0; 0; 0; 0; 0; 0]; [1; 0; 0; 0]], s')
    ∧ m_stackPointer s' = 0
    ∧ m_typeStack s' = []
    ∧ take 0 (m_stack s') = take 0 (m_stack (newStack 16)).
Proof.
  refine (pushes_are_popped_in_reverse
            [(i32, [1; 0; 0; 0]); (i64, [2; 0; 0; 0; 0; 0; 0; 0])] (newStack 16) _ _ _).
  - repeat constructor.
  - vm_compute. discriminate.
  - vm_compute. discriminate.
Defined.

Lemma set_evalStack_same rt : set_evalStack (m_evalStack rt) rt = rt.
Proof. by destruct rt. Qed.

(** ** Constants and locals *)

Lemma le_encode_length (n : nat) : ∀ v, length (le_encode n v) = n.
Proof. induction n as [|n IH]; intros v; simpl; [done | by rewrite IH]. Qed.

Lemma le_decode_le_encode (n : nat) : ∀ v, le_decode (le_encode n v) = v mod 256 ^ Z.of_nat n.
Proof.
  induction n as [|n IH]; intros v.
  - simpl. by rewrite Z.mod_1_r.
  - cbn [le_encode le_decode]. rewrite IH.
    rewrite Nat2Z.inj_succ, Z.pow_succ_r by lia.
    rewrite Z.rem_mul_r; [done | lia | lia].
Qed.

Lemma to_signed_mod (bits v : Z) :
  0 < bits →
  - 2 ^ (bits - 1) <= v < 2 ^ (bits - 1) →
  to_signed bits (v mod 2 ^ bits) = v.
Proof.
  intros Hbits Hv. unfold to_signed.
  assert (Hpow : 2 ^ bits = 2 * 2 ^ (bits - 1)).
  { rewrite <- Z.pow_succ_r by lia. f_equal. lia. }
  rewrite Z.mod_mod by lia.
  destruct (decide (0 <= v)) as [Hpos|Hneg].
  - rewrite Z.mod_small by lia.
    destruct (v <? 2 ^ (bits - 1)) eqn:E; [done|]. apply Z.ltb_ge in E. lia.
  - rewrite <- (Z_mod_plus_full v 1 (2 ^ bits)), Z.mod_small by lia.
    destruct (_ <? _) eqn:E; [apply Z.ltb_lt in E; lia | lia].
Qed.

Lemma to_signed_range (bits x : Z) :
  0 < bits → - 2 ^ (bits - 1) <= to_signed bits x < 2 ^ (bits - 1).
Proof.
  intros Hbits. unfold to_signed.
  assert (Hpow : 2 ^ bits = 2 * 2 ^ (bits - 1)).
  { rewrite <- Z.pow_succ_r by lia. f_equal. lia. }
  pose proof (Z.mod_pos_bound x (2 ^ bits) ltac:(lia)) as Hmod.
  destruct (_ <? _) eqn:E; [apply Z.ltb_lt in E | apply Z.ltb_ge in E]; lia.
Qed.

Lemma ldcOperand_range (instruction : Instruction) (T : PayloadType) (v : Z) :
  ldcOperand instruction = Some (T, v) →
  (T = i32 ∨ T = i64) ∧ - 2 ^ (8 * sizeof T - 1) <= v < 2 ^ (8 * sizeof T - 1).
Proof.
  unfold ldcOperand.
  destruct (getOpcode instruction); intros [= <- <-];
    (split; [by (left + right)|]);
    first
      [ apply (to_signed_range 32); lia
      | apply (to_signed_range 64); lia
      | pose proof (to_signed_range 8 (le_decode (take 1 (operands instruction)))) as Hr;
        change (2 ^ (8 - 1)) with 128 in Hr;
        change (2 ^ (8 * sizeof i32 - 1)) with 2147483648;
        unfold get_i8; lia
      | split; [by apply Z.leb_le | by apply Z.ltb_lt] ].
Qed.

Lemma dispatch_ldc {ext : Externals} exec instruction T v :
  ldcOperand instruction = Some (T, v) → dispatch exec instruction = inFrame (ldc T v).
Proof.
  unfold ldcOperand, dispatch. destruct (getOpcode instruction); by intros [= <- <-].
Qed.



Lemma readBytes_in_range (buf : list u8) (off n : Z) :
  0 <= off → 0 <= n → off + n <= Z.of_nat (length buf) →
  readBytes buf off n = Some (take (Z.to_nat n) (drop (Z.to_nat off) buf))
  ∧ Z.of_nat (length (take (Z.to_nat n) (drop (Z.to_nat off) buf))) = n.
Proof.
  intros Hoff Hn Hfit. unfold readBytes.
  assert (Hc : (0 <=? off) && (off + n <=? Z.of_nat (length buf)) = true).
  { apply andb_true_iff; split; apply Z.leb_le; lia. }
  rewrite Hc. split; [done|]. rewrite length_take, length_drop. lia.
Qed.

(** The variable that [createVariableFromStackContent] makes of the value
    on top of a balanced stack. *)
Lemma createVariable_takes_the_top (rt : Runtime) (rest : list ValueType) (t : ValueType)
    (T : PayloadType) :
  m_typeStack (m_evalStack rt) = rest ++ [t] →
  payloadOf t = Some T →
  balanced (m_evalStack rt) →
  let s := m_evalStack rt in
  let bs := take (Z.to_nat (sizeof T)) (drop (Z.to_nat (m_stackPointer s - sizeof T)) (m_stack s)) in
  createVariableFromStackContent rt
  = (Ok (mkVariable (freeStore rt) t bs),
     set_freeStore (freeStore rt + Z.max (8 + sizeof T) 1)
       (set_evalStack (mkStack (m_stack s) rest (m_stackPointer s - sizeof T)) rt))
  ∧ pop T s = (Ok bs, mkStack (m_stack s) rest (m_stackPointer s - sizeof T))
  ∧ Z.of_nat (length bs) = sizeof T
  ∧ 0 <= m_stackPointer s - sizeof T
  ∧ m_stackPointer s <= Z.of_nat (length (m_stack s)).
Proof.
  intros Htags HT [Hsp Hin] s bs.
  pose proof (payloadOf_getValueType t T HT) as Ht. subst t.
  pose proof (sizeof_pos T) as Hpos. pose proof (usedBytes_nonneg rest) as Hrest.
  rewrite Htags, usedBytes_app, getTypeSize_getValueType in Hsp.
  destruct (readBytes_in_range (m_stack s) (m_stackPointer s - sizeof T) (sizeof T))
    as [Hread Hlen]; [unfold s; lia | lia | unfold s; lia |].
  assert (Hpop : pop T s = (Ok bs, mkStack (m_stack s) rest (m_stackPointer s - sizeof T))).
  { apply pop_reads; [done | unfold s; lia | done]. }
  split; [|split; [done|split; [done|unfold s; lia]]].
  assert (Htop : getTypeOnStack (m_evalStack rt) 0 = Ok (getValueType T)).
  { unfold getTypeOnStack. rewrite Htags, length_app. simpl.
    destruct (_ <=? 0) eqn:E; [apply Z.leb_le in E; lia|].
    replace (Z.to_nat _) with (length rest) by lia.
    by rewrite list_lookup_middle. }
  assert (Hfirst : onStack (getsRes (λ s, getTypeOnStack s 0)) rt = (Ok (getValueType T), rt)).
  { unfold onStack, getsRes. by rewrite Htop, set_evalStack_same. }
  unfold createVariableFromStackContent.
  rewrite bind_eq, Hfirst, HT, bind_eq.
  unfold onStack. fold s. rewrite Hpop.
  by rewrite bind_eq.
Qed.

(** Pushing back what [createVariableFromStackContent] took gives the
    stack as it was. *)
Lemma push_restores_the_top (s : Stack) (rest : list ValueType) (t : ValueType)
    (T : PayloadType) :
  m_typeStack s = rest ++ [t] →
  payloadOf t = Some T →
  balanced s →
  push T (take (Z.to_nat (sizeof T)) (drop (Z.to_nat (m_stackPointer s - sizeof T)) (m_stack s)))
       (mkStack (m_stack s) rest (m_stackPointer s - sizeof T))
  = (Ok tt, s).
Proof.
  intros Htags HT [Hsp Hin].
  pose proof (payloadOf_getValueType t T HT) as Ht.
  pose proof (sizeof_pos T) as Hpos. pose proof (usedBytes_nonneg rest) as Hrest.
  rewrite Htags, usedBytes_app, <- Ht, getTypeSize_getValueType in Hsp.
  destruct (readBytes_in_range (m_stack s) (m_stackPointer s - sizeof T) (sizeof T))
    as [_ Hlen]; [lia | lia | lia |].
  rewrite push_writes; [|done|simpl; lia|simpl; lia]. f_equal.
  destruct s as [buf tags sp]. simpl in *. f_equal.
  - replace (Z.to_nat (sp - sizeof T) + length (take (Z.to_nat (sizeof T))
               (drop (Z.to_nat (sp - sizeof T)) buf)))%nat with (Z.to_nat sp) by lia.
    rewrite app_assoc, take_take_drop.
    replace (Z.to_nat (sp - sizeof T) + Z.to_nat (sizeof T))%nat with (Z.to_nat sp) by lia.
    apply take_drop.
  - by rewrite Ht.
  - lia.
Qed.

(** X14.  [Stloc n] followed by [Ldloc n] is a round trip: the first moves
    the value on top of a balanced stack into slot [n] under the tag it
    had, the second pushes it back, so that the evaluation stack is the
    one before the two instructions, and leaves the slot empty. *)
Theorem stloc_then_ldloc_restores_the_stack (id : Z) (m : Method) (rt : Runtime)
    (rest : list ValueType) (t : ValueType) (T : PayloadType) :
  m_typeStack (m_evalStack rt) = rest ++ [t] →
  payloadOf t = Some T →
  balanced (m_evalStack rt) →
  is_Some (m_localVariables m !! Z.to_nat id) →
  ∃ v m1 rt1 rt2,
    stloc id (m, rt) = (Ok tt, (m1, rt1))
    ∧ m_localVariables m1 !! Z.to_nat id = Some (Some v)
    ∧ type v = t ∧ (pop T (m_evalStack rt)).1 = Ok (value v)
    ∧ m_typeStack (m_evalStack rt1) = rest
    ∧ ldloc id (m1, rt1) = (Ok tt, (setLocalVariable m id None, rt2))
    ∧ m_evalStack rt2 = m_evalStack rt.
Proof.
  intros Htags HT Hbal [slot Hslot].
  destruct (createVariable_takes_the_top rt rest t T Htags HT Hbal)
    as (Hcreate & Hpop & Hlen & Hlow & Hhigh).
  set (s := m_evalStack rt) in *.
  set (bs := take (Z.to_nat (sizeof T)) (drop (Z.to_nat (m_stackPointer s - sizeof T)) (m_stack s))) in *.
  set (s1 := mkStack (m_stack s) rest (m_stackPointer s - sizeof T)) in *.
  set (rt1 := set_freeStore (freeStore rt + Z.max (8 + sizeof T) 1) (set_evalStack s1 rt)) in *.
  pose proof (lookup_lt_Some _ _ _ Hslot) as Hlt.
  pose proof (sizeof_pos T) as Hpos.
  assert (Hpush : push T bs s1 = (Ok tt, s))
    by exact (push_restores_the_top s rest t T Htags HT Hbal).
  exists (mkVariable (freeStore rt) t bs), (setLocalVariable m id (Some (mkVariable (freeStore rt) t bs))),
         rt1, (set_evalStack s rt1).
  split; [|split; [|split; [|split; [|split; [|split]]]]].
  - unfold stloc. rewrite bind_getsRes. unfold getLocalVariable. cbn [fst].
    rewrite Hslot. cbn beta iota. rewrite bind_inFrame, Hcreate. done.
  - simpl. by apply list_lookup_insert_eq.
  - done.
  - by rewrite Hpop.
  - done.
  - unfold ldloc. rewrite bind_getsRes. unfold getLocalVariable. cbn [fst].
    cbn [m_localVariables setLocalVariable]. rewrite list_lookup_insert_eq by done.
    cbn beta iota. cbn [type value]. rewrite HT, bind_inFrame.
    unfold onStack. change (m_evalStack rt1) with s1. rewrite Hpush.
    unfold modify, setLocalVariable. cbn [m_localVariables m_assembly m_methodToken m_instructionOffset].
    by rewrite list_insert_insert_eq.
  - done.
Qed.

Lemma stloc_then_ldloc_restores_the_stack_witness :
  let rt := set_evalStack wide_on_top newRuntime in
  let m := newMethod S3_assembly (mkToken MethodDef_ID 1) in
  ∃ v m1 rt1 rt2,
    stloc 7 (m, rt) = (Ok tt, (m1, rt1))
    ∧ m_localVariables m1 !! Z.to_nat 7 = Some (Some v)
    ∧ type v = Int64 ∧ (pop i64 (m_evalStack rt)).1 = Ok (value v)
    ∧ m_typeStack (m_evalStack rt1) = []
    ∧ ldloc 7 (m1, rt1) = (Ok tt, (setLocalVariable m 7 None, rt2))
    ∧ m_evalStack rt2 = m_evalStack rt.
Proof.
  intros rt m.
  refine (stloc_then_ldloc_restores_the_stack 7 m rt [] Int64 i64 _ _ _ _).
  - reflexivity.
  - reflexivity.
  - split; vm_compute; [reflexivity | discriminate].
  - eexists. reflexivity.
Defined.

(** ** What every execution leaves in place *)

Section Monotone.
Context {S : Type} (R : relation S) `{!PreOrder R}.

Lemma monotone_bind {A B} (c : M S A) (k : A → M S B) :
  monotone R c → (∀ a, monotone R (k a)) → monotone R (c ≫= k).
Proof.
  intros Hc Hk s. rewrite bind_eq. specialize (Hc s).
  destruct (c s) as [[a|f] s1]; simpl in *; [|done].
  etrans; [exact Hc | apply Hk].
Qed.

Lemma monotone_ret {A} (a : A) : monotone R (mret a : M S A).
Proof. intros s. simpl. reflexivity. Qed.

Lemma monotone_fail {A} f : monotone R (fail f : M S A).
Proof. intros s. simpl. reflexivity. Qed.

Lemma monotone_liftRes {A} (x : Res A) : monotone R (liftRes x : M S A).
Proof. intros s. simpl. reflexivity. Qed.

Lemma monotone_gets {A} (f : S → A) : monotone R (gets f).
Proof. intros s. simpl. reflexivity. Qed.

Lemma monotone_getsRes {A} (f : S → Res A) : monotone R (getsRes f).
Proof. intros s. simpl. reflexivity. Qed.

Lemma monotone_modify (f : S → S) : (∀ s, R s (f s)) → monotone R (modify f).
Proof. intros Hf s. apply Hf. Qed.
End Monotone.

Create HintDb monotone.
#[local] Hint Resolve monotone_ret monotone_fail monotone_liftRes monotone_gets
  monotone_getsRes : monotone.

Ltac monotone_step :=
  first
    [ solve [eauto 4 with monotone nocore]
    | apply monotone_bind
    | progress intros
    | case_match ].

Ltac monotone_auto := repeat monotone_step.

Ltac monotone_bind_step :=
  apply monotone_bind; [solve [eauto 4 with monotone nocore] | | ].

#[local] Instance framed_preorder (Rm : relation Method) (Rr : relation Runtime)
  `{!PreOrder Rm} `{!PreOrder Rr} : PreOrder (framed Rm Rr).
Proof.
  split.
  - intros [m rt]. split; reflexivity.
  - intros [m1 rt1] [m2 rt2] [m3 rt3] [H1 H2] [H3 H4]. split; etrans; eassumption.
Qed.

#[local] Hint Resolve framed_preorder : monotone.

(** A relation on runtimes that every primitive change of the engine
    respects is respected by the handlers, the dispatch and the loop. *)
Section RuntimeSteps.
Variable Rr : relation Runtime.
Context `{!PreOrder Rr}.
Hypothesis Rr_stack : ∀ rt s, Rr rt (set_evalStack s rt).
Hypothesis Rr_output : ∀ rt e, Rr rt (set_output (output rt ++ [e]) rt).
Hypothesis Rr_freeStore : ∀ rt x, Rr rt (set_freeStore x rt).
Hypothesis Rr_heap : ∀ rt key object,
  m_heap rt !! m_heapKey rt = None →
  Rr rt (set_heap key (<[m_heapKey rt := object]> (m_heap rt)) rt).
Hypothesis Rr_assemblies : ∀ rt name a,
  m_assemblies rt !! name = None →
  Rr rt (set_assemblies (<[name := a]> (m_assemblies rt)) rt).
Hypothesis Rr_static : ∀ rt x, Rr rt (set_staticVariables x rt).
Hypothesis Rr_initialized : ∀ rt x, Rr rt (set_initializedTypes x rt).

Lemma monotone_onStack {A} (c : M Stack A) : monotone Rr (onStack c).
Proof. intros rt. unfold onStack. destruct (c _) as [r s1]. apply Rr_stack. Qed.

Lemma monotone_allocate n : monotone Rr (allocate n).
Proof. intros rt. apply Rr_freeStore. Qed.

Lemma monotone_println e : monotone Rr (println e).
Proof. intros rt. apply Rr_output. Qed.

#[local] Hint Resolve monotone_onStack monotone_allocate monotone_println : monotone.

Lemma monotone_createVariableFromStackContent : monotone Rr createVariableFromStackContent.
Proof. unfold createVariableFromStackContent. monotone_auto. Qed.

Lemma monotone_storeVariableOnStack v : monotone Rr (storeVariableOnStack v).
Proof. unfold storeVariableOnStack. monotone_auto. Qed.

Lemma monotone_Runtime_pop : monotone Rr Runtime_pop.
Proof. unfold Runtime_pop. monotone_auto. Qed.

Lemma monotone_createHeapObject size : monotone Rr (createHeapObject size).
Proof.
  intros rt. unfold createHeapObject. rewrite !bind_gets.
  destruct (m_heap rt !! m_heapKey rt) eqn:Hkey; [reflexivity|].
  unfold vectorStorage.
  destruct (size <=? 0); unfold mbind, M_bind, allocate, modify, mret, M_ret; cbn [snd].
  - etrans; [|apply Rr_freeStore]. by apply Rr_heap.
  - etrans; [apply (Rr_freeStore rt)|].
    etrans; [|apply Rr_freeStore].
    by apply (Rr_heap (set_freeStore _ rt)).
Qed.

Lemma monotone_findAssembly name : monotone Rr (findAssembly name).
Proof.
  intros rt. unfold findAssembly.
  destruct (m_assemblies rt !! name) eqn:Hname; [reflexivity|].
  destruct (tryLoaders _ _); [by apply Rr_assemblies | reflexivity].
Qed.

Lemma monotone_emplaceAssembly name a : monotone Rr (emplaceAssembly name a).
Proof.
  intros rt. unfold emplaceAssembly.
  destruct (m_assemblies rt !! name) eqn:Hname; [reflexivity | by apply Rr_assemblies].
Qed.

Lemma monotone_staticVariable field : monotone Rr (staticVariable field).
Proof.
  intros rt. unfold staticVariable.
  destruct (m_staticVariables rt !! field); [reflexivity | apply Rr_static].
Qed.

#[local] Hint Resolve monotone_createVariableFromStackContent monotone_storeVariableOnStack
  monotone_Runtime_pop monotone_createHeapObject monotone_findAssembly
  monotone_staticVariable : monotone.

Section FrameSteps.
Variable Rm : relation Method.
Context `{!PreOrder Rm}.

Lemma monotone_inFrame {A} (c : M Runtime A) :
  monotone Rr c → monotone (framed Rm Rr) (inFrame c).
Proof.
  intros Hc [m rt]. unfold inFrame. specialize (Hc rt).
  destruct (c rt) as [r rt1]. split; [reflexivity | exact Hc].
Qed.

Lemma monotone_runtime_modify (f : Runtime → Runtime) :
  (∀ rt, Rr rt (f rt)) →
  monotone (framed Rm Rr) (modify (λ '(method, rt), (method, f rt))).
Proof. intros Hf [m rt]. split; [reflexivity | apply Hf]. Qed.

#[local] Hint Resolve monotone_inFrame : monotone.

(** The handlers that enter a method: what the callee does to its own
    frame is gone with the frame. *)
Section Entering.
Variable exec : M (Method * Runtime) unit.
Hypothesis exec_runtime : ∀ m rt, Rr rt (exec (m, rt)).2.2.
Context {ext : Externals}.

Lemma monotone_enterFrame methodToCall :
  monotone (framed Rm Rr) (enterFrame exec methodToCall).
Proof.
  intros [m rt]. unfold enterFrame. specialize (exec_runtime methodToCall rt).
  destruct (exec _) as [r [m1 rt1]]. split; [reflexivity | exact exec_runtime].
Qed.

#[local] Hint Resolve monotone_enterFrame : monotone.

Lemma monotone_call token : monotone (framed Rm Rr) (call exec token).
Proof. unfold call. monotone_auto. Qed.

Lemma monotone_newobj token : monotone (framed Rm Rr) (newobj exec token).
Proof. unfold newobj. monotone_auto. Qed.

Lemma monotone_loadStaticField token : monotone (framed Rm Rr) (loadStaticField exec token).
Proof.
  unfold loadStaticField. monotone_auto.
  apply (monotone_runtime_modify (λ rt, set_initializedTypes _ rt)).
  intros rt. apply Rr_initialized.
Qed.

#[local] Hint Resolve monotone_loadStaticField : monotone.

Lemma monotone_ldsflda token : monotone (framed Rm Rr) (ldsflda exec token).
Proof. unfold ldsflda. monotone_auto. Qed.

Lemma monotone_ldsfld token : monotone (framed Rm Rr) (ldsfld exec token).
Proof. unfold ldsfld. monotone_auto. Qed.

Lemma monotone_stsfld token : monotone (framed Rm Rr) (stsfld exec token).
Proof.
  unfold stsfld. monotone_auto.
  apply monotone_inFrame, monotone_modify. intros rt. apply Rr_static.
Qed.
End Entering.

(** The instructions that change the frame they run in. *)
Section Dispatch.
Hypothesis Rm_pc : ∀ m off, Rm m (setInstructionOffset m off).
Hypothesis Rm_local : ∀ m id v, Rm m (setLocalVariable m id v).
Context {ext : Externals}.

Lemma monotone_frame_modify (f : Method → Method) :
  (∀ m, Rm m (f m)) →
  monotone (framed Rm Rr) (modify (λ '(method, rt), (f method, rt))).
Proof. intros Hf [m rt]. split; [apply Hf | reflexivity]. Qed.

Lemma monotone_stloc id : monotone (framed Rm Rr) (stloc id).
Proof.
  unfold stloc. monotone_auto.
  match goal with
  | |- context [setLocalVariable _ _ ?v] =>
    apply (monotone_frame_modify (λ m, setLocalVariable m id v))
  end.
  intros m. apply Rm_local.
Qed.

Lemma monotone_ldloc id : monotone (framed Rm Rr) (ldloc id).
Proof.
  unfold ldloc. monotone_auto.
  apply (monotone_frame_modify (λ m, setLocalVariable m id None)).
  intros m. apply Rm_local.
Qed.

Lemma monotone_ldloca id : monotone (framed Rm Rr) (ldloca id).
Proof. unfold ldloca. monotone_auto. Qed.

Lemma monotone_br offset : monotone (framed Rm Rr) (br offset).
Proof.
  apply (monotone_frame_modify (λ m, offsetProgramCounter m offset)).
  intros m. apply Rm_pc.
Qed.

Lemma monotone_dispatch exec instruction :
  (∀ m rt, Rr rt (exec (m, rt)).2.2) →
  monotone (framed Rm Rr) (dispatch exec instruction).
Proof.
  intros Hexec.
  pose proof (monotone_call exec Hexec) as Hcall.
  pose proof (monotone_newobj exec Hexec) as Hnewobj.
  pose proof (monotone_ldsflda exec Hexec) as Hldsflda.
  pose proof (monotone_ldsfld exec Hexec) as Hldsfld.
  pose proof (monotone_stsfld exec Hexec) as Hstsfld.
  pose proof monotone_stloc as Hstloc. pose proof monotone_ldloc as Hldloc.
  pose proof monotone_ldloca as Hldloca. pose proof monotone_br as Hbr.
  unfold dispatch, nop, brk, ldstr, ldarg, ldc.
  destruct (getOpcode instruction); monotone_auto.
Qed.

Lemma monotone_withByteCode loop :
  (∀ bytes, monotone (framed Rm Rr) (loop bytes)) →
  monotone (framed Rm Rr) (withByteCode loop).
Proof. intros Hloop. unfold withByteCode. monotone_auto. Qed.

Lemma monotone_instructionLoop fuel :
  ∀ bytes, monotone (framed Rm Rr) (instructionLoop fuel bytes).
Proof.
  induction fuel as [|fuel IH]; intros bytes; simpl.
  - monotone_auto.
  - monotone_bind_step; [monotone_auto|]. intros method.
    case_match; [|monotone_auto].
    monotone_bind_step.
    { apply monotone_modify. intros [m rt]. split; [apply Rm_pc | reflexivity]. }
    intros _. monotone_bind_step; [monotone_auto|]. intros _.
    case_match; [monotone_auto|].
    monotone_bind_step; [|intros; apply IH].
    apply monotone_dispatch. intros m rt.
    apply (monotone_withByteCode _ IH (m, rt)).
Qed.

Lemma monotone_executeInstructions fuel :
  monotone (framed Rm Rr) (executeInstructions fuel).
Proof. apply monotone_withByteCode, monotone_instructionLoop. Qed.
End Dispatch.
End FrameSteps.
End RuntimeSteps.

#[local] Instance grows_preorder : PreOrder grows.
Proof.
  split.
  - intros rt. by repeat split.
  - intros rt1 rt2 rt3 (H1 & H2 & H3 & H4) (G1 & G2 & G3 & G4).
    split; [by etrans | split; [congruence | split; by etrans]].
Qed.

#[local] Instance sameFrame_preorder : PreOrder sameFrame.
Proof.
  split.
  - intros m. by repeat split.
  - intros m1 m2 m3 (H1 & H2 & H3) (G1 & G2 & G3). repeat split; congruence.
Qed.

#[local] Instance unrelated_preorder : PreOrder (λ _ _ : Runtime, True).
Proof. by split. Qed.

#[local] Hint Resolve grows_preorder sameFrame_preorder : monotone.

Lemma grows_same rt rt' :
  m_assemblies rt' = m_assemblies rt →
  m_assemblyLoaders rt' = m_assemblyLoaders rt →
  output rt' = output rt →
  m_heap rt' = m_heap rt →
  grows rt rt'.
Proof. intros H1 H2 H3 H4. unfold grows. by rewrite H1, H2, H3, H4. Qed.

Lemma grows_output rt e : grows rt (set_output (output rt ++ [e]) rt).
Proof. repeat split; [done..| by apply prefix_app_r | done]. Qed.

Lemma grows_heap rt key object :
  m_heap rt !! m_heapKey rt = None →
  grows rt (set_heap key (<[m_heapKey rt := object]> (m_heap rt)) rt).
Proof. intros Hfresh. repeat split; [done..|]. by apply insert_subseteq. Qed.

Lemma grows_assemblies rt name a :
  m_assemblies rt !! name = None →
  grows rt (set_assemblies (<[name := a]> (m_assemblies rt)) rt).
Proof. intros Hfresh. repeat split; [|done..]. by apply insert_subseteq. Qed.

Lemma executeInstructions_grows {ext : Externals} fuel :
  monotone (framed sameFrame grows) (executeInstructions fuel).
Proof.
  apply monotone_executeInstructions; try apply _.
  - intros rt s. by apply grows_same.
  - apply grows_output.
  - intros rt x. by apply grows_same.
  - apply grows_heap.
  - apply grows_assemblies.
  - intros rt x. by apply grows_same.
  - intros rt x. by apply grows_same.
  - intros m off. by repeat split.
  - intros m id v. repeat split. simpl. by rewrite length_insert.
Qed.

Lemma run_grows {ext : Externals} fuel assembly : monotone grows (run fuel assembly).
Proof.
  unfold run. monotone_auto.
  - apply monotone_emplaceAssembly; [apply _ | apply grows_assemblies].
  - apply monotone_modify. intros rt. by apply grows_same.
  - apply monotone_modify. intros rt. by apply grows_same.
  - intros rt. unfold executeEntry.
    pose proof (executeInstructions_grows fuel
                  (newMethod a1 (getEntrypointMethodToken a1), rt)) as [_ Hgrows].
    destruct (executeInstructions fuel _) as [r [m' rt']].
    etrans; [exact Hgrows|]. by apply grows_same.
Qed.

Lemma registered_assemblies_stay_helper {ext : Externals} (fuel : nat) :
  (∀ m rt name a,
     m_assemblies rt !! name = Some a →
     m_assemblies (executeInstructions fuel (m, rt)).2.2 !! name = Some a)
  ∧ (∀ assembly rt name a,
       m_assemblies rt !! name = Some a →
       m_assemblies (run fuel assembly rt).2 !! name = Some a).
Proof.
  split.
  - intros m rt name a Hname.
    destruct (executeInstructions_grows fuel (m, rt)) as [_ (Hsub & _)].
    by eapply lookup_weaken.
  - intros assembly rt name a Hname.
    destruct (run_grows fuel assembly rt) as (Hsub & _).
    by eapply lookup_weaken.
Qed.

(** X16.  An execution never takes an assembly out of the registry and
    never replaces one: what is registered under a name before
    [executeInstructions] or [run] is registered under it afterwards,
    however the run ends; the list of loaders is not touched. *)
Theorem registered_assemblies_stay {ext : Externals} (fuel : nat) :
  (∀ m rt name a,
     m_assemblies rt !! name = Some a →
     m_assemblies (executeInstructions fuel (m, rt)).2.2 !! name = Some a)
  ∧ (∀ assembly rt name a,
       m_assemblies rt !! name = Some a →
       m_assemblies (run fuel assembly rt).2 !! name = Some a)
  ∧ (∀ m rt, m_assemblyLoaders (executeInstructions fuel (m, rt)).2.2 = m_assemblyLoaders rt)
  ∧ (∀ assembly rt, m_assemblyLoaders (run fuel assembly rt).2 = m_assemblyLoaders rt).
Proof.
  split; [|split; [|split]].
  - apply registered_assemblies_stay_helper.
  - apply registered_assemblies_stay_helper.
  - intros m rt. by destruct (executeInstructions_grows fuel (m, rt)) as [_ (_ & Hl & _)].
  - intros assembly rt. by destruct (run_grows fuel assembly rt) as (_ & Hl & _).
Qed.

Lemma registered_assemblies_stay_witness :
  m_assemblies (run (ext := scenarioExternals) 20 Caller_assembly
                  (set_assemblies {[ "B" := Callee_assembly ]} newRuntime)).2 !! "B"
  = Some Callee_assembly.
Proof.
  refine (proj1 (proj2 (registered_assemblies_stay (ext := scenarioExternals) 20))
            Caller_assembly (set_assemblies {[ "B" := Callee_assembly ]} newRuntime)
            "B" Callee_assembly _).
  reflexivity.
Defined.

(** X17.  The standard output is only appended to: the lines written
    before [executeInstructions] or [run] are the first lines of the
    output afterwards, however the run ends. *)
Theorem output_is_only_appended {ext : Externals} (fuel : nat) :
  (∀ m rt, ∃ more,
     output (executeInstructions fuel (m, rt)).2.2 = output rt ++ more)
  ∧ (∀ assembly rt, ∃ more, output (run fuel assembly rt).2 = output rt ++ more).
Proof.
  split.
  - intros m rt. by destruct (executeInstructions_grows fuel (m, rt)) as [_ (_ & _ & Hout & _)].
  - intros assembly rt. by destruct (run_grows fuel assembly rt) as (_ & _ & Hout & _).
Qed.

(** X18.  No instruction frees or changes an object of the heap: an
    object found under a handle before [executeInstructions] or [run] is
    found under it, with the same storage and the same bytes, afterwards. *)
Theorem heap_objects_stay {ext : Externals} (fuel : nat) :
  (∀ m rt key object,
     m_heap rt !! key = Some object →
     m_heap (executeInstructions fuel (m, rt)).2.2 !! key = Some object)
  ∧ (∀ assembly rt key object,
       m_heap rt !! key = Some object →
       m_heap (run fuel assembly rt).2 !! key = Some object).
Proof.
  split.
  - intros m rt key object Hkey.
    destruct (executeInstructions_grows fuel (m, rt)) as [_ (_ & _ & _ & Hsub)].
    by eapply lookup_weaken.
  - intros assembly rt key object Hkey.
    destruct (run_grows fuel assembly rt) as (_ & _ & _ & Hsub).
    by eapply lookup_weaken.
Qed.

Lemma heap_objects_stay_witness :
  m_heap (run (ext := scenarioExternals) 20 S4_assembly
            (set_heap 1 {[ 0 := (0x3000, [1; 2; 3]) ]} newRuntime)).2 !! 0
  = Some (0x3000, [1; 2; 3]).
Proof.
  refine (proj2 (heap_objects_stay (ext := scenarioExternals) 20)
            S4_assembly (set_heap 1 {[ 0 := (0x3000, [1; 2; 3]) ]} newRuntime)
            0 (0x3000, [1; 2; 3]) _).
  reflexivity.
Defined.

(** X19.  A frame stays the frame of its method: whatever
    [executeInstructions] does, and however it ends, the frame it leaves
    has the assembly, the method token and the number of slots of the
    frame it was given, which for a frame made by the constructor is
    [0xFF]. *)
Theorem a_frame_keeps_its_method_and_slots {ext : Externals} (fuel : nat) (m : Method)
    (rt : Runtime) :
  sameFrame m (executeInstructions fuel (m, rt)).2.1
  ∧ ∀ a token,
      length (m_localVariables
                (executeInstructions fuel (newMethod a token, rt)).2.1) = 255%nat.
Proof.
  split.
  - by destruct (executeInstructions_grows fuel (m, rt)) as [Hframe _].
  - intros a token.
    destruct (executeInstructions_grows fuel (newMethod a token, rt)) as [(_ & _ & Hlen) _].
    rewrite Hlen. reflexivity.
Qed.

(** X20.  The frame of a callee is a local of the handler that enters
    it: [Call], [Newobj] and the three instructions on static fields
    return with the calling frame, its program counter and its locals,
    exactly as it was, whatever the method entered does and however it
    ends. *)
Theorem entering_a_method_keeps_the_caller {ext : Externals}
    (exec : M (Method * Runtime) unit) (token : Token) (m : Method) (rt : Runtime) :
  (call exec token (m, rt)).2.1 = m
  ∧ (newobj exec token (m, rt)).2.1 = m
  ∧ (ldsfld exec token (m, rt)).2.1 = m
  ∧ (ldsflda exec token (m, rt)).2.1 = m
  ∧ (stsfld exec token (m, rt)).2.1 = m.
Proof.
  assert (Hcall : monotone (framed eq (λ _ _, True)) (call exec token))
    by (apply monotone_call; first [done | apply _]).
  assert (Hnewobj : monotone (framed eq (λ _ _, True)) (newobj exec token))
    by (apply monotone_newobj; first [done | apply _]).
  assert (Hldsfld : monotone (framed eq (λ _ _, True)) (ldsfld exec token))
    by (apply monotone_ldsfld; first [done | apply _]).
  assert (Hldsflda : monotone (framed eq (λ _ _, True)) (ldsflda exec token))
    by (apply monotone_ldsflda; first [done | apply _]).
  assert (Hstsfld : monotone (framed eq (λ _ _, True)) (stsfld exec token))
    by (apply monotone_stsfld; first [done | apply _]).
  repeat split.
  - by destruct (Hcall (m, rt)).
  - by destruct (Hnewobj (m, rt)).
  - by destruct (Hldsfld (m, rt)).
  - by destruct (Hldsflda (m, rt)).
  - by destruct (Hstsfld (m, rt)).
Qed.

(** ** The heap, the registry and the loaders *)

(** X21.  On a heap whose handles are all below the counter, as the heap
    of a new runtime is, [createHeapObject] does not fail: it stores a
    zero-filled object of the size asked for under the counter, returns a
    reference of type [O] to the storage of that object, leaves the other
    objects as they are and moves the counter on by one, so that the
    handles are below the counter again. *)
Theorem createHeapObject_makes_a_fresh_object (size : Z) (rt : Runtime) :
  handlesBelowKey rt →
  m_heapKey rt + 1 < 2 ^ 64 →
  ∃ v data rt',
    createHeapObject size rt = (Ok v, rt')
    ∧ type v = O ∧ value v = le_encode 8 data
    ∧ m_heap rt' !! m_heapKey rt = Some (data, replicate (Z.to_nat size) 0)
    ∧ (∀ key, key ≠ m_heapKey rt → m_heap rt' !! key = m_heap rt !! key)
    ∧ m_heapKey rt' = m_heapKey rt + 1
    ∧ handlesBelowKey rt'.
Proof.
  intros [Hkey Hbelow] Hwrap.
  assert (Hfresh : m_heap rt !! m_heapKey rt = None).
  { destruct (m_heap rt !! m_heapKey rt) eqn:E; [|done].
    destruct (Hbelow (m_heapKey rt)); [by eexists | lia]. }
  assert (Hnext : (m_heapKey rt + 1) mod 2 ^ 64 = m_heapKey rt + 1)
    by (apply Z.mod_small; lia).
  unfold createHeapObject. rewrite !bind_gets, Hfresh.
  assert (Hdata : ∃ data rt1, vectorStorage size rt = (Ok data, rt1)
                              ∧ m_heap rt1 = m_heap rt ∧ m_heapKey rt1 = m_heapKey rt).
  { unfold vectorStorage. destruct (size <=? 0); by eexists _, _. }
  destruct Hdata as (data & rt1 & Hstorage & Hheap1 & Hkey1).
  rewrite bind_eq, Hstorage.
  unfold mbind, M_bind, allocate, modify, mret, M_ret.
  eexists _, data, _. split; [reflexivity|].
  match goal with |- context [m_heapKey ?r = _] => set (rt' := r) end.
  assert (Hheap : m_heap rt'
                  = <[m_heapKey rt := (data, replicate (Z.to_nat size) 0)]> (m_heap rt))
    by reflexivity.
  assert (Hk : m_heapKey rt' = m_heapKey rt + 1) by (rewrite <- Hnext; reflexivity).
  split; [done|]. split; [done|]. rewrite Hheap.
  split; [by rewrite lookup_insert_eq|].
  split; [intros key Hne; by rewrite lookup_insert_ne|].
  split; [exact Hk|].
  split; [lia|]. intros key [object Hobject]. rewrite Hheap in Hobject. rewrite Hk.
  destruct (decide (key = m_heapKey rt)) as [->|Hne]; [lia|].
  rewrite lookup_insert_ne in Hobject by done.
  destruct (Hbelow key); [by eexists | lia].
Qed.

Lemma createHeapObject_makes_a_fresh_object_witness :
  ∃ v data rt',
    createHeapObject 12 newRuntime = (Ok v, rt')
    ∧ type v = O ∧ value v = le_encode 8 data
    ∧ m_heap rt' !! 0 = Some (data, replicate 12 0)
    ∧ (∀ key, key ≠ 0 → m_heap rt' !! key = m_heap newRuntime !! key)
    ∧ m_heapKey rt' = 1
    ∧ handlesBelowKey rt'.
Proof.
  refine (createHeapObject_makes_a_fresh_object 12 newRuntime _ _).
  - split; [reflexivity|]. intros key [object Hobject]. discriminate Hobject.
  - reflexivity.
Defined.

Lemma tryLoaders_app loaders function name :
  tryLoaders (loaders ++ [function]) name
  = match tryLoaders loaders name with
    | Some a => Some a
    | None => function name
    end.
Proof.
  induction loaders as [|g loaders IH]; simpl.
  - by destruct (function name).
  - by destruct (g name).
Qed.

(** X22.  The loaders answer in the order in which they were added: for a
    name that is not registered, the look-up returns the assembly of the
    first loader in that order that has one and registers it under the
    name, so that the answer of a loader added by [addAssemblyLoader] is
    the result only when every loader added before it has none; when no
    loader has one the look-up fails with "Could not find assembly" and
    registers nothing. *)
Theorem the_first_loader_that_answers_is_used (rt : Runtime)
    (function : string → option Assembly) (name : string) :
  m_assemblies rt !! name = None →
  let found := findAssembly name (addAssemblyLoader function rt) in
  (∀ before g after a,
     m_assemblyLoaders rt = before ++ g :: after →
     Forall (λ h, h name = None) before → g name = Some a →
     found.1 = Ok a ∧ m_assemblies found.2 !! name = Some a)
  ∧ (Forall (λ h, h name = None) (m_assemblyLoaders rt) →
     match function name with
     | Some a => found.1 = Ok a ∧ m_assemblies found.2 !! name = Some a
     | None => found = (Fail (Throw (AssemblyNotFound name)), addAssemblyLoader function rt)
     end).
Proof.
  intros Hnone found. subst found. unfold findAssembly.
  change (m_assemblies (addAssemblyLoader function rt)) with (m_assemblies rt).
  change (m_assemblyLoaders (addAssemblyLoader function rt))
    with (m_assemblyLoaders rt ++ [function]).
  rewrite Hnone, tryLoaders_app. split.
  - intros before g after a Hsplit Hdecline Hg.
    assert (Hfirst : tryLoaders (m_assemblyLoaders rt) name = Some a).
    { apply tryLoaders_Some. by exists before, g, after. }
    rewrite Hfirst. split; [done|]. simpl. by rewrite lookup_insert_eq.
  - intros Hdecline. apply tryLoaders_None in Hdecline. rewrite Hdecline.
    destruct (function name) as [a|]; [|done].
    split; [done|]. simpl. by rewrite lookup_insert_eq.
Qed.

Lemma the_first_loader_that_answers_is_used_witness :
  let found := findAssembly "B"
                 (addAssemblyLoader (λ _, Some Caller_assembly)
                    (addAssemblyLoader Callee_loader newRuntime)) in
  found.1 = Ok Callee_assembly ∧ m_assemblies found.2 !! "B" = Some Callee_assembly.
Proof.
  refine (proj1 (the_first_loader_that_answers_is_used
                   (addAssemblyLoader Callee_loader newRuntime)
                   (λ _, Some Caller_assembly) "B" _)
            [] Callee_loader [] Callee_assembly _ _ _).
  - reflexivity.
  - reflexivity.
  - constructor.
  - reflexivity.
Defined.

(** X23.  An assembly that a look-up has found is registered: the next
    look-up of the name returns the same assembly and changes nothing,
    whatever loaders the runtime has by then. *)
Theorem a_found_assembly_is_registered (name : string) (rt rt1 : Runtime) (a : Assembly) :
  findAssembly name rt = (Ok a, rt1) →
  m_assemblies rt1 !! name = Some a
  ∧ ∀ loaders,
      findAssembly name (set_assemblyLoaders loaders rt1)
      = (Ok a, set_assemblyLoaders loaders rt1).
Proof.
  unfold findAssembly.
  destruct (m_assemblies rt !! name) as [a0|] eqn:Hname.
  - intros [= <- <-]. split; [done|]. intros loaders. simpl. by rewrite Hname.
  - destruct (tryLoaders _ _) as [a0|]; [|done]. intros [= <- <-].
    split; [simpl; by rewrite lookup_insert_eq|].
    intros loaders. simpl. by rewrite lookup_insert_eq.
Qed.

Lemma a_found_assembly_is_registered_witness :
  let rt1 := (findAssembly "B" (addAssemblyLoader Callee_loader newRuntime)).2 in
  m_assemblies rt1 !! "B" = Some Callee_assembly
  ∧ ∀ loaders,
      findAssembly "B" (set_assemblyLoaders loaders rt1)
      = (Ok Callee_assembly, set_assemblyLoaders loaders rt1).
Proof.
  intros rt1.
  refine (a_found_assembly_is_registered "B" (addAssemblyLoader Callee_loader newRuntime)
            rt1 Callee_assembly _).
  reflexivity.
Defined.

Lemma moduleName_Ok (a : Assembly) (name : string) :
  moduleName a = Ok name →
  ∃ module mo,
    getModule a = Ok module ∧ derefModule a module = Ok mo
    ∧ name = getString a (mod_nameIndex mo).
Proof.
  unfold moduleName.
  destruct (getModule a) as [module|]; [|done]. rewrite Res_bind_Ok.
  destruct (derefModule a module) as [mo|] eqn:Hmo; [|done]. rewrite Res_bind_Ok.
  intros [= <-]. by exists module, mo.
Qed.

Lemma last_storeBack (m : Method) (rt : Runtime) :
  last (m_methodStack (storeBack m rt)) = Some m.
Proof. simpl. by rewrite last_snoc. Qed.

(** X24.  The registry never replaces an entry: when the module name of
    an assembly is already registered, [addAssembly] drops the assembly
    and leaves the runtime as it is, and the frame that [run] pushes and
    executes is the entry point of the registered assembly, not of the
    assembly it was given; the registered assembly is still the one under
    the name afterwards. *)
Theorem a_registered_name_is_not_replaced {ext : Externals} (fuel : nat)
    (assembly registered : Assembly) (name : string) (rt : Runtime) :
  moduleName assembly = Ok name →
  m_assemblies rt !! name = Some registered →
  addAssembly assembly rt = (Ok tt, rt)
  ∧ ∃ frame,
      last (m_methodStack (run fuel assembly rt).2) = Some frame
      ∧ m_assembly frame = registered
      ∧ m_methodToken frame = getEntrypointMethodToken registered
      ∧ m_assemblies (run fuel assembly rt).2 !! name = Some registered.
Proof.
  intros Hname Hregistered.
  destruct (moduleName_Ok assembly name Hname) as (module & mo & Hmodule & Hmo & ->).
  assert (Hemplace : emplaceAssembly (getString assembly (mod_nameIndex mo)) assembly rt
                     = (Ok registered, rt)).
  { unfold emplaceAssembly. by rewrite Hregistered. }
  split.
  - unfold addAssembly.
    rewrite Hmodule, bind_liftRes_Ok, Hmo, bind_liftRes_Ok, bind_eq, Hemplace. done.
  - pose proof (proj2 (registered_assemblies_stay_helper fuel) assembly rt _ _ Hregistered)
      as Hstay.
    revert Hstay. unfold run.
    rewrite Hmodule, bind_liftRes_Ok, Hmo, bind_liftRes_Ok, bind_eq, Hemplace.
    rewrite !bind_modify, bind_eq. unfold executeEntry.
    match goal with
    | |- context [executeInstructions fuel ?s] =>
      pose proof (executeInstructions_grows fuel s) as [(Ha & Ht & _) _];
      destruct (executeInstructions fuel s) as [[[]|f] [frame rt']]
    end; intros Hstay; exists frame; cbn [fst snd] in *.
    + unfold mret, M_ret in *. cbn [snd] in *. by rewrite last_storeBack.
    + by rewrite last_storeBack.
Qed.

Lemma a_registered_name_is_not_replaced_witness :
  addAssembly Unwritten_assembly (set_assemblies {[ "S4.dll" := S4_assembly ]} newRuntime)
  = (Ok tt, set_assemblies {[ "S4.dll" := S4_assembly ]} newRuntime).
Proof.
  refine (proj1 (a_registered_name_is_not_replaced (ext := scenarioExternals) 0
                   Unwritten_assembly S4_assembly "S4.dll"
                   (set_assemblies {[ "S4.dll" := S4_assembly ]} newRuntime) _ _)).
  - reflexivity.
  - reflexivity.
Defined.

(** ** Static fields *)

(** X25.  For a field of a type that is initialized, [Stsfld] followed by
    [Ldsfld] is a round trip: the first moves the value on top of a
    balanced stack into the variable of the field, the second pushes it
    back, so that the evaluation stack is the one before the two
    instructions; unlike a local after [Ldloc], the field still holds
    the value afterwards.  No method is entered. *)
Theorem stsfld_then_ldsfld_restores_the_stack {ext : Externals}
    (exec : M (Method * Runtime) unit) (token : Token) (m : Method) (rt : Runtime)
    (field typeDef : Z) (fd : Field) (rest : list ValueType) (t : ValueType)
    (T : PayloadType) :
  getTableEntry (m_assembly m) Field_ID token = Ok field →
  getTypeDefOfField (m_assembly m) field = Ok typeDef →
  typeDef ∈ m_initializedTypes rt →
  derefField (m_assembly m) field = Ok fd →
  m_typeStack (m_evalStack rt) = rest ++ [t] →
  payloadOf t = Some T →
  balanced (m_evalStack rt) →
  ∃ v rt1 rt2,
    stsfld exec token (m, rt) = (Ok tt, (m, rt1))
    ∧ m_staticVariables rt1 !! field = Some (Some v)
    ∧ type v = t ∧ (pop T (m_evalStack rt)).1 = Ok (value v)
    ∧ m_typeStack (m_evalStack rt1) = rest
    ∧ ldsfld exec token (m, rt1) = (Ok tt, (m, rt2))
    ∧ m_evalStack rt2 = m_evalStack rt
    ∧ m_staticVariables rt2 !! field = Some (Some v).
Proof.
  intros Hfield HtypeDef Hin Hfd Htags HT Hbal.
  set (line := EvAccessingField (getString (m_assembly m) (fd_nameIndex fd))).
  set (rto := set_output (output rt ++ [line]) rt).
  destruct (createVariable_takes_the_top rto rest t T Htags HT Hbal)
    as (Hcreate & Hpop & _).
  change (m_evalStack rto) with (m_evalStack rt) in Hcreate, Hpop.
  change (freeStore rto) with (freeStore rt) in Hcreate.
  set (s := m_evalStack rt) in *.
  set (bs := take (Z.to_nat (sizeof T)) (drop (Z.to_nat (m_stackPointer s - sizeof T)) (m_stack s))) in *.
  set (s1 := mkStack (m_stack s) rest (m_stackPointer s - sizeof T)) in *.
  set (v := mkVariable (freeStore rt) t bs) in *.
  set (rta := set_freeStore (freeStore rt + Z.max (8 + sizeof T) 1) (set_evalStack s1 rto)) in *.
  set (rt1 := set_staticVariables (<[field := Some v]> (m_staticVariables rta)) rta).
  set (rt1o := set_output (output rt1 ++ [line]) rt1).
  assert (Hpush : push T bs s1 = (Ok tt, s))
    by exact (push_restores_the_top s rest t T Htags HT Hbal).
  exists v, rt1, (set_evalStack s rt1o).
  split; [|split; [|split; [|split; [|split; [|split; [|split]]]]]].
  - unfold stsfld. rewrite bind_eq.
    rewrite (loadStaticField_initialized exec token m rt field typeDef Hfield HtypeDef Hin), Hfd.
    fold line. fold rto. rewrite bind_inFrame.
    rewrite Hcreate. reflexivity.
  - simpl. by rewrite lookup_insert_eq.
  - done.
  - by rewrite Hpop.
  - done.
  - rewrite ldsfld_steps.
    rewrite (loadStaticField_initialized exec token m rt1 field typeDef Hfield HtypeDef Hin), Hfd.
    fold line. fold rt1o.
    assert (Hlookup : m_staticVariables rt1o !! field = Some (Some v))
      by (simpl; by rewrite lookup_insert_eq).
    rewrite Hlookup. unfold storeVariableOnStack. cbn [type value v]. rewrite HT.
    unfold onStack. change (m_evalStack rt1o) with s1. by rewrite Hpush.
  - done.
  - simpl. by rewrite lookup_insert_eq.
Qed.

Lemma stsfld_then_ldsfld_restores_the_stack_witness :
  let m := newMethod S4_assembly (mkToken MethodDef_ID 1) in
  let rt := set_initializedTypes {[ 0x20218 ]} (set_evalStack wide_on_top newRuntime) in
  ∃ v rt1 rt2,
    stsfld (ext := scenarioExternals) (executeInstructions (ext := scenarioExternals) 0)
      (mkToken Field_ID 1) (m, rt) = (Ok tt, (m, rt1))
    ∧ m_staticVariables rt1 !! 0x20226 = Some (Some v)
    ∧ type v = Int64 ∧ (pop i64 (m_evalStack rt)).1 = Ok (value v)
    ∧ m_typeStack (m_evalStack rt1) = []
    ∧ ldsfld (ext := scenarioExternals) (executeInstructions (ext := scenarioExternals) 0)
        (mkToken Field_ID 1) (m, rt1) = (Ok tt, (m, rt2))
    ∧ m_evalStack rt2 = m_evalStack rt
    ∧ m_staticVariables rt2 !! 0x20226 = Some (Some v).
Proof.
  intros m rt.
  refine (stsfld_then_ldsfld_restores_the_stack (ext := scenarioExternals)
            (executeInstructions (ext := scenarioExternals) 0) (mkToken Field_ID 1) m rt
            0x20226 0x20218 (mkField (nameIndex S4_names "F")) [] Int64 i64 _ _ _ _ _ _ _).
  - reflexivity.
  - reflexivity.
  - refine (bool_decide_unpack _ _). vm_compute. exact I.
  - reflexivity.
  - reflexivity.
  - reflexivity.
  - split; vm_compute; [reflexivity | discriminate].
Defined.

(** ** The ends of the instruction loop *)

Lemma instructionLoop_at_the_end {ext : Externals} (fuel : nat) (bytes : list u8)
    (m : Method) (rt : Runtime) :
  Z.of_nat (length bytes) <= m_instructionOffset m →
  instructionLoop (S fuel) bytes (m, rt) = (Ok tt, (m, rt)).
Proof.
  intros Hend. cbn [instructionLoop]. rewrite bind_gets. cbn [fst].
  destruct (_ <? _) eqn:E; [apply Z.ltb_lt in E; lia | done].
Qed.

(** X26.  The loop over the instructions ends when the program counter is
    not inside the code: a method without code returns at once and
    changes nothing, and so does a method after a branch whose target is
    past the end of its code or, with the 64-bit counter wrapping, before
    its start; no error is raised for such a branch. *)
Theorem the_loop_ends_outside_the_code {ext : Externals} (fuel : nat) (bytes : list u8)
    (m : Method) (rt : Runtime) (offset : Z) :
  Z.of_nat (length bytes) <= 2 ^ 63 →
  (Z.of_nat (length bytes) <= m_instructionOffset m →
   instructionLoop (S fuel) bytes (m, rt) = (Ok tt, (m, rt)))
  ∧ (- 2 ^ 63 <= m_instructionOffset m + offset < 0
     ∨ Z.of_nat (length bytes) <= m_instructionOffset m + offset < 2 ^ 64 →
     (br offset;; instructionLoop (S fuel) bytes) (m, rt)
     = (Ok tt, (offsetProgramCounter m offset, rt))).
Proof.
  intros Hsize. split; [apply instructionLoop_at_the_end|].
  intros Htarget. rewrite bind_eq. unfold br, modify.
  apply instructionLoop_at_the_end. simpl.
  assert (H63 : (2 ^ 63 : Z) = 9223372036854775808) by reflexivity.
  assert (H64 : (2 ^ 64 : Z) = 18446744073709551616) by reflexivity.
  rewrite H63 in *. rewrite H64 in *.
  destruct Htarget as [Hbefore | Hafter].
  - rewrite <- (Z_mod_plus_full _ 1 18446744073709551616), Z.mod_small by lia. lia.
  - rewrite Z.mod_small by lia. lia.
Qed.

Lemma the_loop_ends_outside_the_code_witness :
  (br (-3);;
   instructionLoop (ext := scenarioExternals) 1 [0x00; 0x2B; 0xFD])
    (setInstructionOffset (newMethod S3_assembly (mkToken MethodDef_ID 1)) 2, newRuntime)
  = (Ok tt,
     (offsetProgramCounter
        (setInstructionOffset (newMethod S3_assembly (mkToken MethodDef_ID 1)) 2) (-3),
      newRuntime)).
Proof.
  refine (proj2 (the_loop_ends_outside_the_code (ext := scenarioExternals) 0
                   [0x00; 0x2B; 0xFD]
                   (setInstructionOffset (newMethod S3_assembly (mkToken MethodDef_ID 1)) 2)
                   newRuntime (-3) _) _).
  - vm_compute. discriminate.
  - left. vm_compute. split; [discriminate | reflexivity].
Defined.

(** X27.  One round of the loop on [Ret] or on an opcode that the
    [switch] does not name: the program counter is moved past the
    instruction and its name is written first; then [Ret] ends the loop
    normally and the other opcode raises "Unimplemented opcode".  Neither
    touches the evaluation stack or decodes what follows. *)
Theorem ret_and_unknown_opcodes_end_the_loop {ext : Externals} (fuel : nat)
    (bytes : list u8) (m : Method) (rt : Runtime) :
  m_instructionOffset m < Z.of_nat (length bytes) →
  let instruction := decode (drop (Z.to_nat (m_instructionOffset m)) bytes) in
  let after :=
    (setInstructionOffset m ((m_instructionOffset m + getLength instruction) mod 2 ^ 64),
     set_output (output rt ++ [EvOpcode (getOpcode instruction)]) rt) in
  (getOpcode instruction = Ret →
   instructionLoop (S fuel) bytes (m, rt) = (Ok tt, after))
  ∧ (∀ code, getOpcode instruction = OtherOpcode code →
     instructionLoop (S fuel) bytes (m, rt)
     = (Fail (Throw (UnimplementedOpcode code)), after)).
Proof.
  intros Hin instruction after.
  assert (Hstep : instructionLoop (S fuel) bytes (m, rt)
                  = (if isRet (getOpcode instruction) then mret tt
                     else dispatch (withByteCode (instructionLoop fuel)) instruction;;
                          instructionLoop fuel bytes) after).
  { cbn [instructionLoop]. rewrite bind_gets. cbn [fst].
    destruct (_ <? _) eqn:E; [|apply Z.ltb_ge in E; lia].
    rewrite bind_modify. cbn beta iota. rewrite bind_inFrame. reflexivity. }
  split.
  - intros Hret. rewrite Hstep. by rewrite Hret.
  - intros code Hcode. rewrite Hstep, Hcode. cbn [isRet].
    rewrite bind_eq. unfold dispatch. by rewrite Hcode.
Qed.

Lemma ret_and_unknown_opcodes_end_the_loop_witness :
  instructionLoop (ext := scenarioExternals) 1 [0x00; 0x5A]
    (setInstructionOffset (newMethod S3_assembly (mkToken MethodDef_ID 1)) 1, newRuntime)
  = (Fail (Throw (UnimplementedOpcode 0x5A)),
     (setInstructionOffset (newMethod S3_assembly (mkToken MethodDef_ID 1)) 2,
      set_output [EvOpcode (OtherOpcode 0x5A)] newRuntime)).
Proof.
  refine (proj2 (ret_and_unknown_opcodes_end_the_loop (ext := scenarioExternals) 0
                   [0x00; 0x5A]
                   (setInstructionOffset (newMethod S3_assembly (mkToken MethodDef_ID 1)) 1)
                   newRuntime _) 0x5A _).
  - reflexivity.
  - reflexivity.
Defined.

(** ** The errors of a call *)

(** X28.  A call through a MemberRef whose names lie in the string heap
    of the caller and whose assembly is registered, with TypeDef rows that
    can be read and of which none has the namespace and name asked for,
    raises "Assembly does not contain method" with the four names of the
    reference; [Call] and [Newobj] do so alike, before any line is
    written, any object is made or any method is entered, and the state
    at the [throw] is the state before the instruction. *)
Theorem a_call_of_an_absent_type_is_an_error {ext : Externals}
    (exec : M (Method * Runtime) unit) (token : Token) (m : Method) (rt : Runtime)
    (name : QualifiedName) (assembly : Assembly) (table : list Row) :
  getId token = MemberRef_ID →
  getQualifiedMemberName (m_assembly m) token = Ok name →
  memberNamesInHeap (m_assembly m) token = Ok true →
  m_assemblies rt !! qn_assemblyName name = Some assembly →
  tableData assembly !! Z.to_nat TypeDef_ID = Some table →
  Z.of_nat (length table) < 2 ^ 24 →
  Forall (anotherType assembly (qn_namespaceName name) (qn_typeName name)) table →
  let error := Throw (MethodNotFound (qn_assemblyName name) (qn_namespaceName name)
                        (qn_typeName name) (qn_methodName name)) in
  call exec token (m, rt) = (Fail error, (m, rt))
  ∧ newobj exec token (m, rt) = (Fail error, (m, rt)).
Proof.
  intros Hid Hname _ Hregistered Htable Hlen Hall error.
  pose proof (getMethodByName_types_absent assembly (qn_namespaceName name) (qn_typeName name)
                (qn_methodName name) table Htable Hlen Hall (length table) 0%nat eq_refl)
    as Hscan.
  assert (Hnone : getMethodByName assembly (qn_namespaceName name) (qn_typeName name)
                    (qn_methodName name) = Ok nullptr).
  { unfold getMethodByName.
    by rewrite (getTableRowCount_rows assembly TypeDef_ID table Htable), Nat2Z.id. }
  assert (Hfind : findAssembly (qn_assemblyName name) rt = (Ok assembly, rt)).
  { unfold findAssembly. by rewrite Hregistered. }
  split.
  - unfold call. rewrite bind_gets. cbn [fst]. rewrite Hid. cbn [Z.eqb Pos.eqb MemberRef_ID MethodDef_ID].
    rewrite Hname, bind_liftRes_Ok. cbn beta zeta.
    rewrite bind_inFrame, Hfind, Hnone, bind_liftRes_Ok. reflexivity.
  - unfold newobj. rewrite bind_gets. cbn [fst]. rewrite Hid. cbn [Z.eqb Pos.eqb MemberRef_ID MethodDef_ID].
    rewrite Hname, bind_liftRes_Ok. cbn beta zeta.
    rewrite bind_inFrame, Hfind, Hnone, bind_liftRes_Ok. reflexivity.
Qed.

Lemma a_call_of_an_absent_type_is_an_error_witness :
  let m := newMethod Caller_assembly (mkToken MethodDef_ID 1) in
  let rt := set_assemblies {[ "B" := S3_assembly ]} newRuntime in
  let error := Throw (MethodNotFound "B" "Ns" "C" "M") in
  call (executeInstructions (ext := scenarioExternals) 0) (mkToken MemberRef_ID 1) (m, rt)
  = (Fail error, (m, rt))
  ∧ newobj (ext := scenarioExternals) (executeInstructions (ext := scenarioExternals) 0)
      (mkToken MemberRef_ID 1) (m, rt)
    = (Fail error, (m, rt)).
Proof.
  intros m rt.
  refine (a_call_of_an_absent_type_is_an_error (ext := scenarioExternals)
            (executeInstructions (ext := scenarioExternals) 0) (mkToken MemberRef_ID 1) m rt
            (mkQualifiedName "B" "Ns" "C" "M") S3_assembly (rowsOf S3_assembly TypeDef_ID)
            _ _ _ _ _ _ _).
  - reflexivity.
  - reflexivity.
  - reflexivity.
  - reflexivity.
  - reflexivity.
  - reflexivity.
  - repeat constructor; try (vm_compute; discriminate);
      eexists; (split; [reflexivity|]); (split; [reflexivity|]);
      left; vm_compute; discriminate.
Defined.

(** ** The widening of a [float] *)

(** [widenFloat] on 1, -2.5, the nearest [float] to 0.1, the least and the
    greatest subnormal, the greatest finite value, a negative zero, an
    infinity and a NaN. *)
Lemma widenFloat_values :
  widenFloat 0x3F800000 = 0x3FF0000000000000
  ∧ widenFloat 0xC0200000 = 0xC004000000000000
  ∧ widenFloat 0x3DCCCCCD = 0x3FB99999A0000000
  ∧ widenFloat 0x00000001 = 0x36A0000000000000
  ∧ widenFloat 0x007FFFFF = 0x380FFFFFC0000000
  ∧ widenFloat 0x7F7FFFFF = 0x47EFFFFFE0000000
  ∧ widenFloat 0x80000000 = 0x8000000000000000
  ∧ widenFloat 0x7F800000 = 0x7FF0000000000000
  ∧ widenFloat 0x7FC00000 = 0x7FF8000000000000.
Proof. vm_compute. repeat split. Qed.

(** ** Loading a local *)

Lemma pop_keeps_the_bytes (T : PayloadType) (s : Stack) :
  m_stack (pop T s).2 = m_stack s.
Proof. unfold pop. by repeat case_match. Qed.

(** [ldloc] on a slot that holds a value: the state it ends in. *)
Lemma ldloc_moves (method : Method) (rt : Runtime) (id : Z) (v : VariableBase)
    (T : PayloadType) :
  m_localVariables method !! Z.to_nat id = Some (Some v) →
  payloadOf (type v) = Some T →
  Z.of_nat (length (value v)) = sizeof T →
  0 <= m_stackPointer (m_evalStack rt) →
  m_stackPointer (m_evalStack rt) + sizeof T <= Z.of_nat (length (m_stack (m_evalStack rt))) →
  let s := m_evalStack rt in
  let pushed :=
    mkStack (take (Z.to_nat (m_stackPointer s)) (m_stack s) ++ value v
             ++ drop (Z.to_nat (m_stackPointer s) + length (value v)) (m_stack s))
            (m_typeStack s ++ [type v])
            (m_stackPointer s + sizeof T) in
  let method' := setLocalVariable method id None in
  ldloc id (method, rt) = (Ok tt, (method', set_evalStack pushed rt))
  ∧ getTypeOnStack pushed 0 = Ok (type v)
  ∧ pop T pushed = (Ok (value v), mkStack (m_stack pushed) (m_typeStack s) (m_stackPointer s))
  ∧ m_assembly method' = m_assembly method
  ∧ m_methodToken method' = m_methodToken method
  ∧ m_instructionOffset method' = m_instructionOffset method
  ∧ m_localVariables method' !! Z.to_nat id = Some None
  ∧ ∀ j, j ≠ Z.to_nat id → m_localVariables method' !! j = m_localVariables method !! j.
Proof.
  intros Hslot HT Hlen Hsp Hroom s pushed method'.
  pose proof (payloadOf_getValueType _ _ HT) as Htag.
  pose proof (push_writes T (value v) s Hlen Hsp Hroom) as Hpush.
  rewrite Htag in Hpush. fold pushed in Hpush.
  destruct (push_then_pop T (value v) s Hlen Hsp Hroom)
    as (s1 & s2 & Hpush' & Htop & Hpop & Hpointer & Htags).
  rewrite Hpush in Hpush'. injection Hpush' as <-. rewrite Htag in Htop.
  pose proof (pop_keeps_the_bytes T pushed) as Hbytes. rewrite Hpop in Hbytes.
  split; [|split; [done|split; [|split; [done|split; [done|split; [done|split]]]]]].
  - unfold ldloc. rewrite bind_getsRes. unfold getLocalVariable. cbn [fst].
    rewrite Hslot. cbn beta iota. rewrite HT, bind_inFrame.
    unfold onStack. fold s. by rewrite Hpush.
  - rewrite Hpop. f_equal. destruct s2 as [bytes tags pointer].
    cbn [m_stack m_typeStack m_stackPointer snd] in Hbytes, Hpointer, Htags.
    by rewrite Hbytes, Hpointer, Htags.
  - apply list_lookup_insert_eq. by eapply lookup_lt_Some.
  - intros j Hj. by apply list_lookup_insert_ne.
Qed.

Lemma dispatch_ldloc {ext : Externals} exec instruction id :
  ldlocSlot instruction = Some id → dispatch exec instruction = ldloc id.
Proof.
  unfold ldlocSlot, dispatch. destruct (getOpcode instruction); by intros [= <-].
Qed.

(** C6.  Dispatching an instruction of the [Ldloc] family on a slot that
    holds a value pushes the value onto the evaluation stack as it is:
    the bytes of the value are written at the stack pointer, the bytes
    below and above them are kept, the tag of the value is added on top
    of the tags that were there, and the pointer moves up by the size of
    the value; so the tag on top is the stored tag, and a pop gives the
    value back and leaves the tags and the pointer of before.  Nothing
    else of the runtime changes.  The frame is left with the slot empty
    and with its assembly, its method, its program counter and its other
    slots as they were.  A run with a budget of [n] instructions stops
    before instruction [n + 1] and returns the state it has reached; so
    in scenario S3, after two instructions ([Stloc_0] done) the local 0
    holds 42; after three ([Ldloc_0] done) it is empty, the next
    instruction is [Pop] and the value on top of the stack, which [Pop]
    takes, is 42; and with a budget of five or more the run ends with 0
    and an empty stack. *)
Theorem ldloc_pushes_and_clears {ext : Externals} :
  (∀ exec instruction id method rt v T,
     ldlocSlot instruction = Some id →
     m_localVariables method !! Z.to_nat id = Some (Some v) →
     payloadOf (type v) = Some T →
     Z.of_nat (length (value v)) = sizeof T →
     0 <= m_stackPointer (m_evalStack rt) →
     m_stackPointer (m_evalStack rt) + sizeof T
       <= Z.of_nat (length (m_stack (m_evalStack rt))) →
     let s := m_evalStack rt in
     let pushed :=
       mkStack (take (Z.to_nat (m_stackPointer s)) (m_stack s) ++ value v
                ++ drop (Z.to_nat (m_stackPointer s) + length (value v)) (m_stack s))
               (m_typeStack s ++ [type v])
               (m_stackPointer s + sizeof T) in
     let method' := setLocalVariable method id None in
     dispatch exec instruction (method, rt) = (Ok tt, (method', set_evalStack pushed rt))
     ∧ getTypeOnStack pushed 0 = Ok (type v)
     ∧ pop T pushed
       = (Ok (value v), mkStack (m_stack pushed) (m_typeStack s) (m_stackPointer s))
     ∧ m_assembly method' = m_assembly method
     ∧ m_methodToken method' = m_methodToken method
     ∧ m_instructionOffset method' = m_instructionOffset method
     ∧ m_localVariables method' !! Z.to_nat id = Some None
     ∧ ∀ j, j ≠ Z.to_nat id →
            m_localVariables method' !! j = m_localVariables method !! j)
  ∧ (let stored := run (ext := scenarioExternals) 2 S3_assembly newRuntime in
     let loaded := run (ext := scenarioExternals) 3 S3_assembly newRuntime in
     let ended := run (ext := scenarioExternals) 5 S3_assembly newRuntime in
     (∃ v, output stored.2 = [EvOpcode Ldc_i4_s; EvOpcode Stloc_0]
           ∧ entryLocal stored.2 0 = Some (Some v)
           ∧ type v = Int32 ∧ le_decode (value v) = 42)
     ∧ output loaded.2 = [EvOpcode Ldc_i4_s; EvOpcode Stloc_0; EvOpcode Ldloc_0]
     ∧ entryLocal loaded.2 0 = Some None
     ∧ entryNextOpcode (ext := scenarioExternals) loaded.2 = Some Pop
     ∧ getTypeOnStack (m_evalStack loaded.2) 0 = Ok Int32
     ∧ (pop i32 (m_evalStack loaded.2)).1 = Ok (le_encode 4 42)
     ∧ ended.1 = Ok 0
     ∧ getUsedStackSize (m_evalStack ended.2) = 0
     ∧ m_typeStack (m_evalStack ended.2) = []
     ∧ ∀ fuel, (5 ≤ fuel)%nat →
               run (ext := scenarioExternals) fuel S3_assembly newRuntime = ended).
Proof.
  split.
  - intros exec instruction id method rt v T Hop.
    rewrite (dispatch_ldloc exec instruction id Hop). apply ldloc_moves.
  - split; [eexists; vm_compute; repeat split|].
    repeat (split; [vm_compute; reflexivity|]).
    intros fuel Hfuel. apply (run_more (ext := scenarioExternals) 5 fuel S3_assembly Hfuel).
    vm_compute. discriminate.
Qed.

Lemma ldloc_pushes_and_clears_witness :
  let v := mkVariable 0x1000 Int64 [1; 2; 3; 4; 5; 6; 7; 8] in
  let method :=
    setLocalVariable (newMethod S3_assembly (mkToken MethodDef_ID 1)) 3 (Some v) in
  let s := mkStack ([9; 9; 9; 9] ++ replicate 12 0) [Int32] 4 in
  let rt := set_evalStack s newRuntime in
  let pushed :=
    mkStack ([9; 9; 9; 9] ++ [1; 2; 3; 4; 5; 6; 7; 8] ++ replicate 4 0) [Int32; Int64] 12 in
  let method' := setLocalVariable method 3 None in
  dispatch (ext := scenarioExternals) (executeInstructions (ext := scenarioExternals) 5)
    (mkInstruction Ldloc_s [3] 2) (method, rt) = (Ok tt, (method', set_evalStack pushed rt))
  ∧ getTypeOnStack pushed 0 = Ok Int64
  ∧ pop i64 pushed = (Ok [1; 2; 3; 4; 5; 6; 7; 8], mkStack (m_stack pushed) [Int32] 4)
  ∧ m_assembly method' = m_assembly method
  ∧ m_methodToken method' = m_methodToken method
  ∧ m_instructionOffset method' = m_instructionOffset method
  ∧ m_localVariables method' !! 3%nat = Some None
  ∧ ∀ j, j ≠ 3%nat → m_localVariables method' !! j = m_localVariables method !! j.
Proof.
  intros v method s rt pushed method'.
  refine (proj1 (ldloc_pushes_and_clears (ext := scenarioExternals))
            (executeInstructions (ext := scenarioExternals) 5)
            (mkInstruction Ldloc_s [3] 2) 3 method rt v i64 _ _ _ _ _ _).
  - reflexivity.
  - reflexivity.
  - reflexivity.
  - reflexivity.
  - vm_compute. discriminate.
  - vm_compute. discriminate.
Defined.

(** ** The list of frames *)

Lemma agreeOn_refl {A} (frames : list Method) (c : M (Method * Runtime) A) :
  agreeOn frames c c.
Proof. by intros s _. Qed.

Lemma agreeOn_bind_same {A B} (frames : list Method) (c : M (Method * Runtime) A)
    (k k' : A → M (Method * Runtime) B) :
  (∀ s, m_methodStack (c s).2.2 = m_methodStack s.2) →
  (∀ a, agreeOn frames (k a) (k' a)) →
  agreeOn frames (c ≫= k) (c ≫= k').
Proof.
  intros Hc Hk s Hs. rewrite !bind_eq. specialize (Hc s).
  destruct (c s) as [[a|f] s']; [|done]. apply Hk. cbn [snd] in Hc. by rewrite Hc.
Qed.

Lemma agreeOn_bind_tail {A B} (frames : list Method) (c c' : M (Method * Runtime) A)
    (k : A → M (Method * Runtime) B) :
  agreeOn frames c c' → agreeOn frames (c ≫= k) (c' ≫= k).
Proof. intros Hc s Hs. by rewrite !bind_eq, (Hc s Hs). Qed.

Lemma agreeOn_enterFrame (exec exec' : M (Method * Runtime) unit) (frames : list Method)
    (callee : Method) :
  (∀ rt1, m_methodStack rt1 = frames → exec (callee, rt1) = exec' (callee, rt1)) →
  agreeOn frames (enterFrame exec callee) (enterFrame exec' callee).
Proof. intros Hexec [m rt1] Hs. unfold enterFrame. by rewrite Hexec. Qed.

Lemma keeping_frames {A} (c : M (Method * Runtime) A) :
  keeping c → ∀ s, m_methodStack (c s).2.2 = m_methodStack s.2.
Proof.
  intros Hc s. destruct (c s) as [r s'] eqn:E. by apply Hc in E as [Hframes _].
Qed.

Ltac agreeOn_step :=
  first
    [ apply agreeOn_refl
    | apply agreeOn_enterFrame; solve [auto]
    | apply agreeOn_bind_tail
    | apply agreeOn_bind_same;
        [ first [ apply keeping_frames; solve [keeping_auto] | intros [? ?]; reflexivity ]
        | intros ?; cbv beta ]
    | match goal with |- agreeOn _ (if ?b then _ else _) _ => destruct b end ].

Ltac agreeOn_auto := repeat agreeOn_step.

Section EnteringAFrame.
Context {ext : Externals}.
Variables exec exec' : M (Method * Runtime) unit.
Variable frames : list Method.
Hypothesis exec_new_frame :
  ∀ a tok rt1, m_methodStack rt1 = frames →
               exec (newMethod a tok, rt1) = exec' (newMethod a tok, rt1).

Lemma agreeOn_call token : agreeOn frames (call exec token) (call exec' token).
Proof using exec_new_frame. unfold call. cbv zeta. agreeOn_auto. Qed.

Lemma agreeOn_newobj token : agreeOn frames (newobj exec token) (newobj exec' token).
Proof using exec_new_frame. unfold newobj. cbv zeta. agreeOn_auto. Qed.

Lemma agreeOn_loadStaticField token :
  agreeOn frames (loadStaticField exec token) (loadStaticField exec' token).
Proof using exec_new_frame. unfold loadStaticField. cbv zeta. agreeOn_auto. Qed.
End EnteringAFrame.

(** [run] pushes the frame of the entry point before it executes, and the
    frame is in the list however the execution ends. *)
Lemma run_pushes_the_entry_frame {ext : Externals} fuel assembly rt name :
  moduleName assembly = Ok name →
  let executable := default assembly (m_assemblies rt !! name) in
  ∃ frame,
    m_methodStack (run fuel assembly rt).2 = m_methodStack rt ++ [frame]
    ∧ m_assembly frame = executable
    ∧ m_methodToken frame = getEntrypointMethodToken executable.
Proof.
  intros Hname executable.
  destruct (moduleName_Ok assembly name Hname) as (module & mo & Hmodule & Hmo & ->).
  assert (Hemplace : ∃ rt1, emplaceAssembly (getString assembly (mod_nameIndex mo)) assembly rt
                            = (Ok executable, rt1)
                            ∧ m_methodStack rt1 = m_methodStack rt) .
  { unfold emplaceAssembly, executable.
    destruct (m_assemblies rt !! _); by eexists. }
  destruct Hemplace as (rt1 & Hemplace & Hframes1).
  unfold run.
  rewrite Hmodule, bind_liftRes_Ok, Hmo, bind_liftRes_Ok, bind_eq, Hemplace.
  rewrite !bind_modify, bind_eq. unfold executeEntry.
  match goal with
  | |- context [executeInstructions fuel ?s] =>
    pose proof (executeInstructions_grows fuel s) as [(Ha & Ht & _) _];
    pose proof (keeping_frames _ (keeping_executeInstructions fuel) s) as Hframes;
    destruct (executeInstructions fuel s) as [[[]|f] [frame rt']]
  end; exists frame; cbn [fst snd] in *;
    unfold mret, M_ret; cbn [fst snd]; unfold storeBack;
    cbn [m_methodStack set_methodStack];
    rewrite Hframes; cbn [m_methodStack set_methodStack set_evalStack];
    by rewrite removelast_last, Hframes1.
Qed.

Lemma run_without_a_module_name {ext : Externals} fuel assembly rt f :
  moduleName assembly = Fail f → run fuel assembly rt = (Fail f, rt).
Proof.
  unfold moduleName, run.
  destruct (getModule assembly) as [module|f'];
    [rewrite Res_bind_Ok, bind_liftRes_Ok | intros [= <-]; by rewrite bind_liftRes_Fail].
  destruct (derefModule assembly module) as [mo|f'];
    [done | intros [= <-]; by rewrite bind_liftRes_Fail].
Qed.

(** C8.  The list of frames gets its frames from [run] alone.  [run]
    pushes one frame, that of the entry point of the assembly registered
    under the module name, before the first instruction, and the frame
    is the last of the list however and wherever the execution ends; a
    [run] that cannot read the module name pushes nothing.
    [executeInstructions] leaves the list as it is, whatever it executes
    and however it ends: no [Ret] takes a frame from it.  [Call],
    [Newobj] and the look-up of a static field execute the method they
    enter in a new frame, with the list as it was when the instruction
    began: what they do depends on the execution of new frames over that
    list only, and the frame of the method entered is not pushed. *)
Theorem frames_are_pushed_by_run_only {ext : Externals} :
  (∀ fuel s r s',
     executeInstructions fuel s = (r, s') →
     m_methodStack s'.2 = m_methodStack s.2)
  ∧ (∀ fuel assembly rt name,
       moduleName assembly = Ok name →
       let executable := default assembly (m_assemblies rt !! name) in
       ∃ frame,
         m_methodStack (run fuel assembly rt).2 = m_methodStack rt ++ [frame]
         ∧ m_assembly frame = executable
         ∧ m_methodToken frame = getEntrypointMethodToken executable)
  ∧ (∀ fuel assembly rt f,
       moduleName assembly = Fail f → run fuel assembly rt = (Fail f, rt))
  ∧ (∀ exec exec' token m rt,
       (∀ a tok rt1,
          m_methodStack rt1 = m_methodStack rt →
          exec (newMethod a tok, rt1) = exec' (newMethod a tok, rt1)) →
       call exec token (m, rt) = call exec' token (m, rt)
       ∧ newobj exec token (m, rt) = newobj exec' token (m, rt)
       ∧ loadStaticField exec token (m, rt) = loadStaticField exec' token (m, rt)).
Proof.
  split; [|split; [|split]].
  - intros fuel s r s' Hexec. by apply keeping_executeInstructions in Hexec as (Hs & _).
  - intros fuel assembly rt name. apply run_pushes_the_entry_frame.
  - intros fuel assembly rt f. apply run_without_a_module_name.
  - intros exec exec' token m rt Hexec. repeat split.
    + by apply (agreeOn_call exec exec' (m_methodStack rt) Hexec token (m, rt)).
    + by apply (agreeOn_newobj exec exec' (m_methodStack rt) Hexec token (m, rt)).
    + by apply (agreeOn_loadStaticField exec exec' (m_methodStack rt) Hexec token (m, rt)).
Qed.

Lemma frames_are_pushed_by_run_only_witness :
  ∃ frame,
    m_methodStack (run (ext := scenarioExternals) 2 Nested_assembly newRuntime).2
    = [] ++ [frame]
    ∧ m_assembly frame = Nested_assembly
    ∧ m_methodToken frame = mkToken MethodDef_ID 1.
Proof.
  refine (proj1 (proj2 (frames_are_pushed_by_run_only (ext := scenarioExternals)))
            2%nat Nested_assembly newRuntime _ _).
  vm_compute. reflexivity.
Defined.

(** In [Nested_assembly], [Main] calls [Helper].  Stopped after the [Nop]
    of [Helper], the run has the one frame of [Main] in the list, not a
    frame of [Helper] on top of it; and after the [Ret] of [Main] the run
    has returned with that frame still in the list. *)
Lemma frame_list_does_not_follow_calls :
  let inHelper := run (ext := scenarioExternals) 2 Nested_assembly newRuntime in
  let returned := run (ext := scenarioExternals) 20 Nested_assembly newRuntime in
  inHelper.1 = Fail OutOfFuel
  ∧ last (output inHelper.2) = Some (EvOpcode Nop)
  ∧ m_methodToken <$> m_methodStack inHelper.2 = [mkToken MethodDef_ID 1]
  ∧ returned.1 = Ok 0
  ∧ last (output returned.2) = Some (EvOpcode Ret)
  ∧ m_methodToken <$> m_methodStack returned.2 = [mkToken MethodDef_ID 1].
Proof. vm_compute. repeat split. Qed.
